(** * The migration engine of nodejs-skeleton (src/config/migrations.ts)

    A shallow embedding of the class [DatabaseMigrations]: discovery of the
    migration files, the [migrations] ledger table, the runner, the rollback
    entry points, refresh and status.

    How the program is modelled.
    - A JavaScript string is a [string]; its characters are the code units
      below 256, so the line terminators a regular expression's [.] refuses
      are LF and CR here.
    - The PostgreSQL table [migrations] is a list of rows in heap order.  The
      surrogate key [id] is never read by the program and is left out.
      [ORDER BY executed_at DESC] is a stable sort of the heap order (ties are
      left unspecified by PostgreSQL; the model keeps heap order for them).
    - Every asynchronous method is a computation [M A]: a function from the
      world to the trace of effects it performed, the world it left and how
      its promise ended: with a value, with the exception it threw, or not at
      all.  Nothing runs after an awaited promise that never settles, not
      even a [finally] block.  The world is not rolled back when an exception
      is thrown: every statement commits on its own.
    - The [up()] and [down()] methods of a migration class are opaque
      operations on the application part of the database.  They may fail
      after changing it.  They are assumed not to touch the [migrations]
      table, the migrations directory or the connection pool.
    - [CURRENT_TIMESTAMP] is read from the world's clock, which [tick]
      advances after each insert.  Nothing is assumed of [tick] unless a
      theorem says so.
    - The table has the columns and constraints [createMigrationsTable] gives
      it, with or without the [batch] column.  [VARCHAR(255)] is not modelled:
      a file name, and so the name taken from it, is shorter than that.
    - The connection pool is open or ended.  A query on an ended pool is
      rejected, and so is a second [pool.end()].  The first [pool.end()]
      waits for every client to come back; [config/database.ts] checks one
      out when it is loaded and never releases it, so that promise never
      settles.  Every entry point awaits it when [-e] is among the arguments
      of the process.
    - Of the script that creates a migration file, the computation of the
      file name is modelled; what [new Date().toISOString()] returned is an
      argument of it. *)

From Stdlib Require Import ZArith List String Ascii Bool Lia Sorting.Sorted
  Sorting.Permutation.
Import ListNotations.
Open Scope string_scope.
Open Scope list_scope.
Open Scope Z_scope.

(** ** JavaScript string helpers *)

(** [String.prototype.endsWith]. *)
Definition endsWith (s suffix : string) : bool :=
  let n := String.length s in
  let k := String.length suffix in
  (k <=? n)%nat && String.eqb (substring (n - k) k s) suffix.

Fixpoint all_chars (p : ascii -> bool) (s : string) : bool :=
  match s with
  | EmptyString => true
  | String c s' => p c && all_chars p s'
  end.

(** [\d] *)
Definition is_digit (c : ascii) : bool :=
  let n := nat_of_ascii c in ((48 <=? n) && (n <=? 57))%nat.

(** What [.] matches: anything but a line terminator. *)
Definition is_dot (c : ascii) : bool :=
  let n := nat_of_ascii c in negb ((n =? 10) || (n =? 13))%nat.

(** [filename.match(/^(\d{8}T\d{6})_(.+)\.(ts|js)$/)]: the captured
    timestamp and name, or [None] when the expression does not match.  The
    expression is anchored at both ends, so the extension is the last three
    characters and the greedy [(.+)] is everything between the underscore
    and the extension. *)
Definition match_filename (filename : string) : option (string * string) :=
  let n := String.length filename in
  let slug := substring 16 (n - 19) filename in
  let ext := substring (n - 3) 3 filename in
  if (20 <=? n)%nat
     && all_chars is_digit (substring 0 8 filename)
     && String.eqb (substring 8 1 filename) "T"
     && all_chars is_digit (substring 9 6 filename)
     && String.eqb (substring 15 1 filename) "_"
     && all_chars is_dot slug
     && (String.eqb ext ".ts" || String.eqb ext ".js")
  then Some (substring 0 15 filename, slug)
  else None.

(** [Array.prototype.sort()] without a comparator: ascending by code units. *)
Fixpoint insert_sorted (x : string) (l : list string) : list string :=
  match l with
  | [] => [x]
  | y :: l' => if String.leb x y then x :: l else y :: insert_sorted x l'
  end.

Fixpoint js_sort (l : list string) : list string :=
  match l with
  | [] => []
  | x :: l' => insert_sorted x (js_sort l')
  end.

(** ** The pattern as the specification words it

    [^\d{8}T\d{6}_[A-Za-z0-9_]+\.(ext)$] with [ext] one of [ts], [js]. *)
Definition is_slug_char (c : ascii) : bool :=
  let n := nat_of_ascii c in
  (((65 <=? n) && (n <=? 90)) || ((97 <=? n) && (n <=? 122))
   || ((48 <=? n) && (n <=? 57)) || (n =? 95))%nat.

Definition spec_pattern (filename : string) : bool :=
  let n := String.length filename in
  let ext := substring (n - 3) 3 filename in
  (20 <=? n)%nat
  && all_chars is_digit (substring 0 8 filename)
  && String.eqb (substring 8 1 filename) "T"
  && all_chars is_digit (substring 9 6 filename)
  && String.eqb (substring 15 1 filename) "_"
  && all_chars is_slug_char (substring 16 (n - 19) filename)
  && (String.eqb ext ".ts" || String.eqb ext ".js").

(** ** Data model *)

(** [interface MigrationFile]. *)
Record MigrationFile := {
  filename : string;
  timestamp : string;
  name : string
}.

(** A row of the table [migrations]: [migration_name VARCHAR(255) UNIQUE NOT
    NULL], [executed_at TIMESTAMP DEFAULT CURRENT_TIMESTAMP], and [batch
    INTEGER], which is nullable. *)
Record Row := {
  migration_name : string;
  executed_at : Z;
  batch : option Z
}.

(** The table.  [batch_column] is [None] while the table has no [batch]
    column (an installation older than batches) and [Some d] when it has one
    whose default is [d]. *)
Record Table := {
  batch_column : option (option Z);
  rows : list Row
}.

(** The largest value of PostgreSQL's [INTEGER]. *)
Definition int4_max : Z := 2147483647.

(** The environment the engine runs in: the application part of the database
    that migrations change, and how the clock advances. *)
Class Env := {
  App : Type;
  tick : Z -> Z
}.

(** What [require(migrationPath)] finds in a file: the migration class, its
    constructor and [up()] / [down()] taken together as two operations on the
    application data.  [Some e] in the result is the exception raised. *)
Record Ops `{Env} := {
  up : App -> App * option string;
  down : App -> App * option string
}.

(** An entry of the directory [src/migrations]: its name, and the migration
    class its module exports ([default], else the first export whose name
    ends in [Migration]), if any. *)
Record Entry `{Env} := {
  entry_name : string;
  exports : option Ops
}.

Record World `{Env} := {
  migrations : option Table;        (* the table, if it exists *)
  app : App;                        (* the rest of the database *)
  directory : option (list Entry);  (* src/migrations, if it exists *)
  now : Z;                          (* CURRENT_TIMESTAMP *)
  pool_ended : bool;                (* pool.end() has been called *)
  argv_e : bool                     (* process.argv.includes('-e') *)
}.

Inductive Error :=
| InvalidFilename (f : string)      (* Invalid migration filename format *)
| MigrationNotFound (n : string)    (* Migration <n> not found *)
| NoMigrationClass (f : string)     (* No migration class found in <f> *)
| CannotFindModule (f : string)     (* require() of a file that is gone *)
| OperationFailed (e : string)      (* raised by up() or down() *)
| UndefinedTable                    (* relation "migrations" does not exist *)
| UndefinedColumn                   (* column "batch" does not exist *)
| DuplicateColumn                   (* column "batch" already exists *)
| IntegerOutOfRange                 (* integer out of range *)
| PoolClosed                        (* query on a pool that was ended *)
| PoolEndedTwice.                   (* Called end on pool more than once *)

(** The SQL statements of the source. *)
Inductive Statement :=
| SelectTableExists
| CreateTableIfNotExists
| SelectColumnExists (table column : string)
| AlterAddBatch
| UpdateBatchNull
| SelectExecuted (n : string)
| InsertWithBatch (n : string) (b : Z)
| InsertDefault (n : string)
| SelectNamesDesc
| SelectDetailsDesc
| SelectLastBatch
| SelectNextBatch
| DeleteByName (n : string).

(** The lines written to the console. *)
Inductive Message :=
| NothingToMigrate
| MigrationsCompleted
| MigrationFailed (e : Error)
| TableCreatedOrUpdated
| Migrating (n : string)
| Migrated (n : string)
| MigrationOfFailed (n : string) (e : Error)
| RollingBackAll
| TableMissingNothingToRollback
| NoMigrationsToRollback
| AllRolledBack
| RollbackAllFailed (e : Error)
| RollingBack (n : string)
| RolledBack (n : string)
| RollingBackLastBatch (count : nat)
| LastBatchCompleted
| LastBatchFailed (e : Error)
| RollingBackSteps (steps : Z)
| NoMoreMigrations (i : Z)
| RollingBackBatch (i steps : Z) (count : nat)
| StepsCompleted (steps : Z)
| StepsFailed (e : Error)
| NotExecutedOrNotFound (n : string)
| SpecificCompleted
| SpecificFailed (e : Error)
| Refreshing
| Rerunning
| RefreshCompleted
| RefreshFailed (e : Error)
| TableMissingRunMigrate
| NoMigrationsYet
| History (lines : list (string * Z)) (total : nat)
| StatusFailed (e : Error).

(** The effects a computation performs, in the order it performs them. *)
Inductive Event :=
| Query (q : Statement)                          (* pool.query *)
| Up (m : MigrationFile) (raised : option string)    (* up() was invoked *)
| Down (m : MigrationFile) (raised : option string)  (* down() was invoked *)
| Log (msg : Message)                            (* console.log *)
| LogError (msg : Message)                       (* console.error *)
| Mkdir                                          (* fs.mkdirSync *)
| PoolEnd.                                       (* pool.end *)

(** How an awaited promise ends: fulfilled with a value, rejected with an
    exception, or never settled, in which case nothing that awaits it runs
    again. *)
Inductive Result (A : Type) :=
| Ok (a : A)
| Err (e : Error)
| Pending.
Arguments Ok {A} a.
Arguments Err {A} e.
Arguments Pending {A}.

(** ** Computations: trace, world and result *)

Section Engine.
Context `{Env}.

Definition M (A : Type) : Type := World -> list Event * World * Result A.

Definition ret {A} (a : A) : M A := fun w => ([], w, Ok a).

Definition bind {A B} (m : M A) (k : A -> M B) : M B := fun w =>
  match m w with
  | (t1, w1, Ok a) => let '(t2, w2, r) := k a w1 in (t1 ++ t2, w2, r)
  | (t1, w1, Err e) => (t1, w1, Err e)
  | (t1, w1, Pending) => (t1, w1, Pending)
  end.

Definition throw {A} (e : Error) : M A := fun w => ([], w, Err e).

Definition emit (ev : Event) : M unit := fun w => ([ev], w, Ok tt).

(** [try { m } catch (error) { h error }]: only a rejection reaches the
    handler. *)
Definition try_catch {A} (m : M A) (h : Error -> M A) : M A := fun w =>
  match m w with
  | (t1, w1, Err e) => let '(t2, w2, r) := h e w1 in (t1 ++ t2, w2, r)
  | done => done
  end.

(** [try { m } finally { f }]: [f] runs once [m] has settled, either way; an
    exception it throws replaces the outcome of [m], and if it never settles
    neither does the whole. *)
Definition finally {A} (m : M A) (f : M unit) : M A := fun w =>
  match m w with
  | (t1, w1, Pending) => (t1, w1, Pending)
  | (t1, w1, r) =>
      let '(t2, w2, r2) := f w1 in
      (t1 ++ t2, w2,
       match r2 with Ok _ => r | Err e => Err e | Pending => Pending end)
  end.

Declare Scope engine_scope.
Delimit Scope engine_scope with engine.
Notation "x <- m ;; k" := (bind m (fun x => k))
  (at level 100, m at next level, right associativity) : engine_scope.
Notation "m ;;; k" := (bind m (fun _ => k))
  (at level 100, right associativity) : engine_scope.
Local Open Scope engine_scope.

Definition log (msg : Message) : M unit := emit (Log msg).
Definition log_error (msg : Message) : M unit := emit (LogError msg).

(** [for (const x of xs) { await body(x) }] *)
Fixpoint for_of {A} (xs : list A) (body : A -> M unit) : M unit :=
  match xs with
  | [] => ret tt
  | x :: xs' => body x ;;; for_of xs' body
  end.

(** ** The connection pool and the SQL statements *)

Definition set_table (w : World) (t : option Table) : World :=
  {| migrations := t; app := app w; directory := directory w; now := now w;
     pool_ended := pool_ended w; argv_e := argv_e w |}.

Definition set_app (w : World) (a : App) : World :=
  {| migrations := migrations w; app := a; directory := directory w;
     now := now w; pool_ended := pool_ended w; argv_e := argv_e w |}.

Definition set_directory (w : World) (d : option (list Entry)) : World :=
  {| migrations := migrations w; app := app w; directory := d; now := now w;
     pool_ended := pool_ended w; argv_e := argv_e w |}.

Definition set_now (w : World) (t : Z) : World :=
  {| migrations := migrations w; app := app w; directory := directory w;
     now := t; pool_ended := pool_ended w; argv_e := argv_e w |}.

Definition set_pool_ended (w : World) (b : bool) : World :=
  {| migrations := migrations w; app := app w; directory := directory w;
     now := now w; pool_ended := b; argv_e := argv_e w |}.

(** [pool.query(q)]: rejected once the pool was ended; otherwise the
    statement runs with semantics [sem]. *)
Definition pool_query {A} (q : Statement) (sem : World -> World * Result A)
  : M A := fun w =>
  if pool_ended w then ([], w, Err PoolClosed)
  else let '(w', r) := sem w in ([Query q], w', r).

(** [pool.end()].  A second call is rejected.  The first call stops the pool
    from taking queries and then waits for every client to be returned; the
    client that [config/database.ts] checks out when the module is loaded
    ([pool.connect()], line 17) is never released, so the wait never ends. *)
Definition pool_end : M unit := fun w =>
  if pool_ended w then ([], w, Err PoolEndedTwice)
  else ([PoolEnd], set_pool_ended w true, Pending).

(** The [finally] block of every entry point. *)
Definition close_if_standalone : M unit := fun w =>
  if argv_e w then pool_end w else ret tt w.

(** A statement that reads the table. *)
Definition reading {A} (f : Table -> Result A) (w : World) : World * Result A :=
  match migrations w with
  | None => (w, Err UndefinedTable)
  | Some t => (w, f t)
  end.

(** A statement that rewrites the table. *)
Definition writing (f : Table -> Result Table) (w : World)
  : World * Result unit :=
  match migrations w with
  | None => (w, Err UndefinedTable)
  | Some t =>
      match f t with
      | Ok t' => (set_table w (Some t'), Ok tt)
      | Err e => (w, Err e)
      | Pending => (w, Pending)
      end
  end.

Definition has_name (n : string) (t : Table) : bool :=
  existsb (fun r => String.eqb (migration_name r) n) (rows t).

(** [MAX(batch)]: nulls are ignored, and the maximum of nothing is null. *)
Fixpoint sql_max_batch (rs : list Row) : option Z :=
  match rs with
  | [] => None
  | r :: rs' =>
      match batch r, sql_max_batch rs' with
      | Some b, Some m => Some (Z.max b m)
      | Some b, None => Some b
      | None, m => m
      end
  end.

(** [COALESCE(MAX(batch), 0)] *)
Definition coalesce_max_batch (t : Table) : Z :=
  match sql_max_batch (rows t) with Some m => m | None => 0 end.

(** [ORDER BY executed_at DESC], stable. *)
Fixpoint insert_desc (r : Row) (l : list Row) : list Row :=
  match l with
  | [] => [r]
  | y :: l' =>
      if executed_at y <=? executed_at r then r :: l else y :: insert_desc r l'
  end.

Fixpoint order_by_executed_at_desc (l : list Row) : list Row :=
  match l with
  | [] => []
  | r :: l' => insert_desc r (order_by_executed_at_desc l')
  end.

(** [WHERE batch = (SELECT MAX(batch) FROM migrations)]; a null on either
    side selects nothing. *)
Definition in_last_batch (t : Table) (r : Row) : bool :=
  match batch r, sql_max_batch (rows t) with
  | Some b, Some m => b =? m
  | _, _ => false
  end.

(** [INSERT INTO migrations ... ON CONFLICT (migration_name) DO NOTHING];
    [b] is the batch given, if the statement names the column. *)
Definition insert_row (n : string) (b : option Z) (w : World)
  : World * Result unit :=
  match migrations w with
  | None => (w, Err UndefinedTable)
  | Some t =>
      match batch_column t, b with
      | None, Some _ => (w, Err UndefinedColumn)
      | col, _ =>
          let value :=
            match b with
            | Some v => Some v
            | None => match col with Some d => d | None => None end
            end in
          let t' :=
            if has_name n t then t
            else {| batch_column := col;
                    rows := rows t ++ [{| migration_name := n;
                                          executed_at := now w;
                                          batch := value |}] |} in
          (set_now (set_table w (Some t')) (tick (now w)), Ok tt)
      end
  end.

Definition columns (t : Table) : list string :=
  ["id"; "migration_name"; "executed_at"]
  ++ match batch_column t with Some _ => ["batch"] | None => [] end.

(** ** Private methods of [DatabaseMigrations] *)

(** [migrationTableExists()] *)
Definition migrationTableExists : M bool :=
  pool_query SelectTableExists
    (fun w => (w, Ok (match migrations w with Some _ => true | None => false end))).

(** [checkColumnExists(tableName, columnName)]: [information_schema.columns]
    holds the columns of the one table the model has. *)
Definition checkColumnExists (tableName columnName : string) : M bool :=
  pool_query (SelectColumnExists tableName columnName)
    (fun w =>
       (w, Ok (match migrations w with
               | Some t =>
                   String.eqb tableName "migrations"
                   && existsb (String.eqb columnName) (columns t)
               | None => false
               end))).

(** [CREATE TABLE IF NOT EXISTS migrations (id, migration_name, executed_at)] *)
Definition create_table_if_not_exists : M unit :=
  pool_query CreateTableIfNotExists
    (fun w =>
       match migrations w with
       | Some _ => (w, Ok tt)
       | None => (set_table w (Some {| batch_column := None; rows := [] |}), Ok tt)
       end).

(** [ALTER TABLE migrations ADD COLUMN batch INTEGER DEFAULT 1]: the rows
    already there take the default. *)
Definition alter_add_batch : M unit :=
  pool_query AlterAddBatch
    (writing (fun t =>
       match batch_column t with
       | Some _ => Err DuplicateColumn
       | None =>
           Ok {| batch_column := Some (Some 1);
                 rows := map (fun r => {| migration_name := migration_name r;
                                          executed_at := executed_at r;
                                          batch := Some 1 |}) (rows t) |}
       end)).

(** [UPDATE migrations SET batch = 1 WHERE batch IS NULL] *)
Definition update_batch_null : M unit :=
  pool_query UpdateBatchNull
    (writing (fun t =>
       match batch_column t with
       | None => Err UndefinedColumn
       | Some d =>
           Ok {| batch_column := Some d;
                 rows := map (fun r =>
                                match batch r with
                                | Some _ => r
                                | None => {| migration_name := migration_name r;
                                             executed_at := executed_at r;
                                             batch := Some 1 |}
                                end) (rows t) |}
       end)).

(** [createMigrationsTable()] *)
Definition createMigrationsTable : M unit :=
  create_table_if_not_exists ;;;
  batchColumnExists <- checkColumnExists "migrations" "batch" ;;
  (if negb batchColumnExists
   then alter_add_batch ;;; update_batch_null
   else ret tt) ;;;
  log TableCreatedOrUpdated.

(** The callback of [files.map] in [getMigrationFiles]. *)
Definition parse_filename (f : string) : Result MigrationFile :=
  match match_filename f with
  | None => Err (InvalidFilename f)
  | Some (ts, n) => Ok {| filename := f; timestamp := ts; name := n |}
  end.

(** [files.map(...)] with a callback that may throw: the first exception
    ends the map. *)
Fixpoint parse_all (files : list string) : Result (list MigrationFile) :=
  match files with
  | [] => Ok []
  | f :: files' =>
      match parse_filename f with
      | Err e => Err e
      | Ok m =>
          match parse_all files' with
          | Err e => Err e
          | Ok ms => Ok (m :: ms)
          | Pending => Pending
          end
      | Pending => Pending
      end
  end.

(** [readdirSync(...).filter(...).sort()] *)
Definition listed_files (entries : list Entry) : list string :=
  js_sort (filter (fun f => endsWith f ".ts" || endsWith f ".js")
                  (map entry_name entries)).

(** [getMigrationFiles()] *)
Definition getMigrationFiles : M (list MigrationFile) := fun w =>
  match directory w with
  | None => ([Mkdir], set_directory w (Some []), Ok [])
  | Some entries => ([], w, parse_all (listed_files entries))
  end.

(** [isMigrationExecuted(migrationName)] *)
Definition isMigrationExecuted (migrationName : string) : M bool :=
  pool_query (SelectExecuted migrationName)
    (reading (fun t => Ok (has_name migrationName t))).

(** [markMigrationExecuted(migrationName, batch?)]; [if (batch)] takes the
    first branch for a number other than zero. *)
Definition markMigrationExecuted (migrationName : string) (batch : option Z)
  : M unit :=
  match batch with
  | Some b =>
      if b =? 0
      then pool_query (InsertDefault migrationName) (insert_row migrationName None)
      else pool_query (InsertWithBatch migrationName b)
                      (insert_row migrationName (Some b))
  | None => pool_query (InsertDefault migrationName) (insert_row migrationName None)
  end.

(** [getExecutedMigrations()] *)
Definition getExecutedMigrations : M (list string) :=
  pool_query SelectNamesDesc
    (reading (fun t =>
       Ok (map migration_name (order_by_executed_at_desc (rows t))))).

(** [getExecutedMigrationsWithDetails()] *)
Definition getExecutedMigrationsWithDetails : M (list (string * Z)) :=
  pool_query SelectDetailsDesc
    (reading (fun t =>
       Ok (map (fun r => (migration_name r, executed_at r))
               (order_by_executed_at_desc (rows t))))).

(** [getLastBatch()] *)
Definition getLastBatch : M (list string) :=
  pool_query SelectLastBatch
    (reading (fun t =>
       match batch_column t with
       | None => Err UndefinedColumn
       | Some _ =>
           Ok (map migration_name
                 (order_by_executed_at_desc (filter (in_last_batch t) (rows t))))
       end)).

(** [getNextBatchNumber()] *)
Definition getNextBatchNumber : M Z :=
  pool_query SelectNextBatch
    (reading (fun t =>
       match batch_column t with
       | None => Err UndefinedColumn
       | Some _ =>
           if int4_max <=? coalesce_max_batch t then Err IntegerOutOfRange
           else Ok (coalesce_max_batch t + 1)
       end)).

(** [removeMigrationRecord(migrationName)] *)
Definition removeMigrationRecord (migrationName : string) : M unit :=
  pool_query (DeleteByName migrationName)
    (writing (fun t =>
       Ok {| batch_column := batch_column t;
             rows := filter (fun r => negb (String.eqb (migration_name r) migrationName))
                            (rows t) |})).

(** [require(path.join(this.migrationsPath, filename))] followed by the
    search for the migration class. *)
Definition require_class (file : string) : M Ops := fun w =>
  match directory w with
  | None => ([], w, Err (CannotFindModule file))
  | Some entries =>
      match find (fun e => String.eqb (entry_name e) file) entries with
      | None => ([], w, Err (CannotFindModule file))
      | Some e =>
          match exports e with
          | None => ([], w, Err (NoMigrationClass file))
          | Some ops => ([], w, Ok ops)
          end
      end
  end.

(** [await new MigrationClass().up()] *)
Definition invoke_up (m : MigrationFile) (ops : Ops) : M unit := fun w =>
  let '(a, raised) := up ops (app w) in
  ([Up m raised], set_app w a,
   match raised with Some e => Err (OperationFailed e) | None => Ok tt end).

(** [await new MigrationClass().down()] *)
Definition invoke_down (m : MigrationFile) (ops : Ops) : M unit := fun w =>
  let '(a, raised) := down ops (app w) in
  ([Down m raised], set_app w a,
   match raised with Some e => Err (OperationFailed e) | None => Ok tt end).

(** [executeMigration(migration)] *)
Definition executeMigration (migration : MigrationFile) : M bool :=
  executed <- isMigrationExecuted (name migration) ;;
  if executed then ret false
  else
    log (Migrating (name migration)) ;;;
    try_catch
      (ops <- require_class (filename migration) ;;
       invoke_up migration ops ;;;
       log (Migrated (name migration)) ;;;
       ret true)
      (fun error =>
         log_error (MigrationOfFailed (name migration) error) ;;;
         throw error).

(** [rollbackSingleMigration(migrationName)] *)
Definition rollbackSingleMigration (migrationName : string) : M unit :=
  log (RollingBack migrationName) ;;;
  migrationFiles <- getMigrationFiles ;;
  match find (fun m => String.eqb (name m) migrationName) migrationFiles with
  | None => throw (MigrationNotFound migrationName)
  | Some migration =>
      ops <- require_class (filename migration) ;;
      invoke_down migration ops ;;;
      removeMigrationRecord migrationName ;;;
      log (RolledBack migrationName)
  end.

(** ** Public methods of [DatabaseMigrations] *)

(** The [for] loop of [runMigrations()], with its two local variables. *)
Fixpoint runMigrations_loop (migrationFiles : list MigrationFile)
    (migrationsExecuted : nat) (currentBatch : option Z)
  : M (nat * option Z) :=
  match migrationFiles with
  | [] => ret (migrationsExecuted, currentBatch)
  | migration :: rest =>
      wasExecuted <- executeMigration migration ;;
      if wasExecuted then
        b <- match currentBatch with
             | None => getNextBatchNumber
             | Some b => ret b
             end ;;
        markMigrationExecuted (name migration) (Some b) ;;;
        runMigrations_loop rest (S migrationsExecuted) (Some b)
      else runMigrations_loop rest migrationsExecuted currentBatch
  end.

(** The [try] block of [runMigrations()]. *)
Definition runMigrations_try : M unit :=
  tableExists <- migrationTableExists ;;
  (if negb tableExists then createMigrationsTable else ret tt) ;;;
  migrationFiles <- getMigrationFiles ;;
  counted <- runMigrations_loop migrationFiles 0%nat None ;;
  if (fst counted =? 0)%nat
  then log NothingToMigrate
  else log MigrationsCompleted.

(** [runMigrations()] *)
Definition runMigrations : M unit :=
  finally
    (try_catch runMigrations_try
       (fun error => log_error (MigrationFailed error) ;;; throw error))
    close_if_standalone.

(** The [try] block of [rollbackAllMigrations()]. *)
Definition rollbackAllMigrations_try : M unit :=
  tableExists <- migrationTableExists ;;
  if negb tableExists then log TableMissingNothingToRollback
  else
    executedMigrations <- getExecutedMigrations ;;
    if (List.length executedMigrations =? 0)%nat
    then log NoMigrationsToRollback
    else
      for_of executedMigrations rollbackSingleMigration ;;;
      log AllRolledBack.

(** [rollbackAllMigrations()] *)
Definition rollbackAllMigrations : M unit :=
  log RollingBackAll ;;;
  finally
    (try_catch rollbackAllMigrations_try
       (fun error => log_error (RollbackAllFailed error) ;;; throw error))
    close_if_standalone.

(** The [try] block of [rollbackLastBatch()]. *)
Definition rollbackLastBatch_try : M unit :=
  tableExists <- migrationTableExists ;;
  if negb tableExists then log TableMissingNothingToRollback
  else
    lastBatch <- getLastBatch ;;
    if (List.length lastBatch =? 0)%nat
    then log NoMigrationsToRollback
    else
      log (RollingBackLastBatch (List.length lastBatch)) ;;;
      for_of lastBatch rollbackSingleMigration ;;;
      log LastBatchCompleted.

(** [rollbackLastBatch()] *)
Definition rollbackLastBatch : M unit :=
  finally
    (try_catch rollbackLastBatch_try
       (fun error => log_error (LastBatchFailed error) ;;; throw error))
    close_if_standalone.

(** The loop [for (let i = 0; i < steps; i++)] of [rollbackSteps]; [todo] is
    the number of iterations still allowed, and returning early is [break]. *)
Fixpoint rollbackSteps_loop (todo : nat) (i steps : Z) : M unit :=
  match todo with
  | O => ret tt
  | S todo' =>
      lastBatch <- getLastBatch ;;
      if (List.length lastBatch =? 0)%nat
      then log (NoMoreMigrations i)
      else
        log (RollingBackBatch (i + 1) steps (List.length lastBatch)) ;;;
        for_of lastBatch rollbackSingleMigration ;;;
        rollbackSteps_loop todo' (i + 1) steps
  end.

(** The [try] block of [rollbackSteps(steps)]. *)
Definition rollbackSteps_try (steps : Z) : M unit :=
  tableExists <- migrationTableExists ;;
  if negb tableExists then log TableMissingNothingToRollback
  else
    log (RollingBackSteps steps) ;;;
    rollbackSteps_loop (Z.to_nat steps) 0 steps ;;;
    log (StepsCompleted steps).

(** [rollbackSteps(steps)], for an integer [steps]. *)
Definition rollbackSteps (steps : Z) : M unit :=
  finally
    (try_catch (rollbackSteps_try steps)
       (fun error => log_error (StepsFailed error) ;;; throw error))
    close_if_standalone.

(** The [try] block of [rollbackSpecificMigration(migrationName)]. *)
Definition rollbackSpecificMigration_try (migrationName : string) : M unit :=
  tableExists <- migrationTableExists ;;
  if negb tableExists then log TableMissingNothingToRollback
  else
    executedMigrations <- getExecutedMigrations ;;
    if negb (existsb (String.eqb migrationName) executedMigrations)
    then log (NotExecutedOrNotFound migrationName)
    else
      rollbackSingleMigration migrationName ;;;
      log SpecificCompleted.

(** [rollbackSpecificMigration(migrationName)] *)
Definition rollbackSpecificMigration (migrationName : string) : M unit :=
  finally
    (try_catch (rollbackSpecificMigration_try migrationName)
       (fun error => log_error (SpecificFailed error) ;;; throw error))
    close_if_standalone.

(** The [try] block of [refreshMigrations()]. *)
Definition refreshMigrations_try : M unit :=
  rollbackAllMigrations ;;;
  log Rerunning ;;;
  runMigrations ;;;
  log RefreshCompleted.

(** [refreshMigrations()] *)
Definition refreshMigrations : M unit :=
  log Refreshing ;;;
  try_catch refreshMigrations_try
    (fun error => log_error (RefreshFailed error) ;;; throw error).

(** [showMigrationStatus()]; [displayMigrationsTable] writes one line per
    migration and the total. *)
(** The [try] block of [showMigrationStatus()]. *)
Definition showMigrationStatus_try : M unit :=
  tableExists <- migrationTableExists ;;
  if negb tableExists then log TableMissingRunMigrate
  else
    executedMigrations <- getExecutedMigrationsWithDetails ;;
    if (List.length executedMigrations =? 0)%nat
    then log NoMigrationsYet
    else log (History executedMigrations (List.length executedMigrations)).

Definition showMigrationStatus : M unit :=
  finally
    (try_catch showMigrationStatus_try
       (fun error => log_error (StatusFailed error) ;;; throw error))
    close_if_standalone.

(** ** [refresh()] as the specification words it: [rollbackAll()], then
    [Runner.run()]. *)
Definition refresh_as_specified : M unit :=
  rollbackAllMigrations ;;; runMigrations.

(** ** Observations on traces and worlds *)

(** The forward operations a trace invoked, in order, each with the
    exception it raised, if any. *)
Fixpoint forward_calls (tr : list Event) : list (MigrationFile * option string) :=
  match tr with
  | [] => []
  | Up m r :: tr' => (m, r) :: forward_calls tr'
  | _ :: tr' => forward_calls tr'
  end.

(** The backward operations a trace invoked. *)
Fixpoint backward_calls (tr : list Event) : list (MigrationFile * option string) :=
  match tr with
  | [] => []
  | Down m r :: tr' => (m, r) :: backward_calls tr'
  | _ :: tr' => backward_calls tr'
  end.

(** The statements a trace sent to the database. *)
Fixpoint statements (tr : list Event) : list Statement :=
  match tr with
  | [] => []
  | Query q :: tr' => q :: statements tr'
  | _ :: tr' => statements tr'
  end.

(** What [console.log] wrote. *)
Fixpoint logged (tr : list Event) : list Message :=
  match tr with
  | [] => []
  | Log msg :: tr' => msg :: logged tr'
  | _ :: tr' => logged tr'
  end.

(** The rows of the ledger; none while the table does not exist. *)
Definition ledger (w : World) : list Row :=
  match migrations w with Some t => rows t | None => [] end.

(** The ledger's records for a name. *)
Definition records (n : string) (w : World) : list Row :=
  filter (fun r => String.eqb (migration_name r) n) (ledger w).

(** [isApplied(name)] *)
Definition isApplied (n : string) (w : World) : bool :=
  existsb (fun r => String.eqb (migration_name r) n) (ledger w).

(** [currentMaxBatch()]: 0 for an empty ledger. *)
Definition currentMaxBatch (w : World) : Z :=
  match sql_max_batch (ledger w) with Some m => m | None => 0 end.

(** The table, if there is one, has the [batch] column, and the batches in
    it are integers from 0 to below [int4_max]. *)
Definition batches_in_range (w : World) : Prop :=
  match migrations w with
  | None => True
  | Some t =>
      batch_column t <> None /\
      forall r b, In r (rows t) -> batch r = Some b -> 0 <= b < int4_max
  end.

(** The persistent state of two worlds is the same: database and directory. *)
Definition same_store (w1 w2 : World) : Prop :=
  migrations w1 = migrations w2 /\ app w1 = app w2
  /\ directory w1 = directory w2.

(** ** Auxiliary definitions of the statements and proofs below *)

(** A row as an insert writes it. *)
Definition new_row (n : string) (t : Z) (b : option Z) : Row :=
  {| migration_name := n; executed_at := t; batch := b |}.

(** The table after a row was appended. *)
Definition add_row (tb : Table) (r : Row) : Table :=
  {| batch_column := batch_column tb; rows := rows tb ++ [r] |}.

(** A call of a forward or backward operation that raised nothing. *)
Definition succeeded (m : MigrationFile) : MigrationFile * option string := (m, None).

(** The table as [createMigrationsTable] leaves it when there was none. *)
Definition fresh_table : Table := {| batch_column := Some (Some 1); rows := [] |}.

(** What Discovery yields for a directory. *)
Definition discovered (d : option (list Entry)) : Result (list MigrationFile) :=
  match d with
  | None => Ok []
  | Some entries => parse_all (listed_files entries)
  end.

(** What [runMigrations] does before its loop. *)
Definition prelude_rel (w : World) (t0 : list Event) (w0 : World) : Prop :=
  forward_calls t0 = [] /\ backward_calls t0 = []
  /\ ~ In SelectNextBatch (statements t0)
  /\ ~ In (Log NothingToMigrate) t0
  /\ app w0 = app w /\ now w0 = now w
  /\ pool_ended w0 = pool_ended w /\ argv_e w0 = argv_e w
  /\ (migrations w0 = migrations w
      \/ (migrations w = None /\ migrations w0 = Some fresh_table)).

(** The steps before the loop succeeded and discovered [files]. *)
Definition prelude_ok (w w0 : World) (files : list MigrationFile) : Prop :=
  pool_ended w0 = false /\ migrations w0 <> None
  /\ directory w0 <> None
  /\ discovered (directory w) = Ok files
  /\ discovered (directory w0) = Ok files.

(** The migrations whose forward operation a trace ran to completion. *)
Definition newly_applied (tr : list Event) : list MigrationFile :=
  map fst (filter (fun c => match snd c with None => true | Some _ => false end)
                  (forward_calls tr)).

(** The readings of the clock at [k] successive inserts, from [t] on. *)
Fixpoint stamps (t : Z) (k : nat) : list Z :=
  match k with
  | O => []
  | S k' => t :: stamps (tick t) k'
  end.

(** The batch number of a run whose loop variable [currentBatch] is [cb]. *)
Definition batch_of_run (cb : option Z) (tb : Table) : Z :=
  match cb with Some b => b | None => coalesce_max_batch tb + 1 end.

(** The table after [DELETE FROM migrations WHERE migration_name = n]. *)
Definition without (n : string) (tb : Table) : Table :=
  {| batch_column := batch_column tb;
     rows := filter (fun r => negb (String.eqb (migration_name r) n)) (rows tb) |}.

(** Newest first: no row is followed by one executed later. *)
Definition newest_first (rs : list Row) : Prop :=
  StronglySorted (fun a b => executed_at b <= executed_at a) rs.

(** The rows [getLastBatch] selects from. *)
Definition last_batch (w : World) : list Row :=
  match migrations w with
  | Some tb => filter (in_last_batch tb) (rows tb)
  | None => []
  end.

(** The names of the migrations whose backward operation a trace invoked. *)
Definition rolled_back (tr : list Event) : list string :=
  map (fun c => name (fst c)) (backward_calls tr).

(** What a trace did apart from writing to the console. *)
Definition effects (tr : list Event) : list Event :=
  filter (fun ev => match ev with Log _ | LogError _ => false | _ => true end) tr.

(** An entry point that, in world [w], returns normally having sent the
    database nothing but the question whether the table exists, and leaves
    database, directory and clock as they were. *)
Definition leaves_untouched (op : M unit) (w : World) : Prop :=
  exists tr w',
    op w = (tr, w', Ok tt) /\ same_store w' w /\ now w' = now w
    /\ statements tr = [SelectTableExists]
    /\ forward_calls tr = [] /\ backward_calls tr = [].

(** A computation that settles in every world: it returns or it throws. *)
Class Settles {A} (m : M A) : Prop :=
  settles : forall w, snd (m w) <> Pending.

(** ** Auxiliary definitions of the further properties *)

(** Ascending in the order of [Array.prototype.sort()]. *)
Definition ascending (l : list string) : Prop :=
  StronglySorted (fun a b => String.leb a b = true) l.

(** The file names of the forward operations a trace invoked. *)
Definition forward_files (tr : list Event) : list string :=
  map (fun c => filename (fst c)) (forward_calls tr).

(** No two records of the ledger bear the same name. *)
Definition unique_names (w : World) : Prop :=
  NoDup (map migration_name (ledger w)).

(** The table of [w'] is the table of [w] with some rows deleted: same
    columns, the remaining rows unchanged and in the same order. *)
Definition only_deleted (w w' : World) : Prop :=
  match migrations w with
  | None => migrations w' = None
  | Some tb =>
      exists keep,
        migrations w'
        = Some {| batch_column := batch_column tb; rows := filter keep (rows tb) |}
  end.



End Engine.

(** * The script that creates a migration file

    [scripts/create-migration] names the new file after the clock and the
    name given on the command line.  [iso] stands for what
    [new Date().toISOString()] returned. *)

Module CreateMigration.

(** [s.replace(/[-:]/g, '')] *)
Fixpoint remove_dash_colon (s : string) : string :=
  match s with
  | EmptyString => EmptyString
  | String c s' =>
      if Ascii.eqb c "-" || Ascii.eqb c ":"
      then remove_dash_colon s'
      else String c (remove_dash_colon s')
  end.

(** [s.replace(/\.\d{3}Z$/, '')]: the expression matches five characters and
    is anchored at the end, so it can only match the last five. *)
Definition strip_millis (s : string) : string :=
  let n := String.length s in
  if (5 <=? n)%nat
     && String.eqb (substring (n - 5) 1 s) "."
     && all_chars is_digit (substring (n - 4) 3 s)
     && String.eqb (substring (n - 1) 1 s) "Z"
  then substring 0 (n - 5) s
  else s.

(** [s.replace(c, d)] for one-character strings: the first [c] becomes [d]. *)
Fixpoint replace_char (c d : ascii) (s : string) : string :=
  match s with
  | EmptyString => EmptyString
  | String x s' => if Ascii.eqb x c then String d s' else String x (replace_char c d s')
  end.

(** [const timestamp = now.toISOString().replace(...).replace(...).replace('T', 'T')] *)
Definition timestamp (iso : string) : string :=
  replace_char "T" "T" (strip_millis (remove_dash_colon iso)).

(** [const filename = `${timestamp}_${migrationName}.ts`] *)
Definition filename (iso migrationName : string) : string :=
  (timestamp iso ++ "_" ++ migrationName ++ ".ts")%string.

(** The shape of [toISOString()] for the years 0000 to 9999:
    [YYYY-MM-DDTHH:mm:ss.sssZ]. *)
Definition is_iso (s : string) : bool :=
  (String.length s =? 24)%nat
  && all_chars is_digit (substring 0 4 s) && String.eqb (substring 4 1 s) "-"
  && all_chars is_digit (substring 5 2 s) && String.eqb (substring 7 1 s) "-"
  && all_chars is_digit (substring 8 2 s) && String.eqb (substring 10 1 s) "T"
  && all_chars is_digit (substring 11 2 s) && String.eqb (substring 13 1 s) ":"
  && all_chars is_digit (substring 14 2 s) && String.eqb (substring 16 1 s) ":"
  && all_chars is_digit (substring 17 2 s) && String.eqb (substring 19 1 s) "."
  && all_chars is_digit (substring 20 3 s) && String.eqb (substring 23 1 s) "Z".

End CreateMigration.

(** What the first group of the expression of [getMigrationFiles] captures:
    eight digits, [T], six digits. *)
Definition is_timestamp (ts : string) : bool :=
  (String.length ts =? 15)%nat
  && all_chars is_digit (substring 0 8 ts)
  && String.eqb (substring 8 1 ts) "T"
  && all_chars is_digit (substring 9 6 ts).

(** * Example installations

    A concrete environment for the examples: the application data is the list
    of the tables created so far, and the clock advances by one. *)

Definition demo_env : Env := {| App := list string; tick := Z.succ |}.

(** A migration that creates a table and drops it again. *)
Definition creating (t : string) : @Ops demo_env :=
  @Build_Ops demo_env
    (fun a : list string => (a ++ [t], None))
    (fun a : list string => (filter (fun x => negb (String.eqb x t)) a, None)).

(** A migration whose operations raise [e] and change nothing. *)
Definition failing (e : string) : @Ops demo_env :=
  @Build_Ops demo_env
    (fun a : list string => (a, Some e))
    (fun a : list string => (a, Some e)).

Definition installation (t : option Table) (es : list (@Entry demo_env))
  : @World demo_env :=
  @Build_World demo_env t ([] : list string) (Some es) 100 false false.

Definition file_create_x : @Entry demo_env :=
  {| entry_name := "20250101T000000_create_x.ts"; exports := Some (creating "x") |}.
Definition file_add_y : @Entry demo_env :=
  {| entry_name := "20250101T000100_add_y_to_x.ts"; exports := Some (creating "y") |}.
Definition file_create_z : @Entry demo_env :=
  {| entry_name := "20250101T000200_create_z.ts"; exports := Some (creating "z") |}.
Definition file_broken : @Entry demo_env :=
  {| entry_name := "20250101T000300_broken.ts"; exports := Some (failing "boom") |}.
Definition file_create_w : @Entry demo_env :=
  {| entry_name := "20250101T000400_create_w.ts"; exports := Some (creating "w") |}.
Definition file_classless : @Entry demo_env :=
  {| entry_name := "20250101T000500_empty.ts"; exports := None |}.
Definition file_notes : @Entry demo_env :=
  {| entry_name := "notes.txt"; exports := None |}.
Definition file_hyphen : @Entry demo_env :=
  {| entry_name := "20250101T000000_create-x.ts"; exports := Some (creating "x") |}.
Definition file_untimed : @Entry demo_env :=
  {| entry_name := "create_x.ts"; exports := Some (creating "x") |}.

Definition mf_create_x : MigrationFile :=
  {| filename := "20250101T000000_create_x.ts"; timestamp := "20250101T000000";
     name := "create_x" |}.
Definition mf_add_y : MigrationFile :=
  {| filename := "20250101T000100_add_y_to_x.ts"; timestamp := "20250101T000100";
     name := "add_y_to_x" |}.
Definition mf_create_z : MigrationFile :=
  {| filename := "20250101T000200_create_z.ts"; timestamp := "20250101T000200";
     name := "create_z" |}.
Definition mf_broken : MigrationFile :=
  {| filename := "20250101T000300_broken.ts"; timestamp := "20250101T000300";
     name := "broken" |}.

Definition mf_create_w : MigrationFile :=
  {| filename := "20250101T000400_create_w.ts"; timestamp := "20250101T000400";
     name := "create_w" |}.
Definition mf_classless : MigrationFile :=
  {| filename := "20250101T000500_empty.ts"; timestamp := "20250101T000500";
     name := "empty" |}.

(** No table yet, three migrations to apply. *)
Definition first_run : @World demo_env :=
  installation None [file_add_y; file_create_x; file_notes; file_create_z].

(** One migration applied in batch 1, two more to apply. *)
Definition upgrade_table : Table :=
  {| batch_column := Some (Some 1);
     rows := [{| migration_name := "create_x"; executed_at := 10; batch := Some 1 |}] |}.
Definition upgrade_run : @World demo_env :=
  installation (Some upgrade_table) [file_create_x; file_add_y; file_create_z].

(** No table yet; the second of the three migrations, in the order of their
    file names, fails. *)
Definition failing_run : @World demo_env :=
  installation None [file_create_w; file_create_x; file_broken].

(** An installation older than batches: the table has one row and no [batch]
    column, and one migration is pending. *)
Definition legacy_table : Table :=
  {| batch_column := None;
     rows := [{| migration_name := "create_x"; executed_at := 50; batch := None |}] |}.
Definition legacy : @World demo_env :=
  installation (Some legacy_table) [file_create_x; file_add_y].

(** An empty ledger next to a discovered migration. *)
Definition unapplied : @World demo_env :=
  installation (Some {| batch_column := Some (Some 1); rows := [] |}) [file_create_x].

(** An empty ledger next to a migration file that exports no class. *)
Definition classless : @World demo_env :=
  installation (Some {| batch_column := Some (Some 1); rows := [] |}) [file_classless].

(** One migration applied, and its backward operation fails. *)
Definition stuck_table : Table :=
  {| batch_column := Some (Some 1);
     rows := [{| migration_name := "broken"; executed_at := 60; batch := Some 1 |}] |}.
Definition stuck : @World demo_env := installation (Some stuck_table) [file_broken].

(** The three parts of the outcome of a computation. *)
Definition trace_of {E : Env} {A} (out : list Event * @World E * Result A)
  : list Event := fst (fst out).
Definition world_after {E : Env} {A} (out : list Event * @World E * Result A)
  : @World E := snd (fst out).
Definition result_of {E : Env} {A} (out : list Event * @World E * Result A)
  : Result A := snd out.

(** The first installation after its migrations ran: three rows in batch 1. *)
Definition migrated : @World demo_env := world_after (runMigrations first_run).

(** The upgraded installation: one row in batch 1, two in batch 2. *)
Definition upgraded : @World demo_env := world_after (runMigrations upgrade_run).

(** The upgrade in a process of its own: [process.argv] holds [-e]. *)
Definition standalone_upgrade : @World demo_env :=
  @Build_World demo_env (Some upgrade_table) ([] : list string)
    (Some [file_create_x; file_add_y; file_create_z]) 100 false true.

(** Two values of [toISOString()], a minute and a half apart. *)
Definition iso_first : string := "2025-08-14T12:01:00.123Z".
Definition iso_second : string := "2025-08-14T12:02:30.000Z".

(** * Proof automation *)

(** Case analysis on the innermost scrutinee of a hypothesis. *)
Ltac innermost x :=
  lazymatch x with
  | context [match ?y with _ => _ end] => innermost y
  | _ => destruct x eqn:?
  end.

Ltac crunch E :=
  repeat (match type of E with
          | context [match ?x with _ => _ end] => innermost x
          end; simpl in E).

(** A computation settles: case analysis on everything it inspects. *)
Ltac settle :=
  intros ?w; simpl;
  repeat (match goal with
          | |- context [match ?x with _ => _ end] => innermost x
          end; simpl);
  try discriminate.

(** Drop the events at the head of a trace that are no backward calls. *)
Ltac skip_events :=
  simpl forward_calls;
  repeat match goal with
         | |- context [rolled_back (?e :: ?t)] =>
             change (rolled_back (e :: t)) with (rolled_back t)
         | |- context [rolled_back ([?e] ++ ?t)] =>
             change (rolled_back ([e] ++ t)) with (rolled_back t)
         end.

(** Run an entry point in a world without the table. *)
Ltac without_table Hp Harg Hm :=
  unfold leaves_untouched, finally, try_catch, bind, migrationTableExists, pool_query,
    log, emit, close_if_standalone, ret, same_store;
  rewrite Hp, Hm; simpl; rewrite ?Harg;
  eexists; eexists; (split; [reflexivity|]); simpl; auto 10.

(** Split the conjunctions among the boolean hypotheses. *)
Ltac split_conjuncts :=
  repeat match goal with
         | H : (_ && _)%bool = true |- _ =>
             let H1 := fresh H in apply andb_prop in H as [H H1]
         end.

(** * Properties *)

Section Properties.
Context `{Env}.

(** ** What settles

    Only [pool.end()] can stay pending; everything the [try] blocks do
    settles. *)

Lemma settles_ret {A} (a : A) : Settles (ret a).
Proof. settle. Qed.
Lemma settles_throw {A} (e : Error) : Settles (@throw _ A e).
Proof. settle. Qed.
Lemma settles_emit ev : Settles (emit ev).
Proof. settle. Qed.
Lemma settles_log msg : Settles (log msg).
Proof. settle. Qed.
Lemma settles_log_error msg : Settles (log_error msg).
Proof. settle. Qed.
#[local] Existing Instances settles_ret settles_throw settles_emit settles_log
  settles_log_error.

Lemma settles_bind {A B} (m : M A) (k : A -> M B) :
  Settles m -> (forall a, Settles (k a)) -> Settles (bind m k).
Proof.
  intros Hm Hk w. unfold bind. pose proof (Hm w) as S.
  destruct (m w) as [[t1 w1] [a|e|]]; simpl in *; try discriminate; [|congruence].
  pose proof (Hk a w1) as Sk. destruct (k a w1) as [[t2 w2] r]. exact Sk.
Qed.

Lemma settles_try_catch {A} (m : M A) (h : Error -> M A) :
  Settles m -> (forall e, Settles (h e)) -> Settles (try_catch m h).
Proof.
  intros Hm Hh w. unfold try_catch. pose proof (Hm w) as S.
  destruct (m w) as [[t1 w1] [a|e|]]; simpl in *; try discriminate; [|congruence].
  pose proof (Hh e w1) as Sh. destruct (h e w1) as [[t2 w2] r]. exact Sh.
Qed.

Lemma settles_if {A} (b : bool) (m1 m2 : M A) :
  Settles m1 -> Settles m2 -> Settles (if b then m1 else m2).
Proof. destruct b; auto. Qed.

Lemma settles_for_of {A} (xs : list A) (body : A -> M unit) :
  (forall x, Settles (body x)) -> Settles (for_of xs body).
Proof.
  intros Hb. induction xs as [|x xs IH]; simpl; [apply settles_ret|].
  apply settles_bind; auto.
Qed.
Lemma settles_option {A B} (o : option A) (m1 : A -> M B) (m2 : M B) :
  (forall a, Settles (m1 a)) -> Settles m2 ->
  Settles (match o with Some a => m1 a | None => m2 end).
Proof. destruct o; auto. Qed.
#[local] Existing Instances settles_bind settles_try_catch settles_if settles_for_of
  settles_option.

Lemma parse_all_settles files : parse_all files <> Pending.
Proof.
  induction files as [|f files IH]; simpl; [discriminate|].
  unfold parse_filename. destruct (match_filename f) as [[ts n]|]; [|discriminate].
  destruct (parse_all files); [discriminate|discriminate|congruence].
Qed.

Lemma settles_migrationTableExists : Settles migrationTableExists.
Proof. unfold migrationTableExists, pool_query. settle. Qed.
Lemma settles_checkColumnExists t c : Settles (checkColumnExists t c).
Proof. unfold checkColumnExists, pool_query. settle. Qed.
Lemma settles_create_table_if_not_exists : Settles create_table_if_not_exists.
Proof. unfold create_table_if_not_exists, pool_query. settle. Qed.
Lemma settles_alter_add_batch : Settles alter_add_batch.
Proof. unfold alter_add_batch, pool_query, writing. settle. Qed.
Lemma settles_update_batch_null : Settles update_batch_null.
Proof. unfold update_batch_null, pool_query, writing. settle. Qed.
Lemma settles_getMigrationFiles : Settles getMigrationFiles.
Proof.
  intros w. unfold getMigrationFiles. destruct (directory w); simpl; [|discriminate].
  apply parse_all_settles.
Qed.
Lemma settles_isMigrationExecuted n : Settles (isMigrationExecuted n).
Proof. unfold isMigrationExecuted, pool_query, reading. settle. Qed.
Lemma settles_insert q n b : Settles (pool_query q (insert_row n b)).
Proof. unfold pool_query, insert_row. settle. Qed.
Lemma settles_markMigrationExecuted n b : Settles (markMigrationExecuted n b).
Proof. unfold markMigrationExecuted, pool_query, insert_row. settle. Qed.
Lemma settles_getExecutedMigrations : Settles getExecutedMigrations.
Proof. unfold getExecutedMigrations, pool_query, reading. settle. Qed.
Lemma settles_getExecutedMigrationsWithDetails : Settles getExecutedMigrationsWithDetails.
Proof. unfold getExecutedMigrationsWithDetails, pool_query, reading. settle. Qed.
Lemma settles_getLastBatch : Settles getLastBatch.
Proof. unfold getLastBatch, pool_query, reading. settle. Qed.
Lemma settles_getNextBatchNumber : Settles getNextBatchNumber.
Proof. unfold getNextBatchNumber, pool_query, reading. settle. Qed.
Lemma settles_removeMigrationRecord n : Settles (removeMigrationRecord n).
Proof. unfold removeMigrationRecord, pool_query, writing. settle. Qed.
Lemma settles_require_class f : Settles (require_class f).
Proof. unfold require_class. settle. Qed.
Lemma settles_invoke_up m ops : Settles (invoke_up m ops).
Proof. unfold invoke_up. settle. Qed.
Lemma settles_invoke_down m ops : Settles (invoke_down m ops).
Proof. unfold invoke_down. settle. Qed.
#[local] Existing Instances settles_migrationTableExists settles_checkColumnExists
  settles_create_table_if_not_exists settles_alter_add_batch settles_update_batch_null
  settles_getMigrationFiles settles_isMigrationExecuted settles_insert
  settles_markMigrationExecuted
  settles_getExecutedMigrations settles_getExecutedMigrationsWithDetails
  settles_getLastBatch settles_getNextBatchNumber settles_removeMigrationRecord
  settles_require_class settles_invoke_up settles_invoke_down.

Lemma settles_createMigrationsTable : Settles createMigrationsTable.
Proof. unfold createMigrationsTable. exact _. Qed.
Lemma settles_executeMigration m : Settles (executeMigration m).
Proof. unfold executeMigration. exact _. Qed.
Lemma settles_rollbackSingleMigration n : Settles (rollbackSingleMigration n).
Proof.
  unfold rollbackSingleMigration.
  apply settles_bind; [exact _|intros _].
  apply settles_bind; [exact _|intros files].
  destruct (find _ files); exact _.
Qed.
#[local] Existing Instances settles_createMigrationsTable settles_executeMigration
  settles_rollbackSingleMigration.

Lemma settles_runMigrations_loop files : forall n cb,
  Settles (runMigrations_loop files n cb).
Proof.
  induction files as [|m rest IH]; intros n cb; cbn [runMigrations_loop]; [exact _|].
  apply settles_bind; [exact _|intros [|]]; [|apply IH].
  apply settles_bind; [destruct cb; exact _|intros b].
  apply settles_bind; [exact _|intros _]. apply IH.
Qed.
Lemma settles_rollbackSteps_loop todo : forall i steps,
  Settles (rollbackSteps_loop todo i steps).
Proof.
  induction todo as [|todo IH]; intros i steps; cbn [rollbackSteps_loop]; [exact _|].
  apply settles_bind; [exact _|intros names]. apply settles_if; [exact _|].
  apply settles_bind; [exact _|intros _].
  apply settles_bind; [exact _|intros _]. apply IH.
Qed.
#[local] Existing Instances settles_runMigrations_loop settles_rollbackSteps_loop.

Lemma settles_runMigrations_try : Settles runMigrations_try.
Proof. unfold runMigrations_try. exact _. Qed.
Lemma settles_rollbackAllMigrations_try : Settles rollbackAllMigrations_try.
Proof. unfold rollbackAllMigrations_try. exact _. Qed.
Lemma settles_rollbackLastBatch_try : Settles rollbackLastBatch_try.
Proof. unfold rollbackLastBatch_try. exact _. Qed.
Lemma settles_rollbackSteps_try steps : Settles (rollbackSteps_try steps).
Proof. unfold rollbackSteps_try. exact _. Qed.
Lemma settles_rollbackSpecificMigration_try n : Settles (rollbackSpecificMigration_try n).
Proof. unfold rollbackSpecificMigration_try. exact _. Qed.
Lemma settles_showMigrationStatus_try : Settles showMigrationStatus_try.
Proof. unfold showMigrationStatus_try. exact _. Qed.
#[local] Existing Instances settles_runMigrations_try settles_rollbackAllMigrations_try
  settles_rollbackLastBatch_try settles_rollbackSteps_try
  settles_rollbackSpecificMigration_try settles_showMigrationStatus_try.

(** ** Inversion of the combinators *)

Lemma bind_inv {A B} (m : M A) (k : A -> M B) w tr w' r :
  bind m k w = (tr, w', r) ->
  Settles m ->
  (exists t1 w1 a t2, m w = (t1, w1, Ok a) /\ k a w1 = (t2, w', r) /\ tr = t1 ++ t2)
  \/ (exists e, m w = (tr, w', Err e) /\ r = Err e).
Proof.
  unfold bind. intros E S. specialize (S w). revert E S.
  destruct (m w) as [[t1 w1] [a|e|]]; simpl.
  - destruct (k a w1) as [[t2 w2] r2] eqn:K. intros E _; inversion E; subst.
    left. exists t1, w1, a, t2. auto.
  - intros E _; inversion E; subst. right. eauto.
  - intros _ S. congruence.
Qed.

(** The same for a computation that may stay pending. *)
Lemma bind_cases {A B} (m : M A) (k : A -> M B) w tr w' r :
  bind m k w = (tr, w', r) ->
  (exists t1 w1 a t2, m w = (t1, w1, Ok a) /\ k a w1 = (t2, w', r) /\ tr = t1 ++ t2)
  \/ (exists e, m w = (tr, w', Err e) /\ r = Err e)
  \/ (m w = (tr, w', Pending) /\ r = Pending).
Proof.
  unfold bind. destruct (m w) as [[t1 w1] [a|e|]].
  - destruct (k a w1) as [[t2 w2] r2] eqn:K. intros E; inversion E; subst.
    left. exists t1, w1, a, t2. auto.
  - intros E; inversion E; subst. right. left. eauto.
  - intros E; inversion E; subst. right. right. auto.
Qed.

Lemma try_catch_inv {A} (m : M A) h w tr w' r :
  try_catch m h w = (tr, w', r) ->
  Settles m ->
  (exists a, m w = (tr, w', Ok a) /\ r = Ok a)
  \/ (exists t1 w1 e t2, m w = (t1, w1, Err e) /\ h e w1 = (t2, w', r) /\ tr = t1 ++ t2).
Proof.
  unfold try_catch. intros E S. specialize (S w). revert E S.
  destruct (m w) as [[t1 w1] [a|e|]]; simpl.
  - intros E _; inversion E; subst. left; eauto.
  - destruct (h e w1) as [[t2 w2] r2] eqn:K. intros E _; inversion E; subst.
    right. exists t1, w1, e, t2. auto.
  - intros _ S. congruence.
Qed.

Lemma try_catch_cases {A} (m : M A) h w tr w' r :
  try_catch m h w = (tr, w', r) ->
  (exists a, m w = (tr, w', Ok a) /\ r = Ok a)
  \/ (exists t1 w1 e t2, m w = (t1, w1, Err e) /\ h e w1 = (t2, w', r) /\ tr = t1 ++ t2)
  \/ (m w = (tr, w', Pending) /\ r = Pending).
Proof.
  unfold try_catch. destruct (m w) as [[t1 w1] [a|e|]].
  - intros E; inversion E; subst. left; eauto.
  - destruct (h e w1) as [[t2 w2] r2] eqn:K. intros E; inversion E; subst.
    right. left. exists t1, w1, e, t2. auto.
  - intros E; inversion E; subst. right. right. auto.
Qed.

Lemma finally_inv {A} (m : M A) f w tr w' r :
  finally m f w = (tr, w', r) ->
  Settles m ->
  exists t1 w1 r1 t2 r2, m w = (t1, w1, r1) /\ f w1 = (t2, w', r2) /\ tr = t1 ++ t2
    /\ r = match r2 with Ok _ => r1 | Err e => Err e | Pending => Pending end.
Proof.
  unfold finally. intros E S. specialize (S w). revert E S.
  destruct (m w) as [[t1 w1] r1]. destruct (f w1) as [[t2 w2] r2] eqn:K. simpl.
  destruct r1; intros E S; inversion E; subst; try congruence;
    exists t1, w1; eexists; exists t2, r2; auto.
Qed.

(** the handler of every entry point: log and rethrow *)
Lemma rethrow_inv (msg : Error -> Message) e w tr w' (r : Result unit) :
  bind (log_error (msg e)) (fun _ => throw e) w = (tr, w', r) ->
  tr = [LogError (msg e)] /\ w' = w /\ r = Err e.
Proof. cbv. intros E; inversion E; auto. Qed.

Lemma close_inv w tr w' r :
  close_if_standalone w = (tr, w', r) ->
  migrations w' = migrations w /\ app w' = app w /\ directory w' = directory w
  /\ now w' = now w /\ argv_e w' = argv_e w
  /\ forward_calls tr = [] /\ backward_calls tr = [] /\ statements tr = [] /\ logged tr = []
  /\ (argv_e w = false -> r = Ok tt).
Proof.
  unfold close_if_standalone, pool_end, ret.
  destruct (argv_e w) eqn:?, (pool_ended w) eqn:?; intros E; inversion E; subst; simpl;
    repeat split; auto; discriminate.
Qed.

(** How the [finally] block ends, and what it does to the pool: in a process
    started with [-e] it never returns normally. *)
Lemma close_result w tr w' r :
  close_if_standalone w = (tr, w', r) ->
  r = (if argv_e w
       then if pool_ended w then Err PoolEndedTwice else Pending
       else Ok tt)
  /\ pool_ended w' = (pool_ended w || argv_e w)%bool.
Proof.
  unfold close_if_standalone, pool_end, ret.
  destruct (argv_e w) eqn:?, (pool_ended w) eqn:?; intros E; inversion E; subst; simpl;
    auto.
Qed.

Lemma forward_calls_app t1 t2 : forward_calls (t1 ++ t2) = forward_calls t1 ++ forward_calls t2.
Proof. induction t1 as [|[] t1 IH]; simpl; rewrite ?IH; auto. Qed.
Lemma backward_calls_app t1 t2 : backward_calls (t1 ++ t2) = backward_calls t1 ++ backward_calls t2.
Proof. induction t1 as [|[] t1 IH]; simpl; rewrite ?IH; auto. Qed.
Lemma statements_app t1 t2 : statements (t1 ++ t2) = statements t1 ++ statements t2.
Proof. induction t1 as [|[] t1 IH]; simpl; rewrite ?IH; auto. Qed.
Lemma logged_app t1 t2 : logged (t1 ++ t2) = logged t1 ++ logged t2.
Proof. induction t1 as [|[] t1 IH]; simpl; rewrite ?IH; auto. Qed.

Lemma in_forward_calls tr m r : In (Up m r) tr <-> In (m, r) (forward_calls tr).
Proof.
  induction tr as [|ev tr IH]; simpl; [tauto|].
  destruct ev; simpl; rewrite <- IH; intuition congruence.
Qed.

Lemma in_logged tr msg : In (Log msg) tr <-> In msg (logged tr).
Proof.
  induction tr as [|ev tr IH]; simpl; [tauto|].
  destruct ev; simpl; rewrite <- IH; intuition congruence.
Qed.

Lemma in_statements tr q : In (Query q) tr <-> In q (statements tr).
Proof.
  induction tr as [|ev tr IH]; simpl; [tauto|].
  destruct ev; simpl; rewrite <- IH; intuition congruence.
Qed.

Lemma in_backward_calls tr m r : In (Down m r) tr <-> In (m, r) (backward_calls tr).
Proof.
  induction tr as [|ev tr IH]; simpl; [tauto|].
  destruct ev; simpl; rewrite <- IH; intuition congruence.
Qed.

Lemma executeMigration_spec m w t w1 r :
  executeMigration m w = (t, w1, r) ->
  migrations w1 = migrations w /\ directory w1 = directory w
  /\ pool_ended w1 = pool_ended w /\ argv_e w1 = argv_e w /\ now w1 = now w
  /\ backward_calls t = []
  /\ (statements t = [] \/ statements t = [SelectExecuted (name m)])
  /\ ((r = Ok false /\ forward_calls t = [] /\ isApplied (name m) w = true /\ app w1 = app w)
      \/ (r = Ok true /\ forward_calls t = [(m, None)] /\ isApplied (name m) w = false
          /\ pool_ended w = false /\ migrations w <> None)
      \/ (exists e, r = Err (OperationFailed e) /\ forward_calls t = [(m, Some e)]
          /\ isApplied (name m) w = false /\ pool_ended w = false)
      \/ (exists e, r = Err e /\ forward_calls t = [] /\ app w1 = app w)).
Proof.
  unfold executeMigration, isMigrationExecuted, pool_query, reading, bind, try_catch,
    require_class, invoke_up, log, log_error, emit, throw, ret, isApplied, ledger, has_name.
  intros E. crunch E; inversion E; subst; simpl;
    repeat (split; [solve [auto]|]); eauto 10.
  all: try (right; left; repeat split; auto; congruence).
  all: try (right; right; left; eexists; repeat split; eauto; congruence).
Qed.

Lemma getNextBatchNumber_spec w t w1 r :
  getNextBatchNumber w = (t, w1, r) ->
  w1 = w /\ forward_calls t = [] /\ backward_calls t = []
  /\ forall b, r = Ok b ->
       exists tb, migrations w = Some tb /\ batch_column tb <> None
                  /\ coalesce_max_batch tb < int4_max /\ b = coalesce_max_batch tb + 1.
Proof.
  unfold getNextBatchNumber, pool_query, reading. intros E.
  crunch E; inversion E; subst; simpl; repeat split; auto; try discriminate.
  intros b0 Eb; inversion Eb; subst. eexists; repeat split; eauto; try congruence.
  apply Z.leb_gt; auto.
Qed.

Lemma markMigrationExecuted_spec n b w t w1 r :
  markMigrationExecuted n (Some b) w = (t, w1, r) ->
  forward_calls t = [] /\ backward_calls t = [] /\ app w1 = app w
  /\ directory w1 = directory w /\ pool_ended w1 = pool_ended w /\ argv_e w1 = argv_e w
  /\ ~ In SelectNextBatch (statements t)
  /\ (forall e, r = Err e -> w1 = w)
  /\ (r = Ok tt ->
      exists tb v, migrations w = Some tb
        /\ migrations w1 = Some (if has_name n tb then tb else add_row tb (new_row n (now w) v))
        /\ now w1 = tick (now w)
        /\ (batch_column tb <> None -> b <> 0 -> v = Some b)).
Proof.
  unfold markMigrationExecuted, pool_query, insert_row, add_row, new_row. intros E.
  crunch E; inversion E; subst; simpl;
    repeat match goal with |- _ /\ _ => split end;
    try solve [auto | intuition discriminate]; intros Hr; try discriminate Hr.
  all: eexists; eexists; (split; [reflexivity|]).
  all: match goal with Hn : has_name _ _ = _ |- _ => rewrite Hn end.
  all: try match goal with Hc : batch_column _ = _ |- _ => rewrite Hc end.
  all: (split; [reflexivity|]); (split; [reflexivity|]).
  all: try (intros _ Hb; apply Z.eqb_eq in Heqb0; contradiction).
  all: try (intros Hc; congruence).
  all: try (intros; reflexivity).
  Unshelve. all: exact None.
Qed.

Lemma getNextBatchNumber_fails w t w1 e :
  getNextBatchNumber w = (t, w1, Err e) ->
  pool_ended w = false ->
  forall tb, migrations w = Some tb ->
  batch_column tb = None \/ int4_max <= coalesce_max_batch tb.
Proof.
  unfold getNextBatchNumber, pool_query, reading. intros E Hp tb Hm.
  rewrite Hp, Hm in E. destruct (batch_column tb); auto.
  destruct (int4_max <=? coalesce_max_batch tb) eqn:L; [|discriminate].
  right. apply Z.leb_le; auto.
Qed.

Lemma markMigrationExecuted_fails n b w t w1 e :
  markMigrationExecuted n (Some b) w = (t, w1, Err e) ->
  pool_ended w = false ->
  forall tb, migrations w = Some tb -> batch_column tb = None.
Proof.
  unfold markMigrationExecuted, pool_query, insert_row. intros E Hp tb Hm.
  destruct (batch_column tb) eqn:C; auto.
  destruct (b =? 0); rewrite Hp, Hm, C in E; discriminate.
Qed.

Lemma isApplied_has_name w tb n :
  migrations w = Some tb -> isApplied n w = has_name n tb.
Proof. unfold isApplied, ledger, has_name. intros ->. reflexivity. Qed.

Lemma loop_cons m rest n cb w tr w' r :
  runMigrations_loop (m :: rest) n cb w = (tr, w', r) ->
  (isApplied (name m) w = true
   /\ exists t1 t2, tr = t1 ++ t2 /\ forward_calls t1 = [] /\ backward_calls t1 = []
        /\ ~ In SelectNextBatch (statements t1)
        /\ runMigrations_loop rest n cb w = (t2, w', r))
  \/ (isApplied (name m) w = false
      /\ exists t1 t2 w1 b tb v,
           tr = t1 ++ t2 /\ forward_calls t1 = [(m, None)] /\ backward_calls t1 = []
           /\ runMigrations_loop rest (S n) (Some b) w1 = (t2, w', r)
           /\ migrations w = Some tb
           /\ migrations w1 = Some (add_row tb (new_row (name m) (now w) v))
           /\ now w1 = tick (now w)
           /\ directory w1 = directory w /\ pool_ended w1 = pool_ended w
           /\ argv_e w1 = argv_e w
           /\ (batch_column tb <> None -> b <> 0 -> v = Some b)
           /\ (cb = Some b
               \/ (cb = None /\ batch_column tb <> None
                   /\ coalesce_max_batch tb < int4_max
                   /\ b = coalesce_max_batch tb + 1)))
  \/ (exists e, r = Err e /\ migrations w' = migrations w
        /\ directory w' = directory w /\ pool_ended w' = pool_ended w
        /\ argv_e w' = argv_e w /\ now w' = now w /\ backward_calls tr = []
        /\ ((exists x, e = OperationFailed x /\ forward_calls tr = [(m, Some x)]
               /\ isApplied (name m) w = false /\ pool_ended w = false
               /\ ~ In SelectNextBatch (statements tr))
            \/ (forward_calls tr = [] /\ ~ In SelectNextBatch (statements tr))
            \/ (forward_calls tr = [(m, None)]
                /\ exists tb, migrations w = Some tb
                     /\ (batch_column tb = None
                         \/ (cb = None /\ int4_max <= coalesce_max_batch tb))))).
Proof.
  simpl. intros E.
  apply bind_inv in E as [(t1 & w1 & was & t2 & E1 & E2 & ->)|(e & E1 & ->)];
    [..|exact _];
    apply executeMigration_spec in E1
      as (Hm & Hd & Hp & Ha & Hn & Hb & Hs & Hc).
  - destruct Hc as [(Hr & Hf & Hap & Happ)
                   |[(Hr & Hf & Hap & Hpool & Hex)|[(e & Hr & _)|(e & Hr & _)]]];
      try discriminate; inversion Hr; subst was.
    + (* already executed: the world is the same *)
      left. split; auto. exists t1, t2. repeat split; auto.
      * destruct Hs as [-> | ->]; simpl; intuition discriminate.
      * assert (w1 = w) as <-; auto.
        destruct w1, w; simpl in *; congruence.
    + (* up() succeeded *)
      destruct (migrations w) as [tb|] eqn:Htb; [|congruence].
      apply bind_inv in E2 as [(t3 & w3 & b & t4 & E3 & E4 & ->)|(e & E3 & ->)];
        [..|exact _].
      * assert (w3 = w1 /\ forward_calls t3 = [] /\ backward_calls t3 = []
                /\ (cb = Some b
                    \/ (cb = None /\ batch_column tb <> None
                        /\ coalesce_max_batch tb < int4_max
                        /\ b = coalesce_max_batch tb + 1))) as (-> & F3 & B3 & Hcb).
        { destruct cb as [b0|].
          - inversion E3; subst. auto.
          - apply getNextBatchNumber_spec in E3 as (-> & F3 & B3 & Hok).
            destruct (Hok b eq_refl) as (tb' & Htb' & ? & ? & ?).
            rewrite Hm in Htb'. inversion Htb'; subst tb'. auto 10. }
        apply bind_inv in E4 as [(t5 & w5 & [] & t6 & E5 & E6 & ->)|(e & E5 & ->)];
          [..|exact _];
          pose proof E5 as E5';
          apply markMigrationExecuted_spec in E5
            as (F5 & B5 & A5 & D5 & P5 & G5 & S5 & Herr & Hok).
        -- right; left. split; auto.
           destruct (Hok eq_refl) as (tb' & v & Htb' & Hw5 & Hnow & Hv).
           rewrite Hm in Htb'. inversion Htb'; subst tb'.
           rewrite (isApplied_has_name _ _ _ Htb) in Hap. rewrite Hap in Hw5.
           exists (t1 ++ t3 ++ t5), t6, w5, b, tb, v.
           rewrite !forward_calls_app, !backward_calls_app, F3, F5, B3, B5, Hf, Hb, Hn in *.
           rewrite !app_assoc. repeat split; auto; try congruence.
        -- right; right. exists e. rewrite (Herr e eq_refl).
           rewrite !forward_calls_app, !backward_calls_app, F3, F5, B3, B5, Hf, Hb.
           repeat split; auto. right; right. split; auto.
           exists tb. split; auto. left.
           eapply markMigrationExecuted_fails with (w := w1); eauto; congruence.
      * right; right. exists e.
        destruct cb as [b0|]; [discriminate|].
        pose proof (getNextBatchNumber_fails _ _ _ _ E3) as Hfail.
        apply getNextBatchNumber_spec in E3 as (-> & F3 & B3 & _).
        rewrite !forward_calls_app, !backward_calls_app, F3, B3, Hf, Hb.
        repeat split; auto. right; right. split; auto.
        exists tb. split; auto.
        destruct (Hfail ltac:(congruence) tb ltac:(congruence)); auto.
  - right; right. exists e. repeat split; auto.
    assert (Hns : ~ In SelectNextBatch (statements tr))
      by (destruct Hs as [-> | ->]; simpl; intuition discriminate).
    destruct Hc as [(Hr & _)|[(Hr & _)|[(x & Hr & Hf & Hap & Hpo)|(x & Hr & Hf & _)]]];
      try discriminate; inversion Hr; subst; eauto 10.
Qed.

Lemma isApplied_ext w w' n :
  migrations w' = migrations w -> isApplied n w' = isApplied n w.
Proof. unfold isApplied, ledger. intros ->. reflexivity. Qed.

Lemma isApplied_add_row w w1 tb row n :
  migrations w = Some tb -> migrations w1 = Some (add_row tb row) ->
  isApplied n w1 = isApplied n w || String.eqb (migration_name row) n.
Proof.
  unfold isApplied, ledger, add_row. intros -> ->. simpl.
  rewrite existsb_app. simpl. rewrite orb_false_r. reflexivity.
Qed.

(** The loop leaves directory, pool and arguments alone, invokes no backward
    operation, and only ever adds records. *)
Lemma loop_frame files : forall n cb w tr w' r,
  runMigrations_loop files n cb w = (tr, w', r) ->
  directory w' = directory w /\ pool_ended w' = pool_ended w
  /\ argv_e w' = argv_e w /\ backward_calls tr = []
  /\ (migrations w = None -> migrations w' = None)
  /\ (forall tb, migrations w = Some tb ->
        exists new, migrations w' =
          Some {| batch_column := batch_column tb; rows := rows tb ++ new |})
  /\ (forall x, isApplied x w = true -> isApplied x w' = true).
Proof.
  induction files as [|m rest IH]; intros n cb w tr w' r E.
  - inversion E; subst. repeat split; auto.
    intros tb Htb. exists []. rewrite app_nil_r. destruct tb; auto.
  - apply loop_cons in E
      as [(Hap & t1 & t2 & -> & F1 & B1 & S1 & E2)
         |[(Hap & t1 & t2 & w1 & b & tb & v & -> & F1 & B1 & E2 & Htb & Hw1 & Hnow
             & Hd & Hp & Ha & Hv & Hcb)
          |(e & -> & Hm & Hd & Hp & Ha & Hnow & Hb & _)]].
    + apply IH in E2 as (? & ? & ? & B2 & ? & ? & ?).
      rewrite backward_calls_app, B1, B2. repeat split; auto.
    + apply IH in E2 as (Hd2 & Hp2 & Ha2 & B2 & Hnone & Hsome & Hmono).
      rewrite backward_calls_app, B1, B2.
      repeat split; try congruence.
      * intros tb' Htb'. rewrite Htb in Htb'. inversion Htb'; subst tb'.
        destruct (Hsome _ Hw1) as (new & Hnew).
        exists (new_row (name m) (now w) v :: new).
        rewrite Hnew. unfold add_row. simpl. rewrite <- app_assoc. reflexivity.
      * intros x Hx. apply Hmono.
        rewrite (isApplied_add_row _ _ _ _ x Htb Hw1), Hx. reflexivity.
    + repeat split; auto; try congruence.
      * intros tb Htb. exists []. rewrite app_nil_r, Hm, Htb. destruct tb; auto.
      * intros x Hx. rewrite (isApplied_ext _ _ x Hm). auto.
Qed.

(** The loop of [runMigrations] on a failing forward operation. *)
Lemma loop_forward_failure files : forall n cb w tr w' r m e,
  runMigrations_loop files n cb w = (tr, w', r) ->
  In (m, Some e) (forward_calls tr) ->
  r = Err (OperationFailed e) /\ pool_ended w' = false
  /\ exists applied,
       forward_calls tr = map succeeded applied ++ [(m, Some e)]
       /\ (forall a, In a applied ->
             isApplied (name a) w = false /\ isApplied (name a) w' = true)
       /\ isApplied (name m) w = false /\ isApplied (name m) w' = false.
Proof.
  induction files as [|m0 rest IH]; intros n cb w tr w' r m e E Hin.
  - inversion E; subst. contradiction.
  - apply loop_cons in E
      as [(Hap & t1 & t2 & -> & F1 & B1 & S1 & E2)
         |[(Hap & t1 & t2 & w1 & b & tb & v & -> & F1 & B1 & E2 & Htb & Hw1 & Hnow
             & Hd & Hp & Ha & Hv & Hcb)
          |(x & -> & Hm & Hd & Hp & Ha & Hnow & Hb & Hcase)]].
    + rewrite forward_calls_app, F1 in *. simpl in *. eauto.
    + rewrite forward_calls_app, F1 in *. simpl in Hin.
      destruct Hin as [Hin|Hin]; [discriminate|].
      pose proof (loop_frame _ _ _ _ _ _ _ E2) as (_ & _ & _ & _ & _ & _ & Hmono).
      destruct (IH _ _ _ _ _ _ _ _ E2 Hin) as (-> & Hpool & applied & Hf & Hrec & Hm1 & Hm2).
      pose proof (isApplied_add_row _ _ _ _ (name m) Htb Hw1) as Hadd.
      rewrite Hm1 in Hadd. symmetry in Hadd. apply orb_false_elim in Hadd as (Hmw & _).
      repeat split; auto.
      exists (m0 :: applied). simpl. rewrite Hf.
      split; [reflexivity|]. split; [|split; auto].
      intros q [<-|Ia].
      * split; auto. apply Hmono.
        rewrite (isApplied_add_row _ _ _ _ (name m0) Htb Hw1). simpl.
        rewrite String.eqb_refl. apply orb_true_r.
      * destruct (Hrec q Ia) as (Hn1 & Hn2). split; auto.
        pose proof (isApplied_add_row _ _ _ _ (name q) Htb Hw1) as Hadd'.
        rewrite Hn1 in Hadd'. symmetry in Hadd'.
        apply orb_false_elim in Hadd' as (? & _). auto.
    + destruct Hcase as [(y & -> & Hf & Hap & Hpo & _)|[(Hf & _)|(Hf & _)]];
        rewrite Hf in Hin; simpl in Hin; try tauto.
      * destruct Hin as [Hin|[]]. inversion Hin; subst.
        repeat split; try congruence.
        exists []. simpl. repeat split; auto; try tauto.
        rewrite (isApplied_ext _ _ _ Hm). auto.
      * destruct Hin as [Hin|[]]. discriminate.
Qed.

Lemma migrationTableExists_spec w t w1 r :
  migrationTableExists w = (t, w1, r) ->
  w1 = w
  /\ ((pool_ended w = true /\ t = [] /\ r = Err PoolClosed)
      \/ (pool_ended w = false /\ t = [Query SelectTableExists]
          /\ r = Ok (match migrations w with Some _ => true | None => false end))).
Proof.
  unfold migrationTableExists, pool_query.
  destruct (pool_ended w); intros E; inversion E; subst; auto.
Qed.

Lemma createMigrationsTable_fresh w :
  pool_ended w = false -> migrations w = None ->
  createMigrationsTable w =
    ([Query CreateTableIfNotExists; Query (SelectColumnExists "migrations" "batch");
      Query AlterAddBatch; Query UpdateBatchNull; Log TableCreatedOrUpdated],
     set_table w (Some fresh_table), Ok tt).
Proof.
  intros Hp Hm.
  unfold createMigrationsTable, create_table_if_not_exists, checkColumnExists,
    alter_add_batch, update_batch_null, pool_query, writing, bind, log, emit, ret.
  rewrite Hp, Hm. simpl. rewrite Hp. simpl. rewrite Hp. simpl. rewrite Hp. reflexivity.
Qed.

Lemma getMigrationFiles_spec w t w1 r :
  getMigrationFiles w = (t, w1, r) ->
  r = discovered (directory w)
  /\ migrations w1 = migrations w /\ app w1 = app w /\ now w1 = now w
  /\ pool_ended w1 = pool_ended w /\ argv_e w1 = argv_e w
  /\ directory w1 = match directory w with None => Some [] | d => d end
  /\ forward_calls t = [] /\ backward_calls t = [] /\ statements t = [] /\ logged t = [].
Proof.
  unfold getMigrationFiles, discovered.
  destruct (directory w) eqn:D; intros E; inversion E; subst; simpl; rewrite ?D; auto 12.
Qed.

Lemma runMigrations_try_inv w tb wb rb :
  runMigrations_try w = (tb, wb, rb) ->
  exists t0 w0,
    prelude_rel w t0 w0
    /\ ((exists e, rb = Err e /\ wb = w0 /\ tb = t0
           /\ (pool_ended w = false -> migrations w0 <> None))
        \/ (exists files t1 rl,
              prelude_ok w w0 files
              /\ runMigrations_loop files 0%nat None w0 = (t1, wb, rl)
              /\ ((exists n cb, rl = Ok (n, cb) /\ rb = Ok tt
                     /\ tb = t0 ++ t1
                             ++ [Log (if (n =? 0)%nat then NothingToMigrate
                                      else MigrationsCompleted)])
                  \/ (exists e, rl = Err e /\ rb = Err e /\ tb = t0 ++ t1)))).
Proof.
  unfold runMigrations_try. intros E.
  apply bind_inv in E as [(t1 & w1 & te & t2 & E1 & E2 & ->)|(e1 & E1 & ->)];
    [..|exact _];
    apply migrationTableExists_spec in E1 as (-> & [(Hp & -> & Hr1)|(Hp & -> & Hr1)]);
    try discriminate.
  2: { exists [], w. split.
       - unfold prelude_rel; simpl; intuition discriminate.
       - left. exists e1. repeat split; auto; congruence. }
  inversion Hr1; subst te; clear Hr1.
  assert (Hpre : forall t3 w3 r3,
    (if negb (match migrations w with Some _ => true | None => false end)
     then createMigrationsTable else ret tt) w = (t3, w3, r3) ->
    r3 = Ok tt /\ prelude_rel w ([Query SelectTableExists] ++ t3) w3
    /\ pool_ended w3 = false /\ migrations w3 <> None /\ directory w3 = directory w).
  { intros t3 w3 r3 E3. destruct (migrations w) as [tb0|] eqn:Hm; simpl in E3.
    - inversion E3; subst. unfold prelude_rel; simpl; rewrite ?Hm.
      repeat split; auto; intuition discriminate.
    - rewrite (createMigrationsTable_fresh _ Hp Hm) in E3. inversion E3; subst.
      unfold prelude_rel; simpl. repeat split; auto; intuition discriminate. }
  apply bind_inv in E2 as [(t3 & w3 & [] & t4 & E3 & E4 & ->)|(e3 & E3 & ->)];
    [..|exact _];
    apply Hpre in E3 as (Hr3 & Hrel & Hp3 & Hm3 & Hd3); try discriminate.
  destruct Hrel as (F0 & B0 & S0 & L0 & Ha0 & Hn0 & Hpe0 & Hg0 & Hmig0).
  apply bind_inv in E4 as [(t5 & w5 & files & t6 & E5 & E6 & ->)|(e5 & E5 & ->)];
    [..|exact _];
    apply getMigrationFiles_spec in E5
      as (Hdisc & Hm5 & Ha5 & Hn5 & Hp5 & Hg5 & Hd5 & F5 & B5 & S5 & L5).
  - exists ([Query SelectTableExists] ++ t3 ++ t5), w5. split.
    + unfold prelude_rel.
      rewrite !app_assoc, forward_calls_app, backward_calls_app, statements_app,
        F5, B5, S5, !app_nil_r, Hm5.
      repeat split; auto; try congruence.
      intros I. apply in_app_or in I as [I|I]; [contradiction|].
      apply in_logged in I. rewrite L5 in I. contradiction.
    + right.
      assert (Hok : prelude_ok w w5 files).
      { unfold prelude_ok. rewrite Hd5, Hd3, Hm5, Hp5. rewrite Hd3 in Hdisc.
        repeat split; auto; destruct (directory w); simpl in *; congruence. }
      apply bind_inv in E6 as [(t7 & w7 & [n cb] & t8 & E7 & E8 & ->)|(e7 & E7 & ->)];
        [..|exact _].
      * assert (w7 = wb /\ rb = Ok tt
                /\ t8 = [Log (if (n =? 0)%nat then NothingToMigrate
                              else MigrationsCompleted)]) as (-> & -> & ->).
        { simpl in E8. destruct (n =? 0)%nat; inversion E8; auto. }
        exists files, t7, (Ok (n, cb)). split; [exact Hok|split; [exact E7|]]. left.
        exists n, cb. rewrite <- ?app_assoc; auto.
      * exists files, t6, (Err e7). split; [exact Hok|split; [exact E7|]]. right.
        exists e7. rewrite <- ?app_assoc. auto.
  - exists ([Query SelectTableExists] ++ t3 ++ t4), wb. split.
    + unfold prelude_rel.
      rewrite !app_assoc, forward_calls_app, backward_calls_app, statements_app,
        F5, B5, S5, !app_nil_r, Hm5.
      repeat split; auto; try congruence.
      intros I. apply in_app_or in I as [I|I]; [contradiction|].
      apply in_logged in I. rewrite L5 in I. contradiction.
    + left. exists e5. rewrite <- ?app_assoc. repeat split; auto; congruence.
Qed.

Lemma runMigrations_inv w tr w' r :
  runMigrations w = (tr, w', r) ->
  exists tp wp rp tc rc t0 w0,
    close_if_standalone wp = (tc, w', rc) /\ tr = tp ++ tc
    /\ r = match rc with Ok _ => rp | Err e => Err e | Pending => Pending end
    /\ prelude_rel w t0 w0
    /\ ((exists e, rp = Err e /\ wp = w0
           /\ tp = t0 ++ [LogError (MigrationFailed e)]
           /\ (pool_ended w = false -> migrations w0 <> None))
        \/ (exists files t1 rl,
              prelude_ok w w0 files
              /\ runMigrations_loop files 0%nat None w0 = (t1, wp, rl)
              /\ ((exists n cb, rl = Ok (n, cb) /\ rp = Ok tt
                     /\ tp = t0 ++ t1
                             ++ [Log (if (n =? 0)%nat then NothingToMigrate
                                      else MigrationsCompleted)])
                  \/ (exists e, rl = Err e /\ rp = Err e
                        /\ tp = t0 ++ t1 ++ [LogError (MigrationFailed e)])))).
Proof.
  unfold runMigrations. intros E.
  apply finally_inv in E as (tp & wp & rp & tc & rc & E & Hc & -> & ->);
    [..|exact _].
  exists tp, wp, rp, tc, rc.
  apply try_catch_inv in E as [(a & E & ->)|(tb & wb & e & th & E & Hh & ->)];
    [..|exact _].
  2: apply rethrow_inv in Hh as (-> & -> & ->).
  all: apply runMigrations_try_inv in E as (t0 & w0 & Hrel & Hcase);
    exists t0, w0; rewrite ?app_nil_r; do 4 (split; [solve [auto]|]).
  - destruct Hcase as [(e & Hr & _)|(files & t1 & rl & Hok & Hl & Hcase)];
      [discriminate|].
    right. exists files, t1, rl. do 2 (split; [solve [auto]|]).
    destruct Hcase as [(n & cb & -> & _ & ->)|(e & _ & Hr & _)]; [|discriminate].
    left. exists n, cb. destruct a. auto.
  - destruct Hcase as [(e' & Hr & -> & -> & Hcr)|(files & t1 & rl & Hok & Hl & Hcase)].
    + inversion Hr; subst. left. eauto.
    + right. exists files, t1, rl. do 2 (split; [solve [auto]|]).
      destruct Hcase as [(n & cb & _ & Hr & _)|(e' & -> & Hr & ->)]; [discriminate|].
      inversion Hr; subst. right. exists e'. rewrite <- app_assoc. auto.
Qed.

Lemma prelude_isApplied w t0 w0 n :
  prelude_rel w t0 w0 -> isApplied n w0 = false -> isApplied n w = false.
Proof.
  intros (_ & _ & _ & _ & _ & _ & _ & _ & [Hm|(Hm & _)]) Hn.
  - rewrite <- (isApplied_ext _ _ n Hm). auto.
  - unfold isApplied, ledger. rewrite Hm. reflexivity.
Qed.

(** C1.  Whatever the ledger and the directory hold, in a process that was not
    started with [-e]: if, during one call of [runMigrations], the forward
    operation of a migration [m] raises [e], then the call fails with that
    very exception; the failing call is the last forward operation of the
    trace, so no later migration is started; every migration whose forward
    operation succeeded before it in this call was not recorded when the call
    began and has a record when it ends; and [m] has no record. *)
Theorem runMigrations_forward_failure (w w' : World) tr r m e :
  argv_e w = false ->
  runMigrations w = (tr, w', r) ->
  In (Up m (Some e)) tr ->
  r = Err (OperationFailed e)
  /\ exists applied,
       forward_calls tr = map succeeded applied ++ [(m, Some e)]
       /\ (forall a, In a applied ->
             isApplied (name a) w = false /\ isApplied (name a) w' = true)
       /\ isApplied (name m) w' = false.
Proof.
  intros Harg E Hin.
  apply runMigrations_inv in E
    as (tp & wp & rp & tc & rc & t0 & w0 & Hc & -> & -> & Hrel & Hcase).
  pose proof Hrel as (F0 & _ & _ & _ & _ & _ & _ & A0 & _).
  apply close_inv in Hc as (Hmc & _ & _ & _ & _ & Fc & _ & _ & _ & Hrc).
  apply in_forward_calls in Hin.
  rewrite forward_calls_app, Fc, app_nil_r in *.
  destruct Hcase as [(x & -> & -> & -> & _)|(files & t1 & rl & Hok & Hl & Hcase)].
  - rewrite forward_calls_app, F0 in Hin. simpl in Hin. contradiction.
  - assert (Hf : forward_calls tp = forward_calls t1).
    { destruct Hcase as [(n & cb & _ & _ & ->)|(x & _ & _ & ->)];
        rewrite !forward_calls_app, F0; simpl; rewrite app_nil_r; auto. }
    rewrite Hf in *.
    destruct (loop_forward_failure _ _ _ _ _ _ _ _ _ Hl Hin)
      as (-> & Hpool & applied & Hfc & Hrec & Hm0 & Hm1).
    destruct Hcase as [(n & cb & Hr & _)|(x & Hr & -> & _)]; [discriminate|].
    inversion Hr; subst x.
    assert (Hwp : argv_e wp = false).
    { apply loop_frame in Hl as (_ & _ & Al & _). congruence. }
    rewrite (Hrc Hwp). split; auto.
    exists applied. split; auto. split.
    + intros a Ia. destruct (Hrec a Ia) as (H1 & H2). split.
      * eapply prelude_isApplied; eauto.
      * rewrite (isApplied_ext _ _ _ Hmc). auto.
    + rewrite (isApplied_ext _ _ _ Hmc). auto.
Qed.

Lemma newly_applied_app t1 t2 :
  newly_applied (t1 ++ t2) = newly_applied t1 ++ newly_applied t2.
Proof. unfold newly_applied. rewrite forward_calls_app, filter_app, map_app. auto. Qed.

Lemma in_newly_applied tr m : In (Up m None) tr <-> In m (newly_applied tr).
Proof.
  rewrite in_forward_calls. unfold newly_applied. rewrite in_map_iff. split.
  - intros I. exists (m, None). split; auto. apply filter_In. auto.
  - intros ([m' [e|]] & <- & I); apply filter_In in I as (I & Hs); simpl in *;
      [discriminate|auto].
Qed.

Lemma loop_rows files : forall n cb w tr w' r tb,
  runMigrations_loop files n cb w = (tr, w', r) ->
  migrations w = Some tb -> batch_column tb <> None ->
  match cb with
  | Some b => b <> 0
  | None => 0 <= coalesce_max_batch tb < int4_max
  end ->
  exists new,
    migrations w' = Some {| batch_column := batch_column tb; rows := rows tb ++ new |}
    /\ map migration_name new = map name (newly_applied tr)
    /\ Forall (fun row => isApplied (migration_name row) w = false) new
    /\ Forall (fun row => batch row = Some (batch_of_run cb tb)) new
    /\ map executed_at new = stamps (now w) (List.length new).
Proof.
  induction files as [|m0 rest IH]; intros n cb w tr w' r tb E Htb Hcol Hcb.
  - inversion E; subst. exists []. rewrite app_nil_r, Htb. destruct tb; simpl; auto.
  - apply loop_cons in E
      as [(Hap & t1 & t2 & -> & F1 & B1 & S1 & E2)
         |[(Hap & t1 & t2 & w1 & b & tb' & v & -> & F1 & B1 & E2 & Htb' & Hw1 & Hnow
             & Hd & Hp & Ha & Hv & Hb)
          |(x & -> & Hm & Hd & Hp & Ha & Hnow & Hb & Hcase)]].
    + destruct (IH _ _ _ _ _ _ _ E2 Htb Hcol Hcb) as (new & ? & Hn & ? & ? & ?).
      exists new. rewrite newly_applied_app. unfold newly_applied at 1. rewrite F1.
      simpl. auto.
    + rewrite Htb in Htb'. inversion Htb'; subst tb'. clear Htb'.
      assert (Hb0 : b <> 0 /\ batch_of_run cb tb = b).
      { destruct Hb as [->|(-> & _ & _ & ->)]; simpl in *; split; auto; lia. }
      destruct Hb0 as (Hb0 & Hrun).
      rewrite (Hv Hcol Hb0) in Hw1.
      destruct (IH _ _ _ _ _ _ _ E2 Hw1 Hcol Hb0) as (new & Hm' & Hn & Hna & Hba & Hst).
      exists (new_row (name m0) (now w) (Some b) :: new).
      rewrite newly_applied_app. unfold newly_applied at 1. rewrite F1. simpl.
      rewrite Hm', Hn, Hst, Hnow, Hrun. unfold add_row. simpl. rewrite <- app_assoc.
      repeat split; auto.
      * constructor; auto. simpl.
        eapply Forall_impl; [|exact Hna]. simpl. intros row Hrow.
        rewrite (isApplied_add_row _ _ _ _ _ Htb Hw1) in Hrow.
        apply orb_false_elim in Hrow as (? & _). auto.
    + exists []. rewrite app_nil_r, Hm, Htb.
      assert (Hnone : newly_applied tr = []).
      { unfold newly_applied.
        destruct Hcase as [(y & _ & -> & _)|[(-> & _)|(_ & tb' & Htb' & Hbad)]]; auto.
        rewrite Htb in Htb'. inversion Htb'; subst tb'.
        destruct Hbad as [Hbad|(-> & Hbad)]; [contradiction|lia]. }
      rewrite Hnone. destruct tb; simpl; auto.
Qed.

Lemma sql_max_batch_bound rs lo hi :
  (forall r b, In r rs -> batch r = Some b -> lo <= b < hi) ->
  match sql_max_batch rs with Some m => lo <= m < hi | None => True end.
Proof.
  induction rs as [|r rs IH]; simpl; auto. intros Hall.
  assert (IH' := IH (fun r0 b I => Hall r0 b (or_intror I))).
  destruct (batch r) as [b|] eqn:Hb; auto.
  pose proof (Hall r b (or_introl eq_refl) Hb).
  destruct (sql_max_batch rs); auto. lia.
Qed.

Lemma prelude_table w t0 w0 :
  prelude_rel w t0 w0 -> batches_in_range w -> migrations w0 <> None ->
  exists tb, migrations w0 = Some tb /\ batch_column tb <> None
    /\ rows tb = ledger w
    /\ coalesce_max_batch tb = currentMaxBatch w
    /\ 0 <= coalesce_max_batch tb < int4_max.
Proof.
  intros (_ & _ & _ & _ & _ & _ & _ & _ & Hm) Hr Hex.
  unfold batches_in_range, currentMaxBatch, ledger, coalesce_max_batch in *.
  destruct Hm as [Hm|(Hm & Hm0)].
  - rewrite Hm in *. destruct (migrations w) as [tb|]; [|congruence].
    destruct Hr as (Hcol & Hall). exists tb. repeat split; auto;
    pose proof (sql_max_batch_bound _ _ _ Hall) as Hmax;
    destruct (sql_max_batch (rows tb)); unfold int4_max in *; lia.
  - rewrite Hm, Hm0. exists fresh_table. simpl. unfold int4_max.
    repeat split; auto; try discriminate; lia.
Qed.

(** A run of the loop that applies nothing. *)
Lemma loop_noop files : forall n cb w tr w' r,
  runMigrations_loop files n cb w = (tr, w', r) ->
  newly_applied tr = [] ->
  ~ In SelectNextBatch (statements tr) /\ migrations w' = migrations w
  /\ now w' = now w
  /\ forall n' cb', r = Ok (n', cb') -> n' = n /\ cb' = cb.
Proof.
  induction files as [|m0 rest IH]; intros n cb w tr w' r E Hnone.
  - inversion E; subst. simpl. repeat split; auto; congruence.
  - apply loop_cons in E
      as [(Hap & t1 & t2 & -> & F1 & B1 & S1 & E2)
         |[(Hap & t1 & t2 & w1 & b & tb' & v & -> & F1 & B1 & E2 & _)
          |(x & -> & Hm & Hd & Hp & Ha & Hnow & Hb & Hcase)]].
    + rewrite newly_applied_app in Hnone. apply app_eq_nil in Hnone as (_ & Hnone).
      destruct (IH _ _ _ _ _ _ E2 Hnone) as (Hs & ? & ? & ?).
      rewrite statements_app. split; [|split; [|split]]; auto.
      intros I. apply in_app_or in I as [I|I]; auto.
    + rewrite newly_applied_app in Hnone. unfold newly_applied at 1 in Hnone.
      rewrite F1 in Hnone. discriminate.
    + split; [|split; [|split]]; auto; try discriminate.
      destruct Hcase as [(y & _ & _ & _ & _ & Hs)|[(_ & Hs)|(Hf & _)]]; auto.
      unfold newly_applied in Hnone. rewrite Hf in Hnone. discriminate.
Qed.

(** C2.  In one call of [runMigrations], on a ledger whose [batch] column
    exists and holds batches from 0 to below [int4_max], every migration newly
    applied is recorded, and each of its records carries the same batch: the
    largest batch of the ledger before the call plus one, which is 1 for an
    empty ledger.  A call that applies nothing never asks the database for the
    next batch number, leaves the ledger as it was and, when it returns,
    has logged "Nothing to migrate". *)
Theorem runMigrations_batch (w w' : World) tr r :
  runMigrations w = (tr, w', r) ->
  (batches_in_range w ->
   forall m, In (Up m None) tr ->
     isApplied (name m) w' = true
     /\ forall row, In row (ledger w') -> migration_name row = name m ->
          batch row = Some (currentMaxBatch w + 1))
  /\ (ledger w = [] -> currentMaxBatch w + 1 = 1)
  /\ ((forall m, ~ In (Up m None) tr) ->
      ~ In (Query SelectNextBatch) tr
      /\ ledger w' = ledger w
      /\ (r = Ok tt -> In (Log NothingToMigrate) tr)).
Proof.
  intros E.
  apply runMigrations_inv in E
    as (tp & wp & rp & tc & rc & t0 & w0 & Hc & -> & -> & Hrel & Hcase).
  pose proof Hrel as (F0 & _ & S0 & _).
  apply close_inv in Hc as (Hmc & _ & _ & _ & _ & Fc & _ & Sc & Lc & Hrc).
  split; [|split].
  - intros Hrange m Hin. apply in_newly_applied in Hin.
    rewrite newly_applied_app in Hin. unfold newly_applied at 2 in Hin.
    rewrite Fc, app_nil_r in Hin.
    destruct Hcase as [(x & -> & -> & -> & _)|(files & t1 & rl & Hok & Hl & Hcase)].
    { rewrite newly_applied_app in Hin. unfold newly_applied in Hin.
      rewrite F0 in Hin. simpl in Hin. contradiction. }
    assert (Hin1 : In m (newly_applied t1)).
    { destruct Hcase as [(n & cb & _ & _ & ->)|(x & _ & _ & ->)];
        rewrite !newly_applied_app in Hin; unfold newly_applied at 1 in Hin;
        rewrite F0 in Hin; simpl in Hin; rewrite ?app_nil_r in Hin; auto. }
    destruct Hok as (_ & Hex & _).
    destruct (prelude_table _ _ _ Hrel Hrange Hex) as (tb & Htb & Hcol & Hrows & Hmax & Hbnd).
    destruct (loop_rows _ _ _ _ _ _ _ _ Hl Htb Hcol Hbnd)
      as (new & Hm' & Hnames & Hna & Hba & _).
    assert (Hnew : exists row, In row new /\ migration_name row = name m).
    { apply (in_map name) in Hin1. rewrite <- Hnames in Hin1.
      apply in_map_iff in Hin1 as (row & ? & ?). eauto. }
    destruct Hnew as (row0 & Irow0 & Hname0).
    unfold isApplied, ledger. rewrite Hmc, Hm'. simpl. split.
    + apply existsb_exists. exists row0. split.
      * apply in_or_app; auto.
      * rewrite Hname0. apply String.eqb_refl.
    + intros row Irow Hname. apply in_app_or in Irow as [Irow|Irow].
      * exfalso. rewrite Forall_forall in Hna. specialize (Hna _ Irow0).
        rewrite Hname0 in Hna. unfold isApplied, ledger in Hna. rewrite Htb in Hna.
        assert (existsb (fun r0 => (migration_name r0 =? name m)%string) (rows tb) = true);
          [|congruence].
        apply existsb_exists. exists row. split; auto. rewrite Hname.
        apply String.eqb_refl.
      * rewrite Forall_forall in Hba. rewrite (Hba _ Irow). simpl. rewrite Hmax. auto.
  - unfold currentMaxBatch. intros ->. reflexivity.
  - intros Hnone.
    assert (Hnil : newly_applied (tp ++ tc) = []).
    { destruct (newly_applied (tp ++ tc)) as [|m l] eqn:Hna; auto.
      exfalso. apply (Hnone m). apply in_newly_applied. rewrite Hna. left; auto. }
    rewrite newly_applied_app in Hnil. apply app_eq_nil in Hnil as (Hnil & _).
    rewrite !in_statements, !in_logged, statements_app, logged_app, Sc, Lc, !app_nil_r.
    assert (Hl0 : ledger w0 = ledger w).
    { destruct Hrel as (_ & _ & _ & _ & _ & _ & _ & _ & [Hm|(Hm & Hm0)]);
        unfold ledger; rewrite ?Hm, ?Hm0; auto. }
    destruct Hcase as [(x & -> & -> & -> & _)|(files & t1 & rl & Hok & Hl & Hcase)].
    + rewrite statements_app. simpl. rewrite app_nil_r.
      repeat split; auto.
      * unfold ledger. rewrite Hmc. exact Hl0.
      * destruct rc; discriminate.
    + assert (Hnil1 : newly_applied t1 = []).
      { destruct Hcase as [(n & cb & _ & _ & ->)|(x & _ & _ & ->)];
          rewrite !newly_applied_app in Hnil;
          apply app_eq_nil in Hnil as (_ & Hnil);
          apply app_eq_nil in Hnil as (Hnil & _); auto. }
      destruct (loop_noop _ _ _ _ _ _ _ Hl Hnil1) as (Hs1 & Hm1 & _ & Hcount).
      assert (Hled : ledger w' = ledger w).
      { rewrite <- Hl0. unfold ledger. rewrite Hmc, Hm1. auto. }
      destruct Hcase as [(n & cb & -> & -> & ->)|(x & -> & -> & ->)];
        rewrite !statements_app, !logged_app; simpl; rewrite ?app_nil_r.
      * destruct (Hcount n cb eq_refl) as (-> & _). simpl.
        repeat split; auto.
        -- intros I. apply in_app_or in I as [I|I]; auto.
        -- intros _. apply in_or_app. right. apply in_or_app. right. left; auto.
      * repeat split; auto.
        -- intros I. apply in_app_or in I as [I|I]; auto.
        -- destruct rc; discriminate.
Qed.

Lemma bind_ok {A B} (m : M A) (k : A -> M B) w t1 w1 a :
  m w = (t1, w1, Ok a) ->
  bind m k w = (let '(t2, w2, r) := k a w1 in (t1 ++ t2, w2, r)).
Proof. unfold bind. intros ->. reflexivity. Qed.

Lemma executeMigration_applied m w :
  pool_ended w = false -> isApplied (name m) w = true ->
  executeMigration m w = ([Query (SelectExecuted (name m))], w, Ok false).
Proof.
  unfold isApplied, ledger, executeMigration, isMigrationExecuted, pool_query,
    reading, bind, has_name.
  intros -> Hap. destruct (migrations w) as [tb|]; [|discriminate].
  rewrite Hap. reflexivity.
Qed.

Lemma loop_all_applied files : forall n cb w,
  pool_ended w = false ->
  (forall f, In f files -> isApplied (name f) w = true) ->
  runMigrations_loop files n cb w =
    (map (fun f => Query (SelectExecuted (name f))) files, w, Ok (n, cb)).
Proof.
  induction files as [|m rest IH]; intros n cb w Hp Hall; [reflexivity|].
  simpl runMigrations_loop.
  rewrite (bind_ok _ _ _ _ _ _ (executeMigration_applied m w Hp (Hall m (or_introl eq_refl)))).
  rewrite IH; auto. intros f I. apply Hall. right; auto.
Qed.

Lemma loop_ok_all_applied files : forall n cb w tr w' res,
  runMigrations_loop files n cb w = (tr, w', Ok res) ->
  forall f, In f files -> isApplied (name f) w' = true.
Proof.
  induction files as [|m rest IH]; intros n cb w tr w' res E f I; [contradiction|].
  apply loop_cons in E
      as [(Hap & t1 & t2 & -> & F1 & B1 & S1 & E2)
         |[(Hap & t1 & t2 & w1 & b & tb & v & -> & F1 & B1 & E2 & Htb & Hw1 & _)
          |(x & Hr & _)]]; [| |discriminate].
  - destruct I as [<-|I]; [|eauto].
    pose proof (loop_frame _ _ _ _ _ _ _ E2) as (_ & _ & _ & _ & _ & _ & Hmono). auto.
  - destruct I as [<-|I]; [|eauto].
    pose proof (loop_frame _ _ _ _ _ _ _ E2) as (_ & _ & _ & _ & _ & _ & Hmono).
    apply Hmono. rewrite (isApplied_add_row _ _ _ _ _ Htb Hw1). simpl.
    rewrite String.eqb_refl. apply orb_true_r.
Qed.

(** C3.  After a call of [runMigrations] that returned normally, a second call
    on the database and directory the first one left, with a live pool and in
    a process that was not started with [-e] (as the first, which returned,
    was not), returns normally, invokes no forward operation, leaves database
    and directory unchanged, and logs "Nothing to migrate" and nothing
    else. *)
Theorem runMigrations_idempotent (w w1 : World) tr :
  runMigrations w = (tr, w1, Ok tt) ->
  forall v, same_store v w1 -> pool_ended v = false -> argv_e v = false ->
  exists tr2 v2,
    runMigrations v = (tr2, v2, Ok tt)
    /\ forward_calls tr2 = []
    /\ same_store v2 v
    /\ logged tr2 = [NothingToMigrate].
Proof.
  intros E v (Hvm & Hva & Hvd) Hvp Hvarg.
  apply runMigrations_inv in E
    as (tp & wp & rp & tc & rc & t0 & w0 & Hc & -> & Hr & Hrel & Hcase).
  apply close_inv in Hc as (Hmc & _ & Hdc & _ & _ & _ & _ & _ & _ & _).
  destruct Hcase as [(x & -> & _)|(files & t1 & rl & Hok & Hl & Hcase)];
    [destruct rc; discriminate|].
  destruct Hcase as [(n & cb & -> & -> & ->)|(x & _ & -> & _)];
    [|destruct rc; discriminate].
  destruct Hok as (_ & Hex & Hdir & _ & Hdisc).
  pose proof (loop_ok_all_applied _ _ _ _ _ _ _ Hl) as Hall.
  pose proof (loop_frame _ _ _ _ _ _ _ Hl) as (Hd1 & _ & _ & _ & Hnone & Hsome & _).
  assert (Hvall : forall f, In f files -> isApplied (name f) v = true).
  { intros f I. rewrite (isApplied_ext wp v); auto. congruence. }
  assert (Hvt : exists tb, migrations v = Some tb).
  { destruct (migrations w0) as [tb0|] eqn:Hm0; [|congruence].
    destruct (Hsome _ eq_refl) as (new & Hnew). rewrite Hvm, Hmc, Hnew. eauto. }
  destruct Hvt as (tb & Htb).
  assert (Hvdisc : exists es, directory v = Some es /\ parse_all (listed_files es) = Ok files).
  { rewrite Hvd, Hdc, Hd1. destruct (directory w0) as [es|]; [|congruence].
    exists es. auto. }
  destruct Hvdisc as (es & Hes & Hparse).
  assert (Etry : runMigrations_try v =
    ([Query SelectTableExists]
       ++ map (fun f => Query (SelectExecuted (name f))) files
       ++ [Log NothingToMigrate], v, Ok tt)).
  { unfold runMigrations_try, migrationTableExists, pool_query, getMigrationFiles, bind.
    rewrite Hvp, Htb. simpl. rewrite Hes, Hparse.
    rewrite (loop_all_applied files 0%nat None v Hvp Hvall). simpl.
    rewrite ?app_nil_r. reflexivity. }
  unfold runMigrations, finally, try_catch. rewrite Etry.
  unfold close_if_standalone, pool_end, ret. rewrite Hvarg.
  eexists; eexists; (split; [reflexivity|]);
    rewrite ?forward_calls_app, ?logged_app; simpl.
  all: assert (Hf : forall l : list MigrationFile,
      forward_calls (map (fun f => Query (SelectExecuted (name f))) l) = []
      /\ logged (map (fun f => Query (SelectExecuted (name f))) l) = [])
    by (induction l; simpl; auto).
  all: destruct (Hf files) as (-> & ->); simpl.
  all: unfold same_store; simpl; auto.
Qed.

Lemma parse_all_err files e :
  parse_all files = Err e ->
  exists f, e = InvalidFilename f /\ In f files /\ match_filename f = None.
Proof.
  induction files as [|f files IH]; simpl; [discriminate|].
  unfold parse_filename. destruct (match_filename f) as [[ts nm]|] eqn:Hm.
  - destruct (parse_all files); [discriminate| |discriminate].
    intros E; inversion E; subst. destruct (IH eq_refl) as (g & ? & ? & ?). eauto.
  - intros E; inversion E; subst. eauto.
Qed.

Lemma rollbackSingleMigration_spec n w t w1 r :
  rollbackSingleMigration n w = (t, w1, r) ->
  pool_ended w1 = pool_ended w /\ argv_e w1 = argv_e w /\ now w1 = now w
  /\ directory w1 = match directory w with None => Some [] | d => d end
  /\ forward_calls t = []
  /\ ((backward_calls t = [] /\ statements t = []
       /\ migrations w1 = migrations w /\ app w1 = app w
       /\ exists e, r = Err e /\ forall x, e <> OperationFailed x)
      \/ (exists m e,
            t = [Log (RollingBack n); Down m (Some e)]
            /\ name m = n /\ In m (match discovered (directory w) with Ok l => l | _ => [] end)
            /\ r = Err (OperationFailed e) /\ migrations w1 = migrations w)
      \/ (exists m,
            name m = n /\ In m (match discovered (directory w) with Ok l => l | _ => [] end)
            /\ ((t = [Log (RollingBack n); Down m None; Query (DeleteByName n);
                      Log (RolledBack n)]
                 /\ r = Ok tt /\ pool_ended w = false
                 /\ exists tb, migrations w = Some tb
                              /\ migrations w1 = Some (without n tb))
                \/ (exists e, r = Err e /\ migrations w1 = migrations w
                      /\ (t = [Log (RollingBack n); Down m None]
                          \/ t = [Log (RollingBack n); Down m None;
                                  Query (DeleteByName n)]))))).
Proof.
  unfold rollbackSingleMigration, getMigrationFiles, require_class, invoke_down,
    removeMigrationRecord, pool_query, writing, bind, log, emit, throw, discovered, without.
  intros E.
  destruct (directory w) as [es|] eqn:Hd; simpl in E.
  2: { inversion E; subst; simpl. do 5 (split; [solve [auto]|]). left.
       do 4 (split; [solve [auto]|]). eexists; split; [reflexivity|intros ? ?; discriminate]. }
  destruct (parse_all (listed_files es)) as [files|e0|] eqn:Hparse; simpl in E.
  2: { inversion E; subst; simpl. rewrite Hd. do 5 (split; [solve [auto]|]). left.
       do 4 (split; [solve [auto]|]). eexists; split; [reflexivity|].
       apply parse_all_err in Hparse as (f & -> & _). intros ? ?; discriminate. }
  2: { exfalso. exact (parse_all_settles _ Hparse). }
  destruct (find (fun m => (name m =? n)%string) files) as [m|] eqn:Hfind; simpl in E.
  2: { inversion E; subst; simpl. rewrite Hd. do 5 (split; [solve [auto]|]). left.
       do 4 (split; [solve [auto]|]). eexists; split; [reflexivity|intros ? ?; discriminate]. }
  apply find_some in Hfind as (Hin & Hname). apply String.eqb_eq in Hname.
  rewrite Hd in E.
  destruct (find (fun e => (entry_name e =? filename m)%string) es) as [en|]; simpl in E.
  2: { inversion E; subst; simpl. rewrite Hd. do 5 (split; [solve [auto]|]). left.
       do 4 (split; [solve [auto]|]). eexists; split; [reflexivity|intros ? ?; discriminate]. }
  destruct (exports en) as [ops|]; simpl in E.
  2: { inversion E; subst; simpl. rewrite Hd. do 5 (split; [solve [auto]|]). left.
       do 4 (split; [solve [auto]|]). eexists; split; [reflexivity|intros ? ?; discriminate]. }
  destruct (down ops (app w)) as [a [e|]] eqn:Hdown; simpl in E.
  { inversion E; subst; simpl. rewrite Hd. do 5 (split; [solve [auto]|]). right; left.
    exists m, e. repeat split; auto. }
  destruct (pool_ended w) eqn:Hp; simpl in E.
  { inversion E; subst; simpl. rewrite Hd. do 5 (split; [solve [auto]|]). right; right.
    exists m. do 2 (split; [solve [auto]|]). right. eexists; split; eauto. }
  destruct (migrations w) as [tb|] eqn:Hm; simpl in E.
  - inversion E; subst; simpl. rewrite Hd. do 5 (split; [solve [auto]|]). right; right.
    exists m. do 2 (split; [solve [auto]|]). left. do 3 (split; [solve [auto]|]). eauto.
  - inversion E; subst; simpl. rewrite Hd. do 5 (split; [solve [auto]|]). right; right.
    exists m. do 2 (split; [solve [auto]|]). right. eexists; split; eauto.
Qed.

Lemma insert_desc_in r l x : In x (insert_desc r l) <-> x = r \/ In x l.
Proof.
  induction l as [|y l IH]; simpl.
  - intuition.
  - destruct (executed_at y <=? executed_at r); simpl; rewrite ?IH; intuition.
Qed.

Lemma insert_desc_sorted r l : newest_first l -> newest_first (insert_desc r l).
Proof.
  unfold newest_first. induction 1 as [|y l Hs IH Hy]; simpl.
  - repeat constructor.
  - destruct (executed_at y <=? executed_at r) eqn:L.
    + apply Z.leb_le in L. constructor; [constructor; auto|].
      constructor; auto. rewrite Forall_forall in *. intros x I.
      specialize (Hy x I). lia.
    + apply Z.leb_gt in L. constructor; auto.
      rewrite Forall_forall in *. intros x I.
      apply insert_desc_in in I as [->|I]; [lia|auto].
Qed.

Lemma order_by_sorted l : newest_first (order_by_executed_at_desc l).
Proof.
  induction l; simpl; [constructor|]. apply insert_desc_sorted; auto.
Qed.

Lemma insert_desc_perm r l : Permutation (r :: l) (insert_desc r l).
Proof.
  induction l as [|y l IH]; simpl; auto.
  destruct (executed_at y <=? executed_at r); auto.
  rewrite perm_swap. constructor. auto.
Qed.

Lemma order_by_perm l : Permutation l (order_by_executed_at_desc l).
Proof.
  induction l; simpl; auto.
  rewrite <- insert_desc_perm. constructor. auto.
Qed.

Lemma newest_first_firstn k l : newest_first l -> newest_first (firstn k l).
Proof.
  unfold newest_first. intros Hs. revert k.
  induction Hs as [|y l Hs IH Hy]; intros [|k]; simpl; try constructor; auto.
  rewrite Forall_forall in *. intros x I. apply Hy.
  rewrite <- (firstn_skipn k l). apply in_or_app; auto.
Qed.

Lemma insert_desc_last r l :
  (forall y, In y l -> executed_at r < executed_at y) ->
  insert_desc r l = l ++ [r].
Proof.
  induction l as [|y l IH]; simpl; auto. intros Hlt.
  pose proof (Hlt y (or_introl eq_refl)).
  destruct (executed_at y <=? executed_at r) eqn:L; [apply Z.leb_le in L; lia|].
  rewrite IH; auto.
Qed.

(** Rows stamped in strictly increasing order come back reversed. *)
Lemma order_by_increasing l :
  StronglySorted (fun a b => executed_at a < executed_at b) l ->
  order_by_executed_at_desc l = rev l.
Proof.
  induction 1 as [|x l Hs IH Hx]; simpl; auto.
  rewrite IH. apply insert_desc_last. intros y I. apply in_rev in I.
  rewrite Forall_forall in Hx. auto.
Qed.

Lemma stamps_later t k x :
  (forall u, u < tick u) -> In x (stamps (tick t) k) -> t < x.
Proof.
  intros Htick. revert t. induction k as [|k IH]; simpl; [tauto|].
  intros t [<-|I]; auto. specialize (IH _ I). specialize (Htick t). lia.
Qed.

Lemma stamps_increasing (new : list Row) t :
  (forall u, u < tick u) ->
  map executed_at new = stamps t (List.length new) ->
  StronglySorted (fun a b => executed_at a < executed_at b) new.
Proof.
  intros Htick. revert t. induction new as [|r new IH]; simpl; intros t E.
  - constructor.
  - inversion E as [[Hr Hrest]]. constructor.
    + eapply IH; eauto.
    + rewrite Forall_forall. intros y I. apply (in_map executed_at) in I.
      rewrite Hrest in I. eapply stamps_later; eauto.
Qed.

Lemma rolled_back_app t1 t2 : rolled_back (t1 ++ t2) = rolled_back t1 ++ rolled_back t2.
Proof. unfold rolled_back. rewrite backward_calls_app, map_app. reflexivity. Qed.

(** Every entry point is a [try] block with a handler that logs and rethrows
    and a [finally] block that closes the pool. *)
Lemma entry_inv (body : M unit) (msg : Error -> Message) w tr w' r :
  finally (try_catch body (fun error => bind (log_error (msg error)) (fun _ => throw error)))
          close_if_standalone w = (tr, w', r) ->
  Settles body ->
  exists tb wb rb tc rc,
    body w = (tb, wb, rb) /\ close_if_standalone wb = (tc, w', rc)
    /\ tr = tb ++ match rb with Err e => [LogError (msg e)] | _ => [] end ++ tc
    /\ r = match rc with Ok _ => rb | Err e => Err e | Pending => Pending end.
Proof.
  intros E S.
  apply finally_inv in E as (tp & wp & rp & tc & rc & E & Hc & -> & ->);
    [..|exact _].
  apply try_catch_inv in E as [(a & E & ->)|(tb & wb & e & th & E & Hh & ->)];
    [..|exact _].
  - exists tp, wp, (Ok a), tc, rc. simpl. auto.
  - apply rethrow_inv in Hh as (-> & -> & ->).
    exists tb, wb, (Err e), tc, rc. rewrite <- app_assoc. auto.
Qed.

(** The rollback loops: the backward operations are invoked for a prefix of
    the names, in the order of the names. *)
Lemma for_of_rollback names : forall w tr w' r,
  for_of names rollbackSingleMigration w = (tr, w', r) ->
  forward_calls tr = [] /\ pool_ended w' = pool_ended w /\ argv_e w' = argv_e w
  /\ exists k, rolled_back tr = firstn k names
               /\ (r = Ok tt -> rolled_back tr = names).
Proof.
  induction names as [|n names IH]; intros w tr w' r E.
  - inversion E; subst. repeat split; auto. exists 0%nat. auto.
  - simpl in E.
    apply bind_inv in E as [(t1 & w1 & [] & t2 & E1 & E2 & ->)|(e & E1 & ->)];
      [..|exact _];
      apply rollbackSingleMigration_spec in E1 as (Hp & Ha & _ & _ & F1 & Hcase).
    + apply IH in E2 as (F2 & Hp2 & Ha2 & k & Hk & Hall).
      rewrite forward_calls_app, rolled_back_app, F1, F2.
      destruct Hcase as [(_ & _ & _ & _ & e & He & _)|[(m & e & _ & _ & _ & He & _)
                         |(m & Hn & _ & [(-> & _)|(e & He & _)])]]; try discriminate.
      repeat split; try congruence.
      assert (H1 : rolled_back [Log (RollingBack n); Down m None;
                                Query (DeleteByName n); Log (RolledBack n)] = [n])
        by (unfold rolled_back; simpl; rewrite Hn; auto).
      rewrite H1. exists (S k). simpl. split.
      * rewrite Hk. reflexivity.
      * intros Hr. rewrite (Hall Hr). reflexivity.
    + rewrite F1. repeat split; auto.
      destruct Hcase as [(B & _)|[(m & e' & -> & Hn & _)
                         |(m & Hn & _ & [(_ & He & _)|(e' & _ & _ & [-> | ->])])]];
        try discriminate.
      * exists 0%nat. unfold rolled_back. rewrite B. split; [auto|discriminate].
      * exists 1%nat. unfold rolled_back. simpl. rewrite Hn. split; [auto|discriminate].
      * exists 1%nat. unfold rolled_back. simpl. rewrite Hn. split; [auto|discriminate].
      * exists 1%nat. unfold rolled_back. simpl. rewrite Hn. split; [auto|discriminate].
Qed.

Lemma getExecutedMigrations_ok w tb :
  pool_ended w = false -> migrations w = Some tb ->
  getExecutedMigrations w =
    ([Query SelectNamesDesc], w,
     Ok (map migration_name (order_by_executed_at_desc (rows tb)))).
Proof.
  unfold getExecutedMigrations, pool_query, reading. intros -> ->. reflexivity.
Qed.

Lemma length_zero {A} (l : list A) : (List.length l =? 0)%nat = true -> l = [].
Proof. destruct l; simpl; [auto|discriminate]. Qed.

Lemma rollbackAllMigrations_try_inv w tr w' r :
  rollbackAllMigrations_try w = (tr, w', r) ->
  forward_calls tr = [] /\ pool_ended w' = pool_ended w /\ argv_e w' = argv_e w
  /\ exists k,
       rolled_back tr
       = firstn k (map migration_name (order_by_executed_at_desc (ledger w)))
       /\ (r = Ok tt ->
           rolled_back tr = map migration_name (order_by_executed_at_desc (ledger w))).
Proof.
  unfold rollbackAllMigrations_try. intros E.
  apply bind_inv in E as [(t1 & w1 & te & t2 & E1 & E2 & ->)|(e1 & E1 & ->)];
    [..|exact _];
    apply migrationTableExists_spec in E1 as (-> & [(Hp & -> & Hr1)|(Hp & -> & Hr1)]);
    try discriminate.
  2: { repeat split; auto. exists 0%nat. split; [auto|discriminate]. }
  inversion Hr1; subst te; clear Hr1. unfold ledger.
  destruct (migrations w) as [tb|] eqn:Hm; simpl in E2.
  2: { inversion E2; subst. simpl. repeat split; auto. exists 0%nat. auto. }
  rewrite (bind_ok _ _ _ _ _ _ (getExecutedMigrations_ok w tb Hp Hm)) in E2.
  set (names := map migration_name (order_by_executed_at_desc (rows tb))) in *.
  destruct (List.length names =? 0)%nat eqn:Hlen.
  - apply length_zero in Hlen. rewrite Hlen. inversion E2; subst. simpl.
    repeat split; auto. exists 0%nat. auto.
  - destruct (bind (for_of names rollbackSingleMigration) (fun _ => log AllRolledBack) w)
      as [[t3 w3] r3] eqn:E3.
    inversion E2; subst. clear E2.
    apply bind_inv in E3 as [(t4 & w4 & [] & t5 & E4 & E5 & ->)|(e & E4 & ->)];
      [..|exact _];
      apply for_of_rollback in E4 as (F4 & Hp4 & Ha4 & k & Hk & Hall).
    + inversion E5; subst. skip_events.
      rewrite !forward_calls_app, !rolled_back_app, F4. simpl.
      unfold rolled_back at 2 4. simpl. rewrite !app_nil_r.
      repeat split; auto. exists k. auto.
    + skip_events. repeat split; auto. exists k. split; [auto|discriminate].
Qed.

Lemma getLastBatch_ok w tb d :
  pool_ended w = false -> migrations w = Some tb -> batch_column tb = Some d ->
  getLastBatch w =
    ([Query SelectLastBatch], w,
     Ok (map migration_name (order_by_executed_at_desc (last_batch w)))).
Proof.
  unfold getLastBatch, pool_query, reading, last_batch. intros -> -> ->. reflexivity.
Qed.

Lemma getLastBatch_no_column w tb :
  pool_ended w = false -> migrations w = Some tb -> batch_column tb = None ->
  getLastBatch w = ([Query SelectLastBatch], w, Err UndefinedColumn).
Proof.
  unfold getLastBatch, pool_query, reading. intros -> -> ->. reflexivity.
Qed.

Lemma rollbackLastBatch_try_inv w tr w' r :
  rollbackLastBatch_try w = (tr, w', r) ->
  forward_calls tr = [] /\ pool_ended w' = pool_ended w /\ argv_e w' = argv_e w
  /\ exists k,
       rolled_back tr
       = firstn k (map migration_name (order_by_executed_at_desc (last_batch w)))
       /\ (r = Ok tt ->
           rolled_back tr
           = map migration_name (order_by_executed_at_desc (last_batch w))).
Proof.
  unfold rollbackLastBatch_try. intros E.
  apply bind_inv in E as [(t1 & w1 & te & t2 & E1 & E2 & ->)|(e1 & E1 & ->)];
    [..|exact _];
    apply migrationTableExists_spec in E1 as (-> & [(Hp & -> & Hr1)|(Hp & -> & Hr1)]);
    try discriminate.
  2: { repeat split; auto. exists 0%nat. split; [auto|discriminate]. }
  inversion Hr1; subst te; clear Hr1.
  destruct (migrations w) as [tb|] eqn:Hm; simpl in E2.
  2: { inversion E2; subst. simpl. unfold last_batch. rewrite Hm.
       repeat split; auto. exists 0%nat. auto. }
  destruct (batch_column tb) as [d|] eqn:Hcol.
  2: { unfold bind at 1 in E2.
       rewrite (getLastBatch_no_column w tb Hp Hm Hcol) in E2. inversion E2; subst.
       simpl. repeat split; auto. exists 0%nat. split; [auto|discriminate]. }
  rewrite (bind_ok _ _ _ _ _ _ (getLastBatch_ok w tb d Hp Hm Hcol)) in E2.
  set (names := map migration_name (order_by_executed_at_desc (last_batch w))) in *.
  destruct (List.length names =? 0)%nat eqn:Hlen.
  - apply length_zero in Hlen. rewrite Hlen. inversion E2; subst. simpl.
    repeat split; auto. exists 0%nat. auto.
  - destruct (bind (log (RollingBackLastBatch (List.length names)))
                (fun _ => bind (for_of names rollbackSingleMigration)
                            (fun _ => log LastBatchCompleted)) w)
      as [[t3 w3] r3] eqn:E3.
    inversion E2; subst. clear E2.
    unfold bind at 1 in E3. simpl in E3.
    destruct (bind (for_of names rollbackSingleMigration)
                (fun _ => log LastBatchCompleted) w) as [[t6 w6] r6] eqn:E6.
    inversion E3; subst; clear E3.
    apply bind_inv in E6 as [(t4 & w4 & [] & t5 & E4 & E5 & ->)|(e & E4 & ->)];
      [..|exact _];
      apply for_of_rollback in E4 as (F4 & Hp4 & Ha4 & k & Hk & Hall).
    + inversion E5; subst. skip_events.
      rewrite !forward_calls_app, !rolled_back_app, F4. simpl.
      unfold rolled_back at 2 4. simpl. rewrite !app_nil_r.
      repeat split; auto. exists k. auto.
    + skip_events. repeat split; auto. exists k. split; [auto|discriminate].
Qed.

Lemma sql_max_batch_app l1 l2 :
  sql_max_batch (l1 ++ l2) =
    match sql_max_batch l1, sql_max_batch l2 with
    | Some a, Some b => Some (Z.max a b)
    | Some a, None => Some a
    | None, m => m
    end.
Proof.
  induction l1 as [|r l1 IH]; simpl.
  - destruct (sql_max_batch l2); auto.
  - rewrite IH. destruct (batch r), (sql_max_batch l1), (sql_max_batch l2); auto.
    rewrite Z.max_assoc. reflexivity.
Qed.

Lemma sql_max_batch_const l b :
  l <> [] -> Forall (fun row => batch row = Some b) l -> sql_max_batch l = Some b.
Proof.
  induction l as [|r l IH]; [congruence|]. intros _ Hall.
  inversion Hall as [|? ? Hr Hl]; subst. simpl. rewrite Hr.
  destruct l as [|r' l']; [reflexivity|].
  rewrite IH; auto; [|discriminate]. rewrite Z.max_id. reflexivity.
Qed.

Lemma sql_max_batch_ge l r b :
  In r l -> batch r = Some b -> exists m, sql_max_batch l = Some m /\ b <= m.
Proof.
  induction l as [|r0 l IH]; simpl; [tauto|]. intros [->|I] Hb.
  - rewrite Hb. destruct (sql_max_batch l) as [m|]; eexists; split; eauto; lia.
  - destruct (IH I Hb) as (m & -> & Hle).
    destruct (batch r0); eexists; split; eauto; lia.
Qed.

Lemma filter_all {A} (f : A -> bool) l :
  Forall (fun x => f x = true) l -> filter f l = l.
Proof. induction 1 as [|x l Hx _ IH]; simpl; [auto|]. rewrite Hx, IH. auto. Qed.

Lemma filter_none {A} (f : A -> bool) l :
  Forall (fun x => f x = false) l -> filter f l = [].
Proof. induction 1 as [|x l Hx _ IH]; simpl; [auto|]. rewrite Hx, IH. auto. Qed.

(** After a run that applied something, the last batch is what the run
    recorded, and its newest-first order is the reverse of the order of
    application. *)
Lemma run_last_batch (w w1 : World) tr :
  (forall t, t < tick t) ->
  batches_in_range w ->
  runMigrations w = (tr, w1, Ok tt) ->
  newly_applied tr <> [] ->
  map migration_name (order_by_executed_at_desc (last_batch w1))
  = rev (map name (newly_applied tr)).
Proof.
  intros Htick Hrange E Hsome.
  apply runMigrations_inv in E
    as (tp & wp & rp & tc & rc & t0 & w0 & Hc & -> & Hr & Hrel & Hcase).
  pose proof Hrel as (F0 & _).
  apply close_inv in Hc as (Hmc & _ & _ & _ & _ & Fc & _).
  destruct Hcase as [(x & -> & _)|(files & t1 & rl & Hok & Hl & Hcase)];
    [destruct rc; discriminate|].
  destruct Hcase as [(n & cb & -> & -> & ->)|(x & _ & -> & _)];
    [|destruct rc; discriminate].
  assert (Hna : newly_applied ((t0 ++ t1 ++ [Log (if (n =? 0)%nat then NothingToMigrate
                                               else MigrationsCompleted)]) ++ tc)
                = newly_applied t1).
  { rewrite !newly_applied_app. unfold newly_applied at 1 3 4.
    rewrite F0, Fc. simpl. rewrite ?app_nil_r. reflexivity. }
  rewrite Hna in *.
  destruct Hok as (_ & Hex & _).
  destruct (prelude_table _ _ _ Hrel Hrange Hex) as (tb & Htb & Hcol & Hrows & Hmax & Hbnd).
  destruct (loop_rows _ _ _ _ _ _ _ _ Hl Htb Hcol Hbnd)
    as (new & Hm' & Hnames & _ & Hba & Hst).
  simpl in Hba.
  assert (Hnew : new <> []).
  { intros ->. simpl in Hnames. destruct (newly_applied t1); [congruence|discriminate]. }
  assert (Hlast : last_batch w1 = new).
  { unfold last_batch. rewrite Hmc, Hm'. simpl.
    assert (Hmaxall : sql_max_batch (rows tb ++ new) = Some (coalesce_max_batch tb + 1)).
    { rewrite sql_max_batch_app, (sql_max_batch_const _ _ Hnew Hba).
      unfold coalesce_max_batch in *.
      destruct (sql_max_batch (rows tb)) as [m|]; auto. f_equal. lia. }
    rewrite filter_app.
    rewrite (filter_none _ (rows tb)), (filter_all _ new); auto.
    - rewrite Forall_forall in *. intros row I. unfold in_last_batch. simpl.
      rewrite Hmaxall, (Hba row I). apply Z.eqb_refl.
    - rewrite Forall_forall. intros row I. unfold in_last_batch. simpl.
      rewrite Hmaxall. destruct (batch row) as [b|] eqn:Hb; auto.
      destruct (sql_max_batch_ge _ _ _ I Hb) as (m & Hm & Hle).
      unfold coalesce_max_batch. rewrite Hm. apply Z.eqb_neq. lia. }
  rewrite Hlast, (order_by_increasing new), map_rev, Hnames; auto.
  eapply stamps_increasing; eauto.
Qed.

Lemma last_batch_ext (v w : World) :
  migrations v = migrations w -> last_batch v = last_batch w.
Proof. unfold last_batch. intros ->. reflexivity. Qed.

Lemma firstn_incl {A} k (l : list A) x : In x (firstn k l) -> In x l.
Proof.
  intros I. rewrite <- (firstn_skipn k l). apply in_or_app. auto.
Qed.

Lemma firstn_whole {A B} (f : A -> B) k (l : list A) :
  firstn k (map f l) = map f l -> firstn k l = l.
Proof.
  revert k. induction l as [|x l IH]; intros [|k]; simpl; auto; try discriminate.
  intros E. inversion E. f_equal. auto.
Qed.

(** C4.  [rollbackLastBatch] and [rollbackAllMigrations] invoke backward
    operations newest first: the names rolled back are those of a list of rows
    in descending order of [executed_at], drawn from the last batch for the
    first and from the whole ledger, across batches, for the second, and this
    list is all of them when the call returns normally.  When the clock
    advances between inserts, the batch a run has just recorded, for
    migrations applied in the order [A; B; C], is rolled back in the order
    [C; B; A]: a prefix of it if a rollback fails, all of it otherwise. *)
Theorem rollback_newest_first :
  (forall (w w' : World) tr r,
     rollbackLastBatch w = (tr, w', r) ->
     exists rs, rolled_back tr = map migration_name rs /\ newest_first rs
       /\ (forall x, In x rs -> In x (last_batch w))
       /\ (r = Ok tt -> Permutation rs (last_batch w)))
  /\ (forall (w w' : World) tr r,
        rollbackAllMigrations w = (tr, w', r) ->
        exists rs, rolled_back tr = map migration_name rs /\ newest_first rs
          /\ (forall x, In x rs -> In x (ledger w))
          /\ (r = Ok tt -> Permutation rs (ledger w)))
  /\ (forall (w w1 v v' : World) tr tr' r',
        (forall t, t < tick t) ->
        batches_in_range w ->
        runMigrations w = (tr, w1, Ok tt) ->
        newly_applied tr <> [] ->
        migrations v = migrations w1 ->
        rollbackLastBatch v = (tr', v', r') ->
        (exists k, rolled_back tr' = firstn k (rev (map name (newly_applied tr))))
        /\ (r' = Ok tt -> rolled_back tr' = rev (map name (newly_applied tr)))).
Proof.
  assert (Hlast : forall (w w' : World) tr r,
    rollbackLastBatch w = (tr, w', r) ->
    exists k,
      rolled_back tr
      = firstn k (map migration_name (order_by_executed_at_desc (last_batch w)))
      /\ (r = Ok tt ->
          rolled_back tr = map migration_name (order_by_executed_at_desc (last_batch w)))).
  { intros w w' tr r E. unfold rollbackLastBatch in E.
    apply entry_inv in E as (tb & wb & rb & tc & rc & Eb & Hc & -> & ->);
      [..|exact _].
    apply close_inv in Hc as (_ & _ & _ & _ & _ & _ & Bc & _).
    apply rollbackLastBatch_try_inv in Eb as (_ & _ & _ & k & Hk & Hall).
    assert (Hrb : rolled_back (tb ++ match rb with
                                     | Err e => [LogError (LastBatchFailed e)]
                                     | _ => []
                                     end ++ tc) = rolled_back tb).
    { rewrite !rolled_back_app. unfold rolled_back at 2 3. rewrite Bc.
      destruct rb; simpl; rewrite app_nil_r; auto. }
    rewrite Hrb. exists k. split; auto.
    intros Hr. apply Hall. destruct rc; [auto|discriminate..]. }
  assert (Hall : forall (w w' : World) tr r,
    rollbackAllMigrations w = (tr, w', r) ->
    exists k,
      rolled_back tr
      = firstn k (map migration_name (order_by_executed_at_desc (ledger w)))
      /\ (r = Ok tt ->
          rolled_back tr = map migration_name (order_by_executed_at_desc (ledger w)))).
  { intros w w' tr r E. unfold rollbackAllMigrations in E.
    apply bind_inv in E as [(t1 & w1 & [] & t2 & E1 & E & ->)|(e & E1 & _)];
      [..|exact _];
      [|discriminate].
    inversion E1; subst; clear E1.
    apply entry_inv in E as (tb & wb & rb & tc & rc & Eb & Hc & -> & ->);
      [..|exact _].
    apply close_inv in Hc as (_ & _ & _ & _ & _ & _ & Bc & _).
    apply rollbackAllMigrations_try_inv in Eb as (_ & _ & _ & k & Hk & Hall).
    assert (Hrb : rolled_back ([Log RollingBackAll] ++ tb ++ match rb with
                                     | Err e => [LogError (RollbackAllFailed e)]
                                     | _ => []
                                     end ++ tc) = rolled_back tb).
    { rewrite !rolled_back_app. unfold rolled_back at 1 3 4. rewrite Bc.
      destruct rb; simpl; rewrite app_nil_r; auto. }
    rewrite Hrb. exists k. split; auto.
    intros Hr. apply Hall. destruct rc; [auto|discriminate..]. }
  assert (Hshape : forall (l : list Row) names k,
    names = firstn k (map migration_name (order_by_executed_at_desc l)) ->
    forall (full : Prop),
    (full -> names = map migration_name (order_by_executed_at_desc l)) ->
    exists rs, names = map migration_name rs /\ newest_first rs
      /\ (forall x, In x rs -> In x l) /\ (full -> Permutation rs l)).
  { intros l names k Hk full Hfull.
    exists (firstn k (order_by_executed_at_desc l)).
    rewrite Hk, firstn_map. split; [reflexivity|]. split; [|split].
    - apply newest_first_firstn, order_by_sorted.
    - intros x I. apply firstn_incl in I.
      eapply Permutation_in; [symmetry; apply order_by_perm|exact I].
    - intros Hf. specialize (Hfull Hf). rewrite Hk in Hfull.
      apply firstn_whole in Hfull. rewrite Hfull. symmetry. apply order_by_perm. }
  split; [|split].
  - intros w w' tr r E. destruct (Hlast _ _ _ _ E) as (k & Hk & Hfull).
    eapply Hshape; eauto.
  - intros w w' tr r E. destruct (Hall _ _ _ _ E) as (k & Hk & Hfull).
    eapply Hshape; eauto.
  - intros w w1 v v' tr tr' r' Htick Hrange Erun Hsome Hv E.
    destruct (Hlast _ _ _ _ E) as (k & Hk & Hfull).
    rewrite (last_batch_ext _ _ Hv) in *.
    rewrite (run_last_batch _ _ _ Htick Hrange Erun Hsome) in *.
    split; eauto.
Qed.


(** ** Discovery *)

Lemma insert_sorted_in x l y : In y (insert_sorted x l) <-> y = x \/ In y l.
Proof.
  induction l as [|z l IH]; simpl.
  - intuition.
  - destruct (String.leb x z); simpl; rewrite ?IH; intuition.
Qed.

Lemma js_sort_in l y : In y (js_sort l) <-> In y l.
Proof.
  induction l as [|x l IH]; simpl; [tauto|].
  rewrite insert_sorted_in, IH. intuition.
Qed.

Lemma listed_files_in entries f :
  In f (listed_files entries) <->
  In f (map entry_name entries) /\ (endsWith f ".ts" || endsWith f ".js") = true.
Proof. unfold listed_files. rewrite js_sort_in, filter_In. tauto. Qed.

Lemma parse_all_fails files f :
  In f files -> match_filename f = None ->
  exists g, parse_all files = Err (InvalidFilename g)
            /\ In g files /\ match_filename g = None.
Proof.
  induction files as [|f0 files IH]; simpl; [tauto|]. intros I Hf.
  unfold parse_filename. destruct (match_filename f0) as [[ts nm]|] eqn:H0.
  - destruct I as [->|I]; [congruence|].
    destruct (IH I Hf) as (g & -> & Ig & Hg). eauto.
  - eauto.
Qed.

Lemma parse_all_succeeds files :
  (forall f, In f files -> match_filename f <> None) ->
  exists ms, parse_all files = Ok ms /\ map filename ms = files.
Proof.
  induction files as [|f files IH]; simpl; intros Hall.
  - exists []. auto.
  - unfold parse_filename.
    destruct (match_filename f) as [[ts nm]|] eqn:Hf;
      [|exfalso; apply (Hall f); auto].
    destruct IH as (ms & -> & Hms); [intros g I; apply Hall; auto|].
    eexists; split; eauto. simpl. rewrite Hms. reflexivity.
Qed.

(** C5, as amended.  Among the entries of the directory whose names end in
    [.ts] or [.js]: if one of them fails the expression
    [^(\d{8}T\d{6})_(.+)\.(ts|js)$], [getMigrationFiles] raises "Invalid
    migration filename format" for such an entry and yields no definition at
    all; if none does, it yields one definition per such entry, in sorted
    order.  Entries with another ending are skipped and make nothing fail. *)
Theorem getMigrationFiles_all_or_nothing (w : World) entries :
  directory w = Some entries ->
  ((exists f, In f (map entry_name entries)
              /\ (endsWith f ".ts" || endsWith f ".js") = true
              /\ match_filename f = None) ->
   exists g, getMigrationFiles w = ([], w, Err (InvalidFilename g))
             /\ In g (map entry_name entries) /\ match_filename g = None)
  /\ ((forall f, In f (map entry_name entries) ->
                 (endsWith f ".ts" || endsWith f ".js") = true ->
                 match_filename f <> None) ->
      exists ms, getMigrationFiles w = ([], w, Ok ms)
                 /\ map filename ms = listed_files entries).
Proof.
  intros Hd. unfold getMigrationFiles. rewrite Hd. split.
  - intros (f & If & Hext & Hf).
    destruct (parse_all_fails (listed_files entries) f) as (g & -> & Ig & Hg); auto.
    + apply listed_files_in. auto.
    + exists g. apply listed_files_in in Ig as (Ig & _). auto.
  - intros Hall.
    destruct (parse_all_succeeds (listed_files entries)) as (ms & -> & Hms).
    + intros f I. apply listed_files_in in I as (I & Hext). auto.
    + eauto.
Qed.

(** ** Rolling back one migration *)

Lemma isApplied_without (w : World) tb n :
  migrations w = Some (without n tb) -> isApplied n w = false.
Proof.
  unfold isApplied, ledger, without. intros ->. simpl.
  induction (rows tb) as [|r rs IH]; simpl; auto.
  destruct (migration_name r =? n)%string eqn:E; simpl; auto.
  rewrite E. auto.
Qed.

(** Once the backward operation has completed, a live pool and an existing
    table leave the delete statement nothing to fail on. *)
Lemma rollbackSingleMigration_completed (w w' : World) n tr r m tb :
  rollbackSingleMigration n w = (tr, w', r) ->
  In (Down m None) tr ->
  pool_ended w = false -> migrations w = Some tb ->
  r = Ok tt /\ migrations w' = Some (without n tb)
  /\ tr = [Log (RollingBack n); Down m None; Query (DeleteByName n); Log (RolledBack n)].
Proof.
  unfold rollbackSingleMigration, getMigrationFiles, require_class, invoke_down,
    removeMigrationRecord, pool_query, writing, bind, log, emit, throw, without.
  intros E Hin Hp Hm.
  destruct (directory w) as [es|] eqn:Hd; simpl in E;
    [|inversion E; subst; simpl in Hin; intuition discriminate].
  destruct (parse_all (listed_files es)) as [files|e0|]; simpl in E;
    [|inversion E; subst; simpl in Hin; intuition discriminate..].
  destruct (find (fun m => (name m =? n)%string) files) as [m0|]; simpl in E;
    [|inversion E; subst; simpl in Hin; intuition discriminate].
  rewrite Hd in E.
  destruct (find (fun e => (entry_name e =? filename m0)%string) es) as [en|];
    simpl in E; [|inversion E; subst; simpl in Hin; intuition discriminate].
  destruct (exports en) as [ops|]; simpl in E;
    [|inversion E; subst; simpl in Hin; intuition discriminate].
  destruct (down ops (app w)) as [a [e|]]; simpl in E;
    [inversion E; subst; simpl in Hin; intuition discriminate|].
  rewrite Hp in E. simpl in E. rewrite Hm in E. simpl in E.
  inversion E; subst. simpl in Hin.
  destruct Hin as [I|[I|[I|[I|[]]]]]; try discriminate. inversion I; subst. auto.
Qed.

(** C8.  [rollbackSingleMigration] on an applied migration: if the backward
    operation raises [e], the call fails with [e] and the ledger still holds
    the record; the record is gone afterwards only when the trace is the
    successful backward call followed by the delete statement; when the call
    returns normally the record is gone; and once the backward operation has
    completed, with a live pool, the call returns normally and the table is
    what it was without the rows of that name. *)
Theorem rollbackSingleMigration_record (w w' : World) n tr r :
  isApplied n w = true ->
  rollbackSingleMigration n w = (tr, w', r) ->
  (forall m e, In (Down m (Some e)) tr ->
     r = Err (OperationFailed e) /\ migrations w' = migrations w
     /\ isApplied n w' = true)
  /\ (isApplied n w' = false ->
      r = Ok tt
      /\ exists m, tr = [Log (RollingBack n); Down m None;
                         Query (DeleteByName n); Log (RolledBack n)])
  /\ (r = Ok tt -> isApplied n w' = false)
  /\ (forall m, In (Down m None) tr -> pool_ended w = false ->
        r = Ok tt /\ isApplied n w' = false
        /\ exists tb, migrations w = Some tb /\ migrations w' = Some (without n tb)).
Proof.
  intros Hap E.
  assert (Hdone : forall m, In (Down m None) tr -> pool_ended w = false ->
            r = Ok tt /\ isApplied n w' = false
            /\ exists tb, migrations w = Some tb /\ migrations w' = Some (without n tb)).
  { intros m I Hp. destruct (migrations w) as [tb|] eqn:Hm.
    - destruct (rollbackSingleMigration_completed _ _ _ _ _ _ _ E I Hp Hm)
        as (-> & Hw' & _).
      split; [reflexivity|]. split; [eapply isApplied_without; eauto|eauto].
    - unfold isApplied, ledger in Hap. rewrite Hm in Hap. discriminate. }
  apply rollbackSingleMigration_spec in E as (_ & _ & _ & _ & _ & Hcase).
  destruct Hcase as [(B & _ & Hm & _ & e & -> & _)
                    |[(m & e & -> & _ & _ & -> & Hm)
                     |(m & _ & _ & [(-> & -> & _ & tb & Htb & Hw')
                                   |(e & -> & Hm & Ht)])]].
  - split; [|split; [|split]]; try discriminate; auto.
    + intros m x I. apply in_backward_calls in I. rewrite B in I. contradiction.
    + rewrite (isApplied_ext _ _ _ Hm). congruence.
  - split; [|split; [|split]]; try discriminate; auto.
    + intros m' x [I|[I|[]]]; inversion I; subst.
      rewrite (isApplied_ext _ _ _ Hm). auto.
    + rewrite (isApplied_ext _ _ _ Hm). congruence.
  - split; [|split; [|split]]; auto.
    + intros m' x [I|[I|[I|[I|[]]]]]; discriminate.
    + eauto.
    + intros _. eapply isApplied_without; eauto.
  - split; [|split; [|split]]; try discriminate; auto.
    + intros m' x I. destruct Ht as [-> | ->]; simpl in I; intuition discriminate.
    + rewrite (isApplied_ext _ _ _ Hm). congruence.
Qed.

Lemma executed_names_unapplied (w : World) tb n :
  migrations w = Some tb -> isApplied n w = false ->
  existsb (String.eqb n) (map migration_name (order_by_executed_at_desc (rows tb)))
  = false.
Proof.
  intros Hm Hap. unfold isApplied, ledger in Hap. rewrite Hm in Hap.
  destruct (existsb _ (map _ _)) eqn:Hex; auto.
  apply existsb_exists in Hex as (x & Ix & Hx). apply String.eqb_eq in Hx. subst x.
  apply in_map_iff in Ix as (row & Hrow & Irow).
  apply (Permutation_in _ (Permutation_sym (order_by_perm (rows tb)))) in Irow.
  assert (existsb (fun r => (migration_name r =? n)%string) (rows tb) = true);
    [|congruence].
  apply existsb_exists. exists row. split; auto. apply String.eqb_eq. auto.
Qed.

(** C7, as amended.  For a name without a record in an existing ledger table,
    [rollbackSpecificMigration], in a process that was not started with [-e],
    logs that the migration was not executed or not found and returns
    normally, having sent two queries, invoked no backward operation and
    changed nothing.  The primitive [rollbackSingleMigration] does not consult
    the ledger.  Where discovery succeeds, it raises "Migration not found"
    exactly when no discovered definition bears the name.  Otherwise it loads
    the module of the first discovered definition of that name: if the module
    exports no migration class (or is gone) it fails with that error and
    invokes nothing; if it exports one, it invokes the backward operation of
    that definition and no other. *)
Theorem rollback_of_unrecorded_name (w : World) n :
  isApplied n w = false ->
  (pool_ended w = false -> argv_e w = false -> migrations w <> None ->
   rollbackSpecificMigration n w
   = ([Query SelectTableExists; Query SelectNamesDesc; Log (NotExecutedOrNotFound n)],
      w, Ok tt))
  /\ (forall tr w' r files,
        rollbackSingleMigration n w = (tr, w', r) ->
        discovered (directory w) = Ok files ->
        match find (fun m => String.eqb (name m) n) files with
        | None => r = Err (MigrationNotFound n) /\ backward_calls tr = []
        | Some m =>
            In m files /\ name m = n
            /\ r <> Err (MigrationNotFound n)
            /\ (forall ops, require_class (filename m) w = ([], w, Ok ops) ->
                  backward_calls tr = [(m, snd (down ops (app w)))])
            /\ (forall e, require_class (filename m) w = ([], w, Err e) ->
                  r = Err e /\ backward_calls tr = [])
        end).
Proof.
  intros Hap. split.
  - intros Hp Harg Hex. destruct (migrations w) as [tb|] eqn:Hm; [|congruence].
    unfold rollbackSpecificMigration, rollbackSpecificMigration_try, finally, try_catch.
    unfold migrationTableExists, pool_query, bind at 1. rewrite Hp, Hm. simpl.
    rewrite (bind_ok _ _ _ _ _ _ (getExecutedMigrations_ok w tb Hp Hm)).
    rewrite (executed_names_unapplied w tb n Hm Hap). simpl.
    unfold close_if_standalone, ret. rewrite Harg. reflexivity.
  - intros tr w' r files E Hdisc.
    unfold rollbackSingleMigration, bind, log, emit, throw, getMigrationFiles,
      discovered in *.
    destruct (directory w) as [es|] eqn:Hd.
    2: { inversion Hdisc; subst files. simpl in E. inversion E; subst tr w' r.
         simpl. auto. }
    rewrite Hdisc in E. cbv beta iota zeta in E.
    destruct (find (fun m => (name m =? n)%string) files) as [m|] eqn:Hfind.
    + pose proof (find_some _ _ Hfind) as (Im & Hn). apply String.eqb_eq in Hn.
      split; [exact Im|]. split; [exact Hn|]. split; [|split].
      * destruct (require_class (filename m) w) as [[t2 w2] [ops|e2|]] eqn:Hreq;
          cbv beta iota zeta in E.
        -- unfold invoke_down in E.
           destruct (down ops (app w2)) as [a [e|]]; cbv beta iota zeta in E.
           ++ inversion E; discriminate.
           ++ destruct (removeMigrationRecord n (set_app w2 a)) as [[t3 w3] r3] eqn:E3.
              unfold removeMigrationRecord, pool_query, writing in E3.
              destruct (pool_ended (set_app w2 a)), (migrations (set_app w2 a));
                inversion E3; subst t3 w3 r3; inversion E; discriminate.
        -- unfold require_class in Hreq. rewrite Hd in Hreq.
           destruct (find _ es) as [en|]; [destruct (exports en)|];
             inversion Hreq; subst; inversion E; discriminate.
        -- inversion E; discriminate.
      * intros ops Hreq. rewrite Hreq in E. cbv beta iota zeta in E.
        unfold invoke_down in E.
        destruct (down ops (app w)) as [a [e|]]; cbv beta iota zeta in E.
        -- inversion E; subst tr w' r. reflexivity.
        -- destruct (removeMigrationRecord n (set_app w a)) as [[t3 w3] r3] eqn:E3.
           assert (B3 : backward_calls t3 = []).
           { unfold removeMigrationRecord, pool_query, writing in E3.
             destruct (pool_ended (set_app w a)), (migrations (set_app w a));
               inversion E3; reflexivity. }
           destruct r3 as [[]|e3|]; inversion E; subst tr w' r;
             simpl; rewrite ?backward_calls_app, B3; reflexivity.
      * intros e Hreq. rewrite Hreq in E. cbv beta iota zeta in E.
        inversion E; subst tr w' r. auto.
    + cbv beta iota zeta in E. inversion E; subst tr w' r. auto.
Qed.

(** ** Refresh *)

Lemma effects_app t1 t2 : effects (t1 ++ t2) = effects t1 ++ effects t2.
Proof. unfold effects. apply filter_app. Qed.

Lemma rollbackAllMigrations_no_forward (w w' : World) tr r :
  rollbackAllMigrations w = (tr, w', r) -> forward_calls tr = [].
Proof.
  unfold rollbackAllMigrations. intros E.
  apply bind_inv in E as [(t1 & w1 & [] & t2 & E1 & E & ->)|(e & E1 & _)];
    [..|exact _];
    [|discriminate].
  inversion E1; subst; clear E1.
  apply entry_inv in E as (tb & wb & rb & tc & rc & Eb & Hc & -> & ->);
    [..|exact _].
  apply close_inv in Hc as (_ & _ & _ & _ & _ & Fc & _).
  apply rollbackAllMigrations_try_inv in Eb as (Fb & _).
  rewrite !forward_calls_app, Fb, Fc. destruct rb; reflexivity.
Qed.

(** C9.  [refreshMigrations] does what [rollbackAllMigrations] followed by
    [runMigrations] does: same final world, same result and, console output
    aside, the same trace.  If the rollback of everything fails, the refresh
    fails with the same exception in the world the rollback left, adds no
    effect of its own, and invokes no forward operation. *)
Theorem refreshMigrations_refines :
  (forall (w w' : World) tr r,
     refreshMigrations w = (tr, w', r) ->
     exists tr2, refresh_as_specified w = (tr2, w', r) /\ effects tr = effects tr2)
  /\ (forall (w w' : World) tr e,
        rollbackAllMigrations w = (tr, w', Err e) ->
        exists tr', refreshMigrations w = (tr', w', Err e)
                    /\ effects tr' = effects tr
                    /\ forward_calls tr' = []).
Proof.
  split.
  - intros w w' tr r.
    unfold refreshMigrations, refreshMigrations_try, refresh_as_specified,
      bind, try_catch, log, log_error, emit, throw.
    destruct (rollbackAllMigrations w) as [[ta wa] [[]|ea|]].
    + destruct (runMigrations wa) as [[tb wb] [[]|eb|]];
        intros E; inversion E; subst; (eexists; split; [reflexivity|]);
        repeat (rewrite ?effects_app; simpl); rewrite ?app_nil_r; reflexivity.
    + intros E; inversion E; subst. eexists; split; [reflexivity|].
      repeat (rewrite ?effects_app; simpl); rewrite ?app_nil_r; reflexivity.
    + intros E; inversion E; subst. eexists; split; [reflexivity|].
      repeat (rewrite ?effects_app; simpl); rewrite ?app_nil_r; reflexivity.
  - intros w w' tr e E.
    pose proof (rollbackAllMigrations_no_forward _ _ _ _ E) as F.
    unfold refreshMigrations, refreshMigrations_try,
      bind, try_catch, log, log_error, emit, throw.
    rewrite E. eexists; split; [reflexivity|]. split.
    + repeat (rewrite ?effects_app; simpl); rewrite ?app_nil_r; reflexivity.
    + simpl. rewrite !forward_calls_app, F. reflexivity.
Qed.

(** ** The columns of an existing table *)

(** [runMigrations] leaves the columns of a table that exists as they are: it
    adds rows at most. *)
Lemma runMigrations_keeps_columns (w w' : World) tb tr r :
  migrations w = Some tb ->
  runMigrations w = (tr, w', r) ->
  exists new,
    migrations w'
    = Some {| batch_column := batch_column tb; rows := rows tb ++ new |}.
Proof.
  intros Htb E.
  apply runMigrations_inv in E
    as (tp & wp & rp & tc & rc & t0 & w0 & Hc & _ & _ & Hrel & Hcase).
  apply close_inv in Hc as (Hmc & _).
  destruct Hrel as (_ & _ & _ & _ & _ & _ & _ & _ & [Hm0|(Hm0 & _)]); [|congruence].
  rewrite Hmc.
  destruct Hcase as [(x & _ & -> & _)|(files & t1 & rl & _ & Hl & _)].
  - exists []. rewrite Hm0, Htb, app_nil_r. destruct tb; reflexivity.
  - pose proof (loop_frame _ _ _ _ _ _ _ Hl) as (_ & _ & _ & _ & _ & Hsome & _).
    apply Hsome. congruence.
Qed.

(** ** Without the ledger table *)

Lemma runMigrations_creates_table (w w' : World) tr r :
  pool_ended w = false -> runMigrations w = (tr, w', r) -> migrations w' <> None.
Proof.
  intros Hp E.
  apply runMigrations_inv in E
    as (tp & wp & rp & tc & rc & t0 & w0 & Hc & _ & _ & Hrel & Hcase).
  apply close_inv in Hc as (Hmc & _).
  rewrite Hmc.
  destruct Hcase as [(x & _ & -> & _ & Hcr)|(files & t1 & rl & Hok & Hl & _)]; auto.
  destruct Hok as (_ & Hex & _).
  pose proof (loop_frame _ _ _ _ _ _ _ Hl) as (_ & _ & _ & _ & _ & Hsome & _).
  destruct (migrations w0) as [tb|]; [|congruence].
  destruct (Hsome tb eq_refl) as (new & ->). discriminate.
Qed.

(** C10.  While the ledger table does not exist and the pool is live, in a
    process that was not started with [-e], each of [rollbackLastBatch],
    [rollbackSteps], [rollbackAllMigrations], [rollbackSpecificMigration] and
    [showMigrationStatus] returns normally, sends the database only the
    question whether the table exists, invokes no forward or backward
    operation, and leaves database, directory and clock as they were;
    [runMigrations] is the one that leaves a table behind. *)
Theorem no_table_no_effect (w : World) :
  migrations w = None -> pool_ended w = false -> argv_e w = false ->
  leaves_untouched rollbackLastBatch w
  /\ (forall steps, leaves_untouched (rollbackSteps steps) w)
  /\ leaves_untouched rollbackAllMigrations w
  /\ (forall n, leaves_untouched (rollbackSpecificMigration n) w)
  /\ leaves_untouched showMigrationStatus w
  /\ (forall tr w' r, runMigrations w = (tr, w', r) -> migrations w' <> None).
Proof.
  intros Hm Hp Harg. repeat split.
  - unfold rollbackLastBatch, rollbackLastBatch_try. without_table Hp Harg Hm.
  - intros steps. unfold rollbackSteps, rollbackSteps_try. without_table Hp Harg Hm.
  - unfold rollbackAllMigrations, rollbackAllMigrations_try. without_table Hp Harg Hm.
  - intros n. unfold rollbackSpecificMigration, rollbackSpecificMigration_try.
    without_table Hp Harg Hm.
  - unfold showMigrationStatus, showMigrationStatus_try. without_table Hp Harg Hm.
  - intros tr w' r E. eapply runMigrations_creates_table; eauto.
Qed.


(** * Further properties of the engine *)

(** ** The order of a run *)

Lemma string_leb_trans a b c :
  String.leb a b = true -> String.leb b c = true -> String.leb a c = true.
Proof.
  unfold String.leb. revert b c.
  induction a as [|x a IH]; intros [|y b] [|z c]; simpl; auto; try discriminate.
  unfold Ascii.compare.
  destruct (N.compare_spec (N_of_ascii x) (N_of_ascii y)) as [Exy|Lxy|Gxy];
    destruct (N.compare_spec (N_of_ascii y) (N_of_ascii z)) as [Eyz|Lyz|Gyz];
    try discriminate; intros H1 H2.
  - rewrite Exy, Eyz, N.compare_refl. eauto.
  - rewrite Exy. apply N.compare_lt_iff in Lyz. rewrite Lyz. auto.
  - rewrite <- Eyz. apply N.compare_lt_iff in Lxy. rewrite Lxy. auto.
  - assert (L : (N_of_ascii x < N_of_ascii z)%N) by (eapply N.lt_trans; eauto).
    apply N.compare_lt_iff in L. rewrite L. auto.
Qed.

Lemma insert_sorted_ascending x l : ascending l -> ascending (insert_sorted x l).
Proof.
  unfold ascending. induction 1 as [|y l Hs IH Hy]; simpl.
  - repeat constructor.
  - destruct (String.leb x y) eqn:L.
    + constructor; [constructor; auto|]. constructor; auto.
      rewrite Forall_forall in *. intros z I.
      eapply string_leb_trans; eauto.
    + constructor; auto. rewrite Forall_forall in *. intros z I.
      apply insert_sorted_in in I as [->|I]; auto.
      destruct (String.leb_total x y) as [C|C]; congruence.
Qed.

Lemma js_sort_ascending l : ascending (js_sort l).
Proof.
  induction l; simpl; [constructor|]. apply insert_sorted_ascending; auto.
Qed.

Lemma parse_all_ok files ms :
  parse_all files = Ok ms ->
  map filename ms = files
  /\ Forall (fun m => match_filename (filename m) = Some (timestamp m, name m)) ms.
Proof.
  revert ms. induction files as [|f files IH]; simpl; intros ms E.
  - inversion E. auto.
  - unfold parse_filename in E.
    destruct (match_filename f) as [[ts nm]|] eqn:Hf; [|discriminate].
    destruct (parse_all files) as [ms'| |]; [|discriminate..].
    inversion E; subst. destruct (IH ms' eq_refl) as (Hm & Hall).
    simpl. rewrite Hm. split; auto.
Qed.

Lemma discovered_ascending (d : option (list Entry)) files :
  discovered d = Ok files -> ascending (map filename files).
Proof.
  destruct d as [es|]; simpl; intros E.
  - apply parse_all_ok in E as (-> & _). apply js_sort_ascending.
  - inversion E. constructor.
Qed.

Lemma loop_order files : forall n cb w tr w' r,
  runMigrations_loop files n cb w = (tr, w', r) ->
  ascending (map filename files) ->
  ascending (forward_files tr)
  /\ forall c, In c (forward_calls tr) -> In (fst c) files.
Proof.
  unfold forward_files, ascending.
  induction files as [|m0 rest IH]; intros n cb w tr w' r E Hs.
  - inversion E; subst. simpl. split; [constructor|tauto].
  - simpl in Hs. inversion Hs as [|? ? Hs' Hhd]; subst.
    apply loop_cons in E
      as [(Hap & t1 & t2 & -> & F1 & B1 & S1 & E2)
         |[(Hap & t1 & t2 & w1 & b & tb & v & -> & F1 & B1 & E2 & _)
          |(x & -> & _ & _ & _ & _ & _ & _ & Hcase)]].
    + rewrite forward_calls_app, F1. simpl.
      destruct (IH _ _ _ _ _ _ E2 Hs') as (Ha & Hin). split; [exact Ha|].
      intros c I. right. auto.
    + rewrite forward_calls_app, F1. simpl.
      destruct (IH _ _ _ _ _ _ E2 Hs') as (Ha & Hin). split.
      * constructor; auto. rewrite Forall_forall in *. intros f I.
        apply in_map_iff in I as (c & <- & Ic). apply Hhd.
        apply in_map. auto.
      * intros c [<-|I]; simpl; auto.
    + destruct Hcase as [(y & _ & -> & _)|[(-> & _)|(-> & _)]]; simpl;
        (split; [repeat constructor|]); intros c I; simpl in I;
        try tauto; destruct I as [<-|[]]; simpl; auto.
Qed.

(** X1.  [runMigrations] invokes forward operations in ascending order of
    file name, whatever order the directory listed the files in, and only on
    files that discovery returned. *)
Theorem runMigrations_in_order (w w' : World) tr r :
  runMigrations w = (tr, w', r) ->
  ascending (forward_files tr)
  /\ forall files, discovered (directory w) = Ok files ->
       forall c, In c (forward_calls tr) -> In (fst c) files.
Proof.
  intros E.
  apply runMigrations_inv in E
    as (tp & wp & rp & tc & rc & t0 & w0 & Hc & -> & _ & Hrel & Hcase).
  pose proof Hrel as (F0 & _).
  apply close_inv in Hc as (_ & _ & _ & _ & _ & Fc & _).
  unfold forward_files. rewrite forward_calls_app, Fc, app_nil_r.
  destruct Hcase as [(x & _ & _ & -> & _)|(files & t1 & rl & Hok & Hl & Hcase)].
  - rewrite forward_calls_app, F0. simpl. split; [constructor|tauto].
  - assert (Hf : forward_calls tp = forward_calls t1).
    { destruct Hcase as [(n & cb & _ & _ & ->)|(x & _ & _ & ->)];
        rewrite !forward_calls_app, F0; simpl; rewrite app_nil_r; auto. }
    rewrite Hf. destruct Hok as (_ & _ & _ & Hdisc & _).
    destruct (loop_order _ _ _ _ _ _ _ Hl (discovered_ascending _ _ Hdisc))
      as (Ha & Hin).
    split; auto. intros files' Hd'. rewrite Hdisc in Hd'. inversion Hd'; subst. auto.
Qed.

(** ** What a run applies and what it records *)

Lemma loop_calls_unrecorded files : forall n cb w tr w' r,
  runMigrations_loop files n cb w = (tr, w', r) ->
  forall c, In c (forward_calls tr) -> isApplied (name (fst c)) w = false.
Proof.
  induction files as [|m rest IH]; intros n cb w tr w' r E c Ic.
  - inversion E; subst. contradiction.
  - simpl in E.
    apply bind_inv in E as [(t1 & w1 & was & t2 & E1 & E2 & ->)|(e & E1 & ->)];
      [..|exact _];
      apply executeMigration_spec in E1 as (Hm & _ & _ & _ & _ & _ & _ & Hc).
    + rewrite forward_calls_app in Ic.
      destruct Hc as [(Hr & Hf & _)|[(Hr & Hf & Hap & _)|[(e & Hr & _)|(e & Hr & _)]]];
        try discriminate; inversion Hr; subst was; rewrite Hf in Ic; simpl in Ic.
      * rewrite <- (isApplied_ext _ _ _ Hm). eauto.
      * destruct Ic as [<-|Ic]; [exact Hap|].
        apply bind_inv in E2 as [(t3 & w3 & b & t4 & E3 & E4 & ->)|(e & E3 & ->)];
          [..|exact _].
        -- assert (w3 = w1 /\ forward_calls t3 = []) as (-> & F3).
           { destruct cb; [inversion E3; auto|].
             apply getNextBatchNumber_spec in E3 as (? & ? & _). auto. }
           rewrite forward_calls_app, F3 in Ic. simpl in Ic.
           apply bind_inv in E4 as [(t5 & w5 & [] & t6 & E5 & E6 & ->)|(e & E5 & ->)];
             [..|exact _];
             apply markMigrationExecuted_spec in E5
               as (F5 & _ & _ & _ & _ & _ & _ & _ & Hok).
           ++ rewrite forward_calls_app, F5 in Ic. simpl in Ic.
              pose proof (IH _ _ _ _ _ _ E6 c Ic) as Hc5.
              destruct (Hok eq_refl) as (tb & v & Htb & Hw5 & _).
              rewrite <- (isApplied_ext _ _ _ Hm).
              destruct (has_name (name m) tb).
              ** rewrite <- Htb in Hw5. rewrite <- (isApplied_ext _ _ _ Hw5). auto.
              ** rewrite (isApplied_add_row _ _ _ _ _ Htb Hw5) in Hc5.
                 apply orb_false_elim in Hc5 as (? & _). auto.
           ++ rewrite F5 in Ic. contradiction.
        -- assert (forward_calls t2 = []) as F3.
           { destruct cb; [discriminate|].
             apply getNextBatchNumber_spec in E3 as (? & ? & _). auto. }
           rewrite F3 in Ic. contradiction.
    + destruct Hc as [(Hr & _)|[(Hr & _)|[(x & _ & Hf & Hap & _)|(x & _ & Hf & _)]]];
        try discriminate; rewrite Hf in Ic; simpl in Ic; try contradiction.
      destruct Ic as [<-|[]]. exact Hap.
Qed.

(** X2.  [runMigrations] never invokes the forward operation of a migration
    whose name the ledger recorded when the run started. *)
Theorem runMigrations_skips_recorded (w w' : World) tr r :
  runMigrations w = (tr, w', r) ->
  forall m raised, In (Up m raised) tr -> isApplied (name m) w = false.
Proof.
  intros E m raised Hin. apply in_forward_calls in Hin.
  apply runMigrations_inv in E
    as (tp & wp & rp & tc & rc & t0 & w0 & Hc & -> & _ & Hrel & Hcase).
  pose proof Hrel as (F0 & _).
  apply close_inv in Hc as (_ & _ & _ & _ & _ & Fc & _).
  rewrite forward_calls_app, Fc, app_nil_r in Hin.
  destruct Hcase as [(x & _ & _ & -> & _)|(files & t1 & rl & Hok & Hl & Hcase)].
  - rewrite forward_calls_app, F0 in Hin. simpl in Hin. contradiction.
  - assert (Hf : forward_calls tp = forward_calls t1).
    { destruct Hcase as [(n & cb & _ & _ & ->)|(x & _ & _ & ->)];
        rewrite !forward_calls_app, F0; simpl; rewrite app_nil_r; auto. }
    rewrite Hf in Hin.
    eapply prelude_isApplied; eauto.
    apply (loop_calls_unrecorded _ _ _ _ _ _ _ Hl (m, raised) Hin).
Qed.

(** X3.  After a run of [runMigrations] that returned normally, every
    discovered migration has a record in the ledger. *)
Theorem runMigrations_records_all (w w' : World) tr files :
  runMigrations w = (tr, w', Ok tt) ->
  discovered (directory w) = Ok files ->
  forall f, In f files -> isApplied (name f) w' = true.
Proof.
  intros E Hd f I.
  apply runMigrations_inv in E
    as (tp & wp & rp & tc & rc & t0 & w0 & Hc & _ & Hr & Hrel & Hcase).
  apply close_inv in Hc as (Hmc & _).
  rewrite (isApplied_ext _ _ _ Hmc).
  destruct Hcase as [(x & -> & _)|(files' & t1 & rl & Hok & Hl & Hcase)];
    [destruct rc; discriminate|].
  destruct Hcase as [(n & cb & -> & _)|(x & _ & -> & _)];
    [|destruct rc; discriminate].
  destruct Hok as (_ & _ & _ & Hdisc & _). rewrite Hd in Hdisc.
  inversion Hdisc; subst files'.
  eapply loop_ok_all_applied; eauto.
Qed.

Lemma not_applied_not_in (w : World) n :
  isApplied n w = false -> ~ In n (map migration_name (ledger w)).
Proof.
  unfold isApplied. intros Hap I. apply in_map_iff in I as (row & <- & Irow).
  assert (existsb (fun r => (migration_name r =? migration_name row)%string) (ledger w)
          = true); [|congruence].
  apply existsb_exists. exists row. split; auto. apply String.eqb_refl.
Qed.

Lemma NoDup_snoc {A} (l : list A) x : NoDup l -> ~ In x l -> NoDup (l ++ [x]).
Proof.
  induction 1 as [|y l Hy Hl IH]; simpl; intros Hx.
  - constructor; [tauto|constructor].
  - constructor.
    + intros I. apply in_app_or in I as [I|[<-|[]]]; tauto.
    + apply IH. tauto.
Qed.

Lemma loop_unique files : forall n cb w tr w' r,
  runMigrations_loop files n cb w = (tr, w', r) ->
  unique_names w -> unique_names w'.
Proof.
  unfold unique_names.
  induction files as [|m rest IH]; intros n cb w tr w' r E Hu.
  - inversion E; subst. auto.
  - apply loop_cons in E
      as [(Hap & t1 & t2 & -> & F1 & B1 & S1 & E2)
         |[(Hap & t1 & t2 & w1 & b & tb & v & -> & F1 & B1 & E2 & Htb & Hw1 & _)
          |(x & -> & Hm & _)]].
    + eauto.
    + eapply IH; eauto. apply not_applied_not_in in Hap.
      unfold ledger in *. rewrite Hw1. rewrite Htb in Hu, Hap.
      unfold add_row. simpl. rewrite map_app. simpl.
      apply NoDup_snoc; auto.
    + unfold ledger. rewrite Hm. exact Hu.
Qed.

(** X4.  [runMigrations] never records a name twice: if no two rows of the
    ledger bear the same name before the run, none do after it, however the run
    ends. *)
Theorem runMigrations_keeps_names_unique (w w' : World) tr r :
  unique_names w ->
  runMigrations w = (tr, w', r) ->
  unique_names w'.
Proof.
  intros Hu E.
  apply runMigrations_inv in E
    as (tp & wp & rp & tc & rc & t0 & w0 & Hc & _ & _ & Hrel & Hcase).
  apply close_inv in Hc as (Hmc & _).
  assert (Hu0 : unique_names w0).
  { destruct Hrel as (_ & _ & _ & _ & _ & _ & _ & _ & [Hm|(_ & Hm)]);
      unfold unique_names, ledger in *; rewrite Hm; auto. simpl. constructor. }
  assert (Hup : unique_names wp).
  { destruct Hcase as [(x & _ & -> & _)|(files & t1 & rl & _ & Hl & _)]; auto.
    eapply loop_unique; eauto. }
  unfold unique_names, ledger in *. rewrite Hmc. exact Hup.
Qed.

Lemma loop_appends files : forall n cb w tr w' r,
  runMigrations_loop files n cb w = (tr, w', r) ->
  exists new,
    ledger w' = ledger w ++ new
    /\ Forall (fun row => In (migration_name row) (map name (newly_applied tr))) new.
Proof.
  induction files as [|m rest IH]; intros n cb w tr w' r E.
  - inversion E; subst. exists []. rewrite app_nil_r. auto.
  - apply loop_cons in E
      as [(Hap & t1 & t2 & -> & F1 & B1 & S1 & E2)
         |[(Hap & t1 & t2 & w1 & b & tb & v & -> & F1 & B1 & E2 & Htb & Hw1 & _)
          |(x & -> & Hm & _)]].
    + destruct (IH _ _ _ _ _ _ E2) as (new & Hl & Hall).
      exists new. split; auto. rewrite newly_applied_app, map_app.
      eapply Forall_impl; [|exact Hall]. intros row I. apply in_or_app. auto.
    + destruct (IH _ _ _ _ _ _ E2) as (new & Hl & Hall).
      exists (new_row (name m) (now w) v :: new).
      rewrite newly_applied_app, map_app. unfold newly_applied at 1. rewrite F1.
      simpl. split.
      * rewrite Hl. unfold ledger. rewrite Hw1, Htb. unfold add_row. simpl.
        rewrite <- app_assoc. reflexivity.
      * constructor; [left; reflexivity|].
        eapply Forall_impl; [|exact Hall]. intros row I. right. exact I.
    + exists []. rewrite app_nil_r. unfold ledger. rewrite Hm. auto.
Qed.

(** X5.  [runMigrations] only appends to the ledger: the rows that were there
    stay as they were and in place, every new row bears the name of a migration
    whose forward operation the run completed, and the [batch] column of an
    existing table is left as it was.  This holds for failed runs too. *)
Theorem runMigrations_only_appends (w w' : World) tr r :
  runMigrations w = (tr, w', r) ->
  (exists new,
     ledger w' = ledger w ++ new
     /\ forall row, In row new ->
          exists m, In (Up m None) tr /\ name m = migration_name row)
  /\ forall tb, migrations w = Some tb ->
       exists tb', migrations w' = Some tb' /\ batch_column tb' = batch_column tb.
Proof.
  intros E. split.
  - apply runMigrations_inv in E
      as (tp & wp & rp & tc & rc & t0 & w0 & Hc & -> & _ & Hrel & Hcase).
    apply close_inv in Hc as (Hmc & _).
    assert (Hl0 : ledger w0 = ledger w).
    { destruct Hrel as (_ & _ & _ & _ & _ & _ & _ & _ & [Hm|(Hm & Hm0)]);
        unfold ledger; rewrite ?Hm, ?Hm0; auto. }
    assert (Hlc : ledger w' = ledger wp) by (unfold ledger; rewrite Hmc; auto).
    destruct Hcase as [(x & _ & -> & _)|(files & t1 & rl & _ & Hl & Hcase)].
    + exists []. rewrite app_nil_r. split; [congruence|]. intros row [].
    + destruct (loop_appends _ _ _ _ _ _ _ Hl) as (new & Hnew & Hall).
      exists new. split; [congruence|].
      intros row I. rewrite Forall_forall in Hall. specialize (Hall row I).
      apply in_map_iff in Hall as (m & Hn & Im). exists m. split; auto.
      apply in_newly_applied.
      destruct Hcase as [(n & cb & _ & _ & ->)|(x & _ & _ & ->)];
        rewrite !newly_applied_app; apply in_or_app; left;
        apply in_or_app; right; apply in_or_app; left; exact Im.
  - intros tb Htb.
    destruct (runMigrations_keeps_columns _ _ _ _ _ Htb E) as (new & ->).
    eexists; split; [reflexivity|]. reflexivity.
Qed.

(** ** What the rollbacks delete *)

Lemma filter_true {A} (l : list A) : filter (fun _ => true) l = l.
Proof. induction l; simpl; congruence. Qed.

Lemma filter_twice {A} (f g : A -> bool) l :
  filter g (filter f l) = filter (fun x => f x && g x) l.
Proof.
  induction l as [|x l IH]; simpl; auto.
  destruct (f x); simpl; [destruct (g x)|]; rewrite IH; auto.
Qed.

Lemma only_deleted_refl (w : World) : only_deleted w w.
Proof.
  unfold only_deleted. destruct (migrations w) as [tb|]; auto.
  exists (fun _ => true). rewrite filter_true. destruct tb; auto.
Qed.

Lemma only_deleted_ext (w v w' : World) :
  migrations v = migrations w -> only_deleted v w' -> only_deleted w w'.
Proof. unfold only_deleted. intros ->. auto. Qed.

Lemma only_deleted_trans (w1 w2 w3 : World) :
  only_deleted w1 w2 -> only_deleted w2 w3 -> only_deleted w1 w3.
Proof.
  unfold only_deleted. destruct (migrations w1) as [tb|].
  - intros (k1 & ->) (k2 & ->). simpl. rewrite filter_twice. eauto.
  - intros ->. auto.
Qed.

Lemma only_deleted_after (w w1 w' : World) :
  only_deleted w w1 -> migrations w' = migrations w1 -> only_deleted w w'.
Proof.
  unfold only_deleted. intros Hd ->. exact Hd.
Qed.

Lemma rollbackSingleMigration_only_deletes n (w w1 : World) t r :
  rollbackSingleMigration n w = (t, w1, r) -> only_deleted w w1.
Proof.
  intros E. apply rollbackSingleMigration_spec in E as (_ & _ & _ & _ & _ & Hcase).
  assert (Hsame : migrations w1 = migrations w -> only_deleted w w1).
  { intros Hm. eapply only_deleted_after; [apply only_deleted_refl|exact Hm]. }
  destruct Hcase as [(_ & _ & Hm & _)
                    |[(m & e & _ & _ & _ & _ & Hm)
                     |(m & _ & _ & [(_ & _ & _ & tb & Htb & Hw')|(e & _ & Hm & _)])]];
    auto.
  unfold only_deleted. rewrite Htb, Hw'. unfold without. eauto.
Qed.

Lemma for_of_only_deletes names : forall (w w' : World) tr r,
  for_of names rollbackSingleMigration w = (tr, w', r) -> only_deleted w w'.
Proof.
  induction names as [|n names IH]; intros w w' tr r E.
  - inversion E; subst. apply only_deleted_refl.
  - simpl in E.
    apply bind_inv in E as [(t1 & w1 & [] & t2 & E1 & E2 & ->)|(e & E1 & ->)];
      [..|exact _];
      apply rollbackSingleMigration_only_deletes in E1; auto.
    eapply only_deleted_trans; eauto.
Qed.

(** The table after a rollback loop that went through. *)
Lemma for_of_ok_table names : forall (w w' : World) tr tb,
  for_of names rollbackSingleMigration w = (tr, w', Ok tt) ->
  migrations w = Some tb ->
  migrations w'
  = Some {| batch_column := batch_column tb;
            rows := filter (fun r => negb (existsb (String.eqb (migration_name r)) names))
                           (rows tb) |}.
Proof.
  induction names as [|n names IH]; intros w w' tr tb E Htb.
  - inversion E; subst. simpl. rewrite filter_true, Htb. destruct tb; auto.
  - simpl in E.
    apply bind_inv in E as [(t1 & w1 & [] & t2 & E1 & E2 & ->)|(e & _ & Hr)];
      [..|exact _];
      [|discriminate].
    apply rollbackSingleMigration_spec in E1 as (_ & _ & _ & _ & _ & Hcase).
    destruct Hcase as [(_ & _ & _ & _ & e & He & _)
                      |[(m & e & _ & _ & _ & He & _)
                       |(m & _ & _ & [(_ & _ & _ & tb0 & Htb0 & Hw1)|(e & He & _)])]];
      try discriminate.
    rewrite Htb in Htb0. inversion Htb0; subst tb0.
    rewrite (IH _ _ _ _ E2 Hw1). unfold without. simpl.
    rewrite filter_twice. do 2 f_equal.
    apply filter_ext. intros r. rewrite negb_orb. reflexivity.
Qed.

Lemma rollbackLastBatch_try_cases (w w' : World) tr r :
  rollbackLastBatch_try w = (tr, w', r) ->
  (w' = w /\ (r = Ok tt -> last_batch w = []))
  \/ (exists t rf,
        for_of (map migration_name (order_by_executed_at_desc (last_batch w)))
               rollbackSingleMigration w = (t, w', rf)
        /\ (r = Ok tt -> rf = Ok tt)).
Proof.
  unfold rollbackLastBatch_try. intros E.
  apply bind_inv in E as [(t1 & w1 & te & t2 & E1 & E2 & ->)|(e1 & E1 & ->)];
    [..|exact _];
    apply migrationTableExists_spec in E1 as (-> & [(Hp & -> & Hr1)|(Hp & -> & Hr1)]);
    try discriminate.
  2: { left. split; [auto|discriminate]. }
  inversion Hr1; subst te; clear Hr1.
  destruct (migrations w) as [tb|] eqn:Hm; simpl in E2.
  2: { inversion E2; subst. left. split; auto. intros _.
       unfold last_batch. rewrite Hm. reflexivity. }
  destruct (batch_column tb) as [d|] eqn:Hcol.
  2: { unfold bind at 1 in E2.
       rewrite (getLastBatch_no_column w tb Hp Hm Hcol) in E2. inversion E2; subst.
       left. split; [auto|discriminate]. }
  rewrite (bind_ok _ _ _ _ _ _ (getLastBatch_ok w tb d Hp Hm Hcol)) in E2.
  set (names := map migration_name (order_by_executed_at_desc (last_batch w))) in *.
  destruct (List.length names =? 0)%nat eqn:Hlen.
  - apply length_zero in Hlen. unfold names in Hlen. apply map_eq_nil in Hlen.
    pose proof (order_by_perm (last_batch w)) as P. rewrite Hlen in P.
    apply Permutation_sym, Permutation_nil in P.
    inversion E2; subst. left. split; auto.
  - right.
    destruct (bind (log (RollingBackLastBatch (List.length names)))
                (fun _ => bind (for_of names rollbackSingleMigration)
                            (fun _ => log LastBatchCompleted)) w)
      as [[t3 w3] r3] eqn:E3.
    inversion E2; subst. clear E2.
    unfold bind at 1 in E3. simpl in E3.
    destruct (bind (for_of names rollbackSingleMigration)
                (fun _ => log LastBatchCompleted) w) as [[t6 w6] r6] eqn:E6.
    inversion E3; subst; clear E3.
    apply bind_inv in E6 as [(t4 & w4 & [] & t5 & E4 & E5 & ->)|(e & E4 & ->)];
      [..|exact _].
    + inversion E5; subst. exists t4, (Ok tt). auto.
    + exists t6, (Err e). split; [auto|discriminate].
Qed.

Lemma rollbackAllMigrations_try_cases (w w' : World) tr r :
  rollbackAllMigrations_try w = (tr, w', r) ->
  (w' = w /\ (r = Ok tt -> ledger w = []))
  \/ (exists t rf,
        for_of (map migration_name (order_by_executed_at_desc (ledger w)))
               rollbackSingleMigration w = (t, w', rf)
        /\ (r = Ok tt -> rf = Ok tt)).
Proof.
  unfold rollbackAllMigrations_try. intros E.
  apply bind_inv in E as [(t1 & w1 & te & t2 & E1 & E2 & ->)|(e1 & E1 & ->)];
    [..|exact _];
    apply migrationTableExists_spec in E1 as (-> & [(Hp & -> & Hr1)|(Hp & -> & Hr1)]);
    try discriminate.
  2: { left. split; [auto|discriminate]. }
  inversion Hr1; subst te; clear Hr1. unfold ledger.
  destruct (migrations w) as [tb|] eqn:Hm; simpl in E2.
  2: { inversion E2; subst. left. auto. }
  rewrite (bind_ok _ _ _ _ _ _ (getExecutedMigrations_ok w tb Hp Hm)) in E2.
  set (names := map migration_name (order_by_executed_at_desc (rows tb))) in *.
  destruct (List.length names =? 0)%nat eqn:Hlen.
  - apply length_zero in Hlen. unfold names in Hlen. apply map_eq_nil in Hlen.
    pose proof (order_by_perm (rows tb)) as P. rewrite Hlen in P.
    apply Permutation_sym, Permutation_nil in P.
    inversion E2; subst. left. split; auto.
  - right.
    destruct (bind (for_of names rollbackSingleMigration) (fun _ => log AllRolledBack) w)
      as [[t3 w3] r3] eqn:E3.
    inversion E2; subst. clear E2.
    apply bind_inv in E3 as [(t4 & w4 & [] & t5 & E4 & E5 & ->)|(e & E4 & ->)];
      [..|exact _].
    + inversion E5; subst. exists t4, (Ok tt). auto.
    + exists t3, (Err e). split; [auto|discriminate].
Qed.

(** X6.  After [rollbackAllMigrations] returned normally the ledger is
    empty. *)
Theorem rollbackAllMigrations_empties (w w' : World) tr :
  rollbackAllMigrations w = (tr, w', Ok tt) ->
  ledger w' = [].
Proof.
  unfold rollbackAllMigrations. intros E.
  apply bind_inv in E as [(t1 & w1 & [] & t2 & E1 & E & ->)|(e & E1 & _)];
    [..|exact _];
    [|discriminate].
  inversion E1; subst t1 w1; clear E1.
  apply entry_inv in E as (tb & wb & rb & tc & rc & Eb & Hc & _ & Hr);
    [..|exact _].
  apply close_inv in Hc as (Hmc & _).
  assert (rb = Ok tt) as -> by (destruct rc; [auto|discriminate..]).
  unfold ledger at 1. rewrite Hmc. fold (ledger wb).
  apply rollbackAllMigrations_try_cases in Eb as [(-> & Hnil)|(t & rf & Ef & Hrf)]; auto.
  rewrite (Hrf eq_refl) in Ef. unfold ledger in *.
  destruct (migrations w) as [tb0|] eqn:Hm.
  - rewrite (for_of_ok_table _ _ _ _ _ Ef Hm). simpl.
    apply filter_none. rewrite Forall_forall. intros row I.
    apply negb_false_iff. apply existsb_exists. exists (migration_name row).
    split; [|apply String.eqb_refl].
    apply in_map. eapply Permutation_in; [apply order_by_perm|exact I].
  - apply for_of_only_deletes in Ef. unfold only_deleted in Ef.
    rewrite Hm in Ef. rewrite Ef. reflexivity.
Qed.

Lemma NoDup_map_inj {A B} (f : A -> B) l x y :
  NoDup (map f l) -> In x l -> In y l -> f x = f y -> x = y.
Proof.
  induction l as [|z l IH]; simpl; [tauto|]. intros Hn Ix Iy E.
  inversion Hn as [|? ? Hz Hl]; subst.
  destruct Ix as [->|Ix], Iy as [->|Iy]; auto.
  - exfalso. apply Hz. rewrite E. apply in_map. auto.
  - exfalso. apply Hz. rewrite <- E. apply in_map. auto.
Qed.

Lemma last_batch_incl (w : World) row : In row (last_batch w) -> In row (ledger w).
Proof.
  unfold last_batch, ledger. destruct (migrations w); [|tauto].
  intros I. apply filter_In in I. tauto.
Qed.

(** X7.  In a ledger without duplicate names, [rollbackLastBatch] that
    returned normally removed the rows of the highest batch and no other
    row. *)
Theorem rollbackLastBatch_removes_last_batch (w w' : World) tr :
  unique_names w ->
  rollbackLastBatch w = (tr, w', Ok tt) ->
  forall row, In row (ledger w') <-> In row (ledger w) /\ ~ In row (last_batch w).
Proof.
  unfold rollbackLastBatch. intros Hu E row.
  apply entry_inv in E as (tb & wb & rb & tc & rc & Eb & Hc & _ & Hr);
    [..|exact _].
  apply close_inv in Hc as (Hmc & _).
  assert (rb = Ok tt) as -> by (destruct rc; [auto|discriminate..]).
  unfold ledger at 1. rewrite Hmc. fold (ledger wb).
  apply rollbackLastBatch_try_cases in Eb as [(-> & Hnil)|(t & rf & Ef & Hrf)].
  - rewrite (Hnil eq_refl). simpl. tauto.
  - rewrite (Hrf eq_refl) in Ef.
    destruct (migrations w) as [tb0|] eqn:Hm.
    + unfold ledger at 1. rewrite (for_of_ok_table _ _ _ _ _ Ef Hm). simpl.
      assert (Hl : ledger w = rows tb0) by (unfold ledger; rewrite Hm; auto).
      rewrite filter_In, <- Hl, negb_true_iff. split.
      * intros (I & Hex). split; auto. intros Ilast.
        assert (existsb (String.eqb (migration_name row))
                  (map migration_name (order_by_executed_at_desc (last_batch w))) = true);
          [|congruence].
        apply existsb_exists. exists (migration_name row).
        split; [|apply String.eqb_refl].
        apply in_map. eapply Permutation_in; [apply order_by_perm|exact Ilast].
      * intros (I & Hnot). split; auto.
        destruct (existsb _ _) eqn:Hex; auto. exfalso. apply Hnot.
        apply existsb_exists in Hex as (n & In_ & Hn). apply String.eqb_eq in Hn.
        apply in_map_iff in In_ as (row' & Hrow' & Irow').
        apply (Permutation_in _ (Permutation_sym (order_by_perm _))) in Irow'.
        assert (row = row') as ->; auto.
        apply (NoDup_map_inj migration_name (ledger w)); auto.
        -- apply last_batch_incl; auto.
        -- congruence.
    + apply for_of_only_deletes in Ef. unfold only_deleted in Ef. rewrite Hm in Ef.
      unfold ledger, last_batch. rewrite Ef, Hm. simpl. tauto.
Qed.

Lemma getLastBatch_spec (w w1 : World) t r :
  getLastBatch w = (t, w1, r) -> w1 = w /\ forward_calls t = [].
Proof.
  unfold getLastBatch, pool_query, reading. intros E.
  destruct (pool_ended w), (migrations w) as [tb|]; try destruct (batch_column tb);
    inversion E; auto.
Qed.


Lemma rollbackSteps_loop_only_deletes todo : forall i steps (w w' : World) tr r,
  rollbackSteps_loop todo i steps w = (tr, w', r) ->
  only_deleted w w' /\ forward_calls tr = [].
Proof.
  induction todo as [|todo IH]; intros i steps w w' tr r E.
  - inversion E; subst. split; [apply only_deleted_refl|reflexivity].
  - simpl in E.
    apply bind_inv in E as [(t1 & w1 & names & t2 & E1 & E2 & ->)|(e & E1 & ->)];
      [..|exact _];
      apply getLastBatch_spec in E1 as (-> & F1);
      [|split; [apply only_deleted_refl|exact F1]].
    rewrite forward_calls_app, F1. simpl.
    destruct (List.length names =? 0)%nat.
    + inversion E2; subst. split; [apply only_deleted_refl|reflexivity].
    + unfold bind at 1 in E2. simpl in E2.
      destruct (bind (for_of names rollbackSingleMigration)
                  (fun _ => rollbackSteps_loop todo (i + 1) steps) w)
        as [[t3 w3] r3] eqn:E3.
      inversion E2; subst; clear E2. simpl.
      apply bind_inv in E3 as [(t4 & w4 & [] & t5 & E4 & E5 & ->)|(e & E4 & ->)];
        [..|exact _].
      * pose proof (for_of_only_deletes _ _ _ _ _ E4) as D4.
        apply for_of_rollback in E4 as (F4 & _).
        apply IH in E5 as (D5 & F5).
        rewrite forward_calls_app, F4, F5.
        split; [eapply only_deleted_trans; eauto|reflexivity].
      * pose proof (for_of_only_deletes _ _ _ _ _ E4) as D4.
        apply for_of_rollback in E4 as (F4 & _). auto.
Qed.

Lemma entry_only_deletes (body : M unit) (msg : Error -> Message) (w w' : World) tr r :
  (forall tb wb rb, body w = (tb, wb, rb) -> only_deleted w wb /\ forward_calls tb = []) ->
  finally (try_catch body (fun error => bind (log_error (msg error)) (fun _ => throw error)))
          close_if_standalone w = (tr, w', r) ->
  Settles body ->
  only_deleted w w' /\ forward_calls tr = [].
Proof.
  intros Hbody E S.
  apply entry_inv in E as (tb & wb & rb & tc & rc & Eb & Hc & -> & _);
    [..|exact _].
  apply close_inv in Hc as (Hmc & _ & _ & _ & _ & Fc & _).
  destruct (Hbody _ _ _ Eb) as (D & F). split.
  - eapply only_deleted_after; eauto.
  - rewrite !forward_calls_app, F, Fc. destruct rb; reflexivity.
Qed.

Lemma rollbackAllMigrations_only_deletes (w w' : World) tr r :
  rollbackAllMigrations w = (tr, w', r) ->
  only_deleted w w' /\ forward_calls tr = [].
Proof.
  intros E. unfold rollbackAllMigrations in E.
  apply bind_inv in E as [(t1 & w1 & [] & t2 & E1 & E & ->)|(e & E1 & _)];
    [..|exact _];
    [|discriminate].
  inversion E1; subst t1 w1; clear E1. simpl.
  eapply entry_only_deletes; [|exact E|exact _]. intros tb wb rb Eb.
  pose proof (rollbackAllMigrations_try_inv _ _ _ _ Eb) as (F & _). split; auto.
  apply rollbackAllMigrations_try_cases in Eb as [(-> & _)|(t & rf & Ef & _)].
  + apply only_deleted_refl.
  + eapply for_of_only_deletes; eauto.
Qed.

(** X8.  None of [rollbackLastBatch], [rollbackSteps],
    [rollbackAllMigrations] and [rollbackSpecificMigration] invokes a forward
    operation, creates or drops the ledger table, changes its columns, or adds
    or alters a row: the table afterwards holds a selection of the rows it held
    before, in the same order.  This holds however the call ends. *)
Theorem rollbacks_only_delete :
  (forall (w w' : World) tr r,
     rollbackLastBatch w = (tr, w', r) -> only_deleted w w' /\ forward_calls tr = [])
  /\ (forall steps (w w' : World) tr r,
        rollbackSteps steps w = (tr, w', r) -> only_deleted w w' /\ forward_calls tr = [])
  /\ (forall (w w' : World) tr r,
        rollbackAllMigrations w = (tr, w', r) ->
        only_deleted w w' /\ forward_calls tr = [])
  /\ (forall n (w w' : World) tr r,
        rollbackSpecificMigration n w = (tr, w', r) ->
        only_deleted w w' /\ forward_calls tr = []).
Proof.
  split; [|split; [|split]].
  - intros w w' tr r E. unfold rollbackLastBatch in E.
    eapply entry_only_deletes; [|exact E|exact _]. intros tb wb rb Eb.
    pose proof (rollbackLastBatch_try_inv _ _ _ _ Eb) as (F & _). split; auto.
    apply rollbackLastBatch_try_cases in Eb as [(-> & _)|(t & rf & Ef & _)].
    + apply only_deleted_refl.
    + eapply for_of_only_deletes; eauto.
  - intros steps w w' tr r E. unfold rollbackSteps in E.
    eapply entry_only_deletes; [|exact E|exact _]. intros tb wb rb Eb.
    unfold rollbackSteps_try in Eb.
    apply bind_inv in Eb as [(t1 & w1 & te & t2 & E1 & E2 & ->)|(e1 & E1 & ->)];
      [..|exact _];
      apply migrationTableExists_spec in E1 as (-> & [(Hp & -> & Hr1)|(Hp & -> & Hr1)]);
      try discriminate.
    2: { split; [apply only_deleted_refl|reflexivity]. }
    inversion Hr1; subst te; clear Hr1.
    destruct (migrations w) as [tb0|] eqn:Hm; simpl in E2.
    2: { inversion E2; subst. split; [apply only_deleted_refl|reflexivity]. }
    unfold bind at 1 in E2. simpl in E2.
    destruct (bind (rollbackSteps_loop (Z.to_nat steps) 0 steps)
                (fun _ => log (StepsCompleted steps)) w) as [[t3 w3] r3] eqn:E3.
    inversion E2; subst; clear E2.
    apply bind_inv in E3 as [(t4 & w4 & [] & t5 & E4 & E5 & ->)|(e & E4 & ->)];
      [..|exact _];
      apply rollbackSteps_loop_only_deletes in E4 as (D & F).
    + inversion E5; subst. simpl. rewrite forward_calls_app, F. auto.
    + simpl. auto.
  - apply rollbackAllMigrations_only_deletes.
  - intros n w w' tr r E. unfold rollbackSpecificMigration in E.
    eapply entry_only_deletes; [|exact E|exact _]. intros tb wb rb Eb.
    unfold rollbackSpecificMigration_try in Eb.
    apply bind_inv in Eb as [(t1 & w1 & te & t2 & E1 & E2 & ->)|(e1 & E1 & ->)];
      [..|exact _];
      apply migrationTableExists_spec in E1 as (-> & [(Hp & -> & Hr1)|(Hp & -> & Hr1)]);
      try discriminate.
    2: { split; [apply only_deleted_refl|reflexivity]. }
    inversion Hr1; subst te; clear Hr1.
    destruct (migrations w) as [tb0|] eqn:Hm; simpl in E2.
    2: { inversion E2; subst. split; [apply only_deleted_refl|reflexivity]. }
    rewrite (bind_ok _ _ _ _ _ _ (getExecutedMigrations_ok w tb0 Hp Hm)) in E2.
    destruct (negb (existsb (String.eqb n)
                      (map migration_name (order_by_executed_at_desc (rows tb0))))).
    + inversion E2; subst. split; [apply only_deleted_refl|reflexivity].
    + destruct (bind (rollbackSingleMigration n) (fun _ => log SpecificCompleted) w)
        as [[t3 w3] r3] eqn:E3.
      inversion E2; subst; clear E2.
      apply bind_inv in E3 as [(t4 & w4 & [] & t5 & E4 & E5 & ->)|(e & E4 & ->)];
        [..|exact _];
        pose proof (rollbackSingleMigration_only_deletes _ _ _ _ _ E4) as D;
        apply rollbackSingleMigration_spec in E4 as (_ & _ & _ & _ & F & _).
      * inversion E5; subst. simpl. rewrite forward_calls_app, F. auto.
      * simpl. auto.
Qed.

Lemma rollbackSteps_one_try (w w1 w2 : World) t1 t2 r1 r2 :
  rollbackSteps_try 1 w = (t1, w1, r1) ->
  rollbackLastBatch_try w = (t2, w2, r2) ->
  w1 = w2 /\ r1 = r2 /\ effects t1 = effects t2.
Proof.
  unfold rollbackSteps_try, rollbackLastBatch_try.
  change (Z.to_nat 1) with 1%nat. unfold rollbackSteps_loop.
  unfold bind, log, ret. intros E1 E2.
  destruct (migrationTableExists w) as [[t0 w0] [[|]|e0|]]; simpl in *;
    [|inversion E1; inversion E2; subst; auto..].
  destruct (getLastBatch w0) as [[tl wl] [names|el|]]; simpl in *;
    [|inversion E1; inversion E2; subst; unfold effects;
      repeat (rewrite ?filter_app; simpl); auto..].
  destruct (List.length names =? 0)%nat; simpl in *.
  { inversion E1; inversion E2; subst. unfold effects.
    repeat (rewrite ?filter_app; simpl). rewrite ?app_nil_r. auto. }
  destruct (for_of names rollbackSingleMigration wl) as [[tf wf] [[]|ef|]]; simpl in *;
    inversion E1; inversion E2; subst; unfold effects;
    repeat (rewrite ?filter_app; simpl); rewrite ?app_nil_r; auto.
Qed.

(** X9.  [rollbackSteps(1)] and [rollbackLastBatch()] are the same but for the
    lines they write to the console: same final world, same result, same
    statements and operations in the same order. *)
Theorem rollbackSteps_one_is_rollbackLastBatch (w : World) :
  world_after (rollbackSteps 1 w) = world_after (rollbackLastBatch w)
  /\ result_of (rollbackSteps 1 w) = result_of (rollbackLastBatch w)
  /\ effects (trace_of (rollbackSteps 1 w)) = effects (trace_of (rollbackLastBatch w)).
Proof.
  destruct (rollbackSteps 1 w) as [[tr1 w1] r1] eqn:E1.
  destruct (rollbackLastBatch w) as [[tr2 w2] r2] eqn:E2.
  unfold world_after, result_of, trace_of. simpl.
  unfold rollbackSteps in E1. unfold rollbackLastBatch in E2.
  apply entry_inv in E1 as (ta & wa & ra & tc & rc & Ea & Hc & -> & ->);
    [..|exact _].
  apply entry_inv in E2 as (tb & wb & rb & tc' & rc' & Eb & Hc' & -> & ->);
    [..|exact _].
  destruct (rollbackSteps_one_try _ _ _ _ _ _ _ Ea Eb) as (-> & -> & Heff).
  rewrite Hc in Hc'. inversion Hc'; subst.
  rewrite !effects_app, Heff.
  destruct rb; simpl; auto.
Qed.

(** ** The status report *)

Lemma order_by_length l :
  List.length (order_by_executed_at_desc l) = List.length l.
Proof. symmetry. apply Permutation_length, order_by_perm. Qed.

Lemma newest_first_lines rs :
  newest_first rs ->
  StronglySorted (fun a b : string * Z => snd b <= snd a)
    (map (fun row => (migration_name row, executed_at row)) rs).
Proof.
  unfold newest_first. induction 1 as [|r rs Hs IH Hr]; simpl; constructor; auto.
  rewrite Forall_forall in *. intros x I.
  apply in_map_iff in I as (row & <- & I). simpl. auto.
Qed.

(** X10.  [showMigrationStatus] changes nothing: database, directory and
    clock are as before, no operation is invoked and the database is only asked
    whether the table exists and for the rows.  With a live pool it writes one
    report: that the table is missing, that nothing was executed yet, or the
    rows, every one of them once, none before one executed later, with their
    number.  It then returns normally, unless the process was started with
    [-e]: then the call never settles. *)
Theorem showMigrationStatus_reads_only (w w' : World) tr r :
  showMigrationStatus w = (tr, w', r) ->
  same_store w' w /\ now w' = now w
  /\ forward_calls tr = [] /\ backward_calls tr = []
  /\ (forall q, In q (statements tr) -> q = SelectTableExists \/ q = SelectDetailsDesc)
  /\ (pool_ended w = false ->
      r = (if argv_e w then Pending else Ok tt)
      /\ exists report,
           logged tr = [report]
           /\ match migrations w with
              | None => report = TableMissingRunMigrate
              | Some tb =>
                  match rows tb with
                  | [] => report = NoMigrationsYet
                  | _ =>
                      exists lines,
                        report = History lines (List.length (rows tb))
                        /\ Permutation lines
                             (map (fun row => (migration_name row, executed_at row))
                                  (rows tb))
                        /\ StronglySorted (fun a b => snd b <= snd a) lines
                  end
              end).
Proof.
  unfold showMigrationStatus. intros E.
  apply entry_inv in E as (tb & wb & rb & tc & rc & Eb & Hc & -> & ->);
    [..|exact _].
  pose proof (close_result _ _ _ _ Hc) as (Hrc & _).
  apply close_inv in Hc as (Hm & Ha & Hd & Hn & _ & Fc & Bc & Sc & Lc & _).
  assert (Hb : wb = w /\ forward_calls tb = [] /\ backward_calls tb = []
               /\ (forall q, In q (statements tb) ->
                             q = SelectTableExists \/ q = SelectDetailsDesc)
               /\ (pool_ended w = false ->
                   rb = Ok tt
                   /\ logged tb =
                      [match migrations w with
                       | None => TableMissingRunMigrate
                       | Some tb =>
                           match rows tb with
                           | [] => NoMigrationsYet
                           | _ => History
                                    (map (fun row => (migration_name row, executed_at row))
                                         (order_by_executed_at_desc (rows tb)))
                                    (List.length (rows tb))
                           end
                       end])).
  { clear - Eb. unfold showMigrationStatus_try, bind, migrationTableExists,
      getExecutedMigrationsWithDetails, pool_query, reading, log in Eb.
    destruct (pool_ended w) eqn:Hp; simpl in Eb.
    { inversion Eb; subst. simpl. repeat split; auto; try tauto; discriminate. }
    destruct (migrations w) as [t|] eqn:Hmw; simpl in Eb.
    2: { inversion Eb; subst. simpl. repeat split; auto. intros q [<-|[]]; auto. }
    rewrite ?Hp, ?Hmw in Eb. simpl in Eb. rewrite ?Hmw in Eb. simpl in Eb.
    rewrite length_map, order_by_length in Eb.
    destruct (rows t) as [|row l] eqn:Hrows; simpl in Eb; inversion Eb; subst; simpl;
      (split; [auto|]); (split; [auto|]); (split; [auto|]);
      (split; [intros q [<-|[<-|[]]]; auto|]); intros _; split; auto. }
  destruct Hb as (-> & Fb & Bb & Sb & Lb).
  unfold same_store. rewrite Hm, Ha, Hd, Hn.
  rewrite !forward_calls_app, !backward_calls_app, Fb, Fc, Bb, Bc.
  do 2 (split; [solve [auto]|]).
  split; [destruct rb; reflexivity|]. split; [destruct rb; reflexivity|]. split.
  - intros q I. rewrite !statements_app, Sc, app_nil_r in I.
    apply in_app_or in I as [I|I]; auto. destruct rb; simpl in I; tauto.
  - intros Hp. destruct (Lb Hp) as (-> & Hl). rewrite Hrc, Hp. split.
    + destruct (argv_e w); reflexivity.
    + eexists. split; [rewrite !logged_app, Lc, Hl; reflexivity|].
      destruct (migrations w) as [t|]; [|reflexivity].
      destruct (rows t) as [|row l] eqn:Hrows; [reflexivity|].
      eexists. split; [reflexivity|]. rewrite <- Hrows. split.
      * apply Permutation_map, Permutation_sym, order_by_perm.
      * apply newest_first_lines, order_by_sorted.
Qed.

(** ** A refresh of a stand-alone process *)

Lemma rollbackAllMigrations_standalone (w w' : World) tr r :
  argv_e w = true ->
  rollbackAllMigrations w = (tr, w', r) ->
  r = (if pool_ended w then Err PoolEndedTwice else Pending).
Proof.
  unfold rollbackAllMigrations. intros Harg E.
  apply bind_inv in E as [(t1 & w1 & [] & t2 & E1 & E & ->)|(e & E1 & _)];
    [..|exact _];
    [|discriminate].
  inversion E1; subst t1 w1; clear E1.
  apply entry_inv in E as (tb & wb & rb & tc & rc & Eb & Hc & _ & ->);
    [..|exact _].
  apply rollbackAllMigrations_try_inv in Eb as (_ & Hp & Ha & _).
  apply close_result in Hc as (-> & _). rewrite Ha, Hp, Harg.
  destruct (pool_ended w); reflexivity.
Qed.

(** X11.  In a process started with [-e], [refreshMigrations] never returns
    normally and applies nothing.  It does what its rollback of everything
    does and stops there: with a live pool the [pool.end()] that ends the
    rollback never settles, so neither does the refresh ("Re-running" is never
    reached); with a pool already ended the rollback is rejected and the
    refresh fails with the same exception.  The ledger is left with a selection
    of its rows. *)
Theorem refreshMigrations_standalone (w w' : World) tr r :
  argv_e w = true ->
  refreshMigrations w = (tr, w', r) ->
  r = (if pool_ended w then Err PoolEndedTwice else Pending)
  /\ (exists tr0,
        rollbackAllMigrations w = (tr0, w', r)
        /\ tr = [Log Refreshing] ++ tr0
                ++ (if pool_ended w then [LogError (RefreshFailed PoolEndedTwice)]
                    else []))
  /\ forward_calls tr = [] /\ only_deleted w w'.
Proof.
  intros Harg E.
  destruct (rollbackAllMigrations w) as [[ta wa] ra] eqn:Ea.
  pose proof (rollbackAllMigrations_standalone _ _ _ _ Harg Ea) as Hra.
  pose proof (rollbackAllMigrations_only_deletes _ _ _ _ Ea) as (Da & Fa).
  unfold refreshMigrations, refreshMigrations_try, bind, try_catch, log, log_error,
    emit, throw in E.
  rewrite Ea in E. subst ra.
  destruct (pool_ended w); simpl in E; inversion E; subst tr w' r;
    (split; [reflexivity|]);
    (split; [exists ta; split; [reflexivity|simpl; rewrite ?app_nil_r; reflexivity]|]);
    simpl; rewrite ?forward_calls_app, Fa; auto.
Qed.

(** ** The record a specific rollback removes *)

(** X12.  [rollbackSpecificMigration] that returned normally left the ledger
    without the rows of the given name and with every other row, in order; if
    the name was recorded, the backward operation of one migration of that name
    was invoked once and completed. *)
Theorem rollbackSpecificMigration_removes n (w w' : World) tr :
  rollbackSpecificMigration n w = (tr, w', Ok tt) ->
  ledger w' = filter (fun row => negb (String.eqb (migration_name row) n)) (ledger w)
  /\ (isApplied n w = true ->
      exists m, name m = n /\ backward_calls tr = [(m, None)]).
Proof.
  unfold rollbackSpecificMigration. intros E.
  apply entry_inv in E as (tb & wb & rb & tc & rc & Eb & Hc & -> & Hr);
    [..|exact _].
  apply close_inv in Hc as (Hmc & _ & _ & _ & _ & _ & Bc & _).
  assert (rb = Ok tt) as -> by (destruct rc; [auto|discriminate..]).
  unfold ledger at 1. rewrite Hmc. fold (ledger wb).
  rewrite !backward_calls_app, Bc. simpl. rewrite app_nil_r.
  unfold rollbackSpecificMigration_try in Eb.
  apply bind_inv in Eb as [(t1 & w1 & te & t2 & E1 & E2 & ->)|(e1 & E1 & ?)];
    [..|exact _];
    [|discriminate].
  apply migrationTableExists_spec in E1 as (-> & [(Hp & -> & Hr1)|(Hp & -> & Hr1)]);
    [discriminate|].
  inversion Hr1; subst te; clear Hr1. unfold isApplied, ledger.
  destruct (migrations w) as [tb0|] eqn:Hm; simpl in E2.
  2: { inversion E2; subst. rewrite Hm. simpl. split; [auto|discriminate]. }
  rewrite (bind_ok _ _ _ _ _ _ (getExecutedMigrations_ok w tb0 Hp Hm)) in E2.
  assert (Hex : existsb (String.eqb n)
                  (map migration_name (order_by_executed_at_desc (rows tb0)))
                = existsb (fun row => String.eqb (migration_name row) n) (rows tb0)).
  { apply eq_true_iff_eq. rewrite !existsb_exists. split.
    - intros (x & I & Hx). apply String.eqb_eq in Hx. subst x.
      apply in_map_iff in I as (row & <- & I). exists row. split.
      + eapply Permutation_in; [apply Permutation_sym, order_by_perm|exact I].
      + apply String.eqb_refl.
    - intros (row & I & Hx). apply String.eqb_eq in Hx. exists n. split.
      + rewrite <- Hx. apply in_map.
        eapply Permutation_in; [apply order_by_perm|exact I].
      + apply String.eqb_refl. }
  rewrite Hex in E2.
  destruct (existsb (fun row => String.eqb (migration_name row) n) (rows tb0)) eqn:Hap;
    simpl in E2.
  - destruct (bind (rollbackSingleMigration n) (fun _ => log SpecificCompleted) w)
      as [[t3 w3] r3] eqn:E3.
    inversion E2; subst; clear E2.
    apply bind_inv in E3 as [(t4 & w4 & [] & t5 & E4 & E5 & ->)|(e & E4 & ?)];
      [..|exact _];
      [|discriminate].
    inversion E5; subst; clear E5.
    apply rollbackSingleMigration_spec in E4
      as (_ & _ & _ & _ & _ & [(_ & _ & _ & _ & e & ? & _)|[(m & e & _ & _ & _ & ? & _)
         |(m & Hn & _ & [(-> & _ & _ & tb1 & Hm1 & ->)|(e & ? & _)])]]);
      try discriminate.
    rewrite Hm in Hm1. inversion Hm1; subst tb1. simpl. split; [auto|].
    intros _. exists m. auto.
  - inversion E2; subst. rewrite Hm. simpl. split; [|discriminate].
    symmetry. apply filter_all. rewrite Forall_forall. intros row I.
    apply negb_true_iff. destruct (migration_name row =? n)%string eqn:Hx; auto.
    assert (existsb (fun row => String.eqb (migration_name row) n) (rows tb0) = true);
      [|congruence].
    apply existsb_exists. eauto.
Qed.

(** ** What [createMigrationsTable] ensures *)

Lemma has_batch_column (t : Table) :
  (String.eqb "migrations" "migrations" && existsb (String.eqb "batch") (columns t))%bool
  = match batch_column t with Some _ => true | None => false end.
Proof. unfold columns. destruct (batch_column t); reflexivity. Qed.

Lemma createMigrationsTable_present (w : World) tb d :
  pool_ended w = false -> migrations w = Some tb -> batch_column tb = Some d ->
  createMigrationsTable w
  = ([Query CreateTableIfNotExists; Query (SelectColumnExists "migrations" "batch");
      Log TableCreatedOrUpdated], w, Ok tt).
Proof.
  intros Hp Hm Hcol. unfold createMigrationsTable.
  assert (S1 : create_table_if_not_exists w = ([Query CreateTableIfNotExists], w, Ok tt)).
  { unfold create_table_if_not_exists, pool_query. rewrite Hp, Hm. reflexivity. }
  assert (S2 : checkColumnExists "migrations" "batch" w
               = ([Query (SelectColumnExists "migrations" "batch")], w, Ok true)).
  { unfold checkColumnExists, pool_query. rewrite Hp, Hm, has_batch_column, Hcol.
    reflexivity. }
  rewrite (bind_ok _ _ _ _ _ _ S1), (bind_ok _ _ _ _ _ _ S2). reflexivity.
Qed.

Lemma createMigrationsTable_upgrade (w : World) tb :
  pool_ended w = false -> migrations w = Some tb -> batch_column tb = None ->
  createMigrationsTable w
  = ([Query CreateTableIfNotExists; Query (SelectColumnExists "migrations" "batch");
      Query AlterAddBatch; Query UpdateBatchNull; Log TableCreatedOrUpdated],
     set_table w
       (Some {| batch_column := Some (Some 1);
                rows := map (fun row => new_row (migration_name row) (executed_at row)
                                                (Some 1)) (rows tb) |}),
     Ok tt).
Proof.
  intros Hp Hm Hcol. unfold createMigrationsTable.
  assert (S1 : create_table_if_not_exists w = ([Query CreateTableIfNotExists], w, Ok tt)).
  { unfold create_table_if_not_exists, pool_query. rewrite Hp, Hm. reflexivity. }
  assert (S2 : checkColumnExists "migrations" "batch" w
               = ([Query (SelectColumnExists "migrations" "batch")], w, Ok false)).
  { unfold checkColumnExists, pool_query. rewrite Hp, Hm, has_batch_column, Hcol.
    reflexivity. }
  rewrite (bind_ok _ _ _ _ _ _ S1), (bind_ok _ _ _ _ _ _ S2).
  unfold negb, alter_add_batch, update_batch_null, pool_query, writing, bind, log, emit.
  rewrite Hp, Hm, Hcol. simpl. rewrite Hp. simpl.
  rewrite map_map. unfold set_table, new_row. simpl. reflexivity.
Qed.

(** X13.  With a live pool [createMigrationsTable] returns normally and leaves
    a table with the [batch] column that holds the same names and times as the
    ledger did.  A table that had the column is unchanged; in a table that
    lacked it every row is now in batch 1.  Application, directory and clock
    are untouched, and a second call finds nothing to do: it sends the
    conditional [CREATE TABLE] and the question about the column, and changes
    nothing. *)
Theorem createMigrationsTable_ensures (w : World) :
  pool_ended w = false ->
  exists tr w' tb',
    createMigrationsTable w = (tr, w', Ok tt)
    /\ migrations w' = Some tb' /\ batch_column tb' <> None
    /\ map (fun row => (migration_name row, executed_at row)) (rows tb')
       = map (fun row => (migration_name row, executed_at row)) (ledger w)
    /\ (forall tb, migrations w = Some tb ->
          match batch_column tb with
          | Some _ => tb' = tb
          | None => forall row, In row (rows tb') -> batch row = Some 1
          end)
    /\ app w' = app w /\ directory w' = directory w /\ now w' = now w
    /\ forward_calls tr = [] /\ backward_calls tr = []
    /\ createMigrationsTable w'
       = ([Query CreateTableIfNotExists; Query (SelectColumnExists "migrations" "batch");
           Log TableCreatedOrUpdated], w', Ok tt).
Proof.
  intros Hp. unfold ledger.
  destruct (migrations w) as [tb|] eqn:Hm; [destruct (batch_column tb) as [d|] eqn:Hcol|].
  - eexists _, w, tb. split; [eapply createMigrationsTable_present; eauto|].
    repeat match goal with |- _ /\ _ => split end; auto; try congruence.
    + intros tb0 E0. inversion E0; subst. rewrite Hcol. reflexivity.
    + eapply createMigrationsTable_present; eauto.
  - eexists _, _, _. split; [eapply createMigrationsTable_upgrade; eauto|]. simpl.
    repeat match goal with |- _ /\ _ => split end; auto; try discriminate.
    + cbn [rows]. rewrite map_map. reflexivity.
    + intros tb0 E0. inversion E0; subst. rewrite Hcol. cbn [rows]. intros row I.
      apply in_map_iff in I as (r0 & <- & _). reflexivity.
    + eapply createMigrationsTable_present; simpl; eauto. reflexivity.
  - eexists _, _, _. split; [apply createMigrationsTable_fresh; auto|]. simpl.
    repeat match goal with |- _ /\ _ => split end; auto; try discriminate.
    eapply createMigrationsTable_present; simpl; eauto. reflexivity.
Qed.

(** ** File names: what discovery accepts and what the script creates *)

Lemma string_length_app (a b : string) :
  String.length (a ++ b)%string = (String.length a + String.length b)%nat.
Proof. induction a as [|c a IH]; simpl; auto. Qed.

Lemma string_app_assoc (a b c : string) :
  ((a ++ b) ++ c = a ++ (b ++ c))%string.
Proof. induction a as [|x a IH]; simpl; [auto|]. rewrite IH. auto. Qed.

Lemma substring_all (s : string) : substring 0 (String.length s) s = s.
Proof. induction s as [|c s IH]; simpl; [auto|]. rewrite IH. auto. Qed.

Lemma substring_split (s : string) : forall i n m,
  (substring i n s ++ substring (i + n) m s)%string = substring i (n + m) s.
Proof.
  induction s as [|c s IH]; intros i n m.
  - destruct i, n, m; reflexivity.
  - destruct i as [|i]; simpl.
    + destruct n as [|n]; simpl.
      * destruct m; reflexivity.
      * rewrite <- (IH 0%nat n m). reflexivity.
    + apply IH.
Qed.

Lemma substring_length (s : string) : forall i n,
  (i + n <= String.length s)%nat -> String.length (substring i n s) = n.
Proof.
  induction s as [|c s IH]; intros i n Hle; simpl in Hle.
  - destruct i, n; simpl in *; auto; lia.
  - destruct i as [|i]; simpl.
    + destruct n as [|n]; simpl; auto. rewrite (IH 0%nat n); auto. simpl. lia.
    + apply IH. lia.
Qed.

Lemma substring_prefix (s : string) : forall i k m,
  (i + k <= m)%nat -> substring i k (substring 0 m s) = substring i k s.
Proof.
  induction s as [|c s IH]; intros i k m Hle.
  - destruct m; reflexivity.
  - destruct m as [|m]; simpl.
    + assert (i = 0 /\ k = 0)%nat as (-> & ->) by lia. reflexivity.
    + destruct i as [|i]; simpl.
      * destruct k as [|k]; simpl; auto. rewrite (IH 0%nat k m); auto. simpl. lia.
      * apply IH. lia.
Qed.

Lemma substring_app_l (a b : string) : forall i k,
  (i + k <= String.length a)%nat -> substring i k (a ++ b)%string = substring i k a.
Proof.
  induction a as [|c a IH]; intros i k Hle; simpl in *.
  - assert (i = 0 /\ k = 0)%nat as (-> & ->) by lia. destruct b; reflexivity.
  - destruct i as [|i]; simpl.
    + destruct k as [|k]; simpl; auto. rewrite (IH 0%nat k); auto. simpl. lia.
    + apply IH. lia.
Qed.

Lemma substring_app_r (a b : string) i k :
  substring (String.length a + i) k (a ++ b)%string = substring i k b.
Proof. induction a as [|c a IH]; simpl; auto. Qed.

Lemma is_timestamp_inv ts :
  is_timestamp ts = true ->
  String.length ts = 15%nat
  /\ all_chars is_digit (substring 0 8 ts) = true
  /\ substring 8 1 ts = "T"
  /\ all_chars is_digit (substring 9 6 ts) = true.
Proof.
  unfold is_timestamp. intros Ht.
  apply andb_prop in Ht as (Ht & D2). apply andb_prop in Ht as (Ht & T).
  apply andb_prop in Ht as (L & D1).
  apply Nat.eqb_eq in L. apply String.eqb_eq in T. auto.
Qed.

Lemma match_filename_build ts n ext :
  is_timestamp ts = true -> n <> "" -> all_chars is_dot n = true ->
  ext = ".ts" \/ ext = ".js" ->
  match_filename (ts ++ "_" ++ n ++ ext)%string = Some (ts, n).
Proof.
  intros Ht Hn Hdot Hext.
  apply is_timestamp_inv in Ht as (L & D1 & T & D2).
  assert (Le : String.length ext = 3%nat) by (destruct Hext as [->| ->]; reflexivity).
  assert (Ln : (1 <= String.length n)%nat) by (destruct n; simpl; [congruence|lia]).
  unfold match_filename.
  set (f := (ts ++ "_" ++ n ++ ext)%string).
  assert (Lf : String.length f = (19 + String.length n)%nat).
  { unfold f. rewrite !string_length_app, L, Le. simpl. lia. }
  rewrite Lf.
  replace (19 + String.length n - 19)%nat with (String.length n) by lia.
  replace (19 + String.length n - 3)%nat with (String.length (ts ++ "_" ++ n) + 0)%nat
    by (rewrite !string_length_app, L; simpl; lia).
  assert (S1 : forall i k, (i + k <= 15)%nat -> substring i k f = substring i k ts).
  { intros i k Hik. unfold f. apply substring_app_l. lia. }
  assert (S2 : substring 15 1 f = "_").
  { unfold f. change 15%nat with (15 + 0)%nat. rewrite <- L at 1.
    rewrite substring_app_r. simpl. destruct (n ++ ext)%string; reflexivity. }
  assert (S3 : substring 16 (String.length n) f = n).
  { unfold f. replace (ts ++ "_" ++ n ++ ext)%string
      with ((ts ++ "_") ++ (n ++ ext))%string
      by (rewrite string_app_assoc; reflexivity).
    replace 16%nat with (String.length (ts ++ "_") + 0)%nat
      by (rewrite string_length_app, L; reflexivity).
    rewrite substring_app_r, substring_app_l by lia. apply substring_all. }
  assert (S4 : substring (String.length (ts ++ "_" ++ n) + 0) 3 f = ext).
  { unfold f. replace (ts ++ "_" ++ n ++ ext)%string
      with ((ts ++ "_" ++ n) ++ ext)%string
      by (rewrite !string_app_assoc; reflexivity).
    rewrite substring_app_r, <- Le. apply substring_all. }
  assert (S0 : substring 0 15 f = ts).
  { rewrite S1 by lia. rewrite <- L. apply substring_all. }
  rewrite S0, S3, S4, S2, !S1 by lia. rewrite D1, T, D2, Hdot.
  replace (20 <=? 19 + String.length n)%nat with true
    by (symmetry; apply Nat.leb_le; lia).
  destruct Hext as [->| ->]; reflexivity.
Qed.

(** X14.  What the expression of [getMigrationFiles] accepts and captures:
    a file name yields timestamp [ts] and name [n] exactly when it is [ts],
    an underscore, [n] and [.ts] or [.js], with [ts] eight digits, [T] and six
    digits, and [n] not empty and free of line terminators. *)
Theorem match_filename_iff f ts n :
  match_filename f = Some (ts, n)
  <-> is_timestamp ts = true /\ n <> "" /\ all_chars is_dot n = true
      /\ (f = (ts ++ "_" ++ n ++ ".ts")%string \/ f = (ts ++ "_" ++ n ++ ".js")%string).
Proof.
  split.
  - unfold match_filename. intros E.
    destruct ((20 <=? String.length f)%nat
              && all_chars is_digit (substring 0 8 f)
              && String.eqb (substring 8 1 f) "T"
              && all_chars is_digit (substring 9 6 f)
              && String.eqb (substring 15 1 f) "_"
              && all_chars is_dot (substring 16 (String.length f - 19) f)
              && (String.eqb (substring (String.length f - 3) 3 f) ".ts"
                  || String.eqb (substring (String.length f - 3) 3 f) ".js")) eqn:C;
      [|discriminate].
    inversion E; subst ts n; clear E.
    apply andb_prop in C as (C & X). apply andb_prop in C as (C & Dot).
    apply andb_prop in C as (C & U). apply andb_prop in C as (C & D2).
    apply andb_prop in C as (C & T). apply andb_prop in C as (L & D1).
    apply Nat.leb_le in L. apply String.eqb_eq in U.
    split; [|split; [|split]]; auto.
    + unfold is_timestamp. rewrite substring_length by lia.
      rewrite !substring_prefix by lia. rewrite D1, T, D2. reflexivity.
    + intros Hn. apply (f_equal String.length) in Hn.
      rewrite substring_length in Hn by lia. simpl in Hn. lia.
    + assert (Hf : f = (substring 0 15 f ++ "_" ++ substring 16 (String.length f - 19) f
                        ++ substring (String.length f - 3) 3 f)%string).
      { rewrite <- U.
        replace (String.length f - 3)%nat with (16 + (String.length f - 19))%nat by lia.
        rewrite substring_split.
        change 16%nat with (15 + 1)%nat at 1. rewrite substring_split.
        change 15%nat with (0 + 15)%nat at 2. rewrite substring_split.
        replace (15 + (1 + (String.length f - 19 + 3)))%nat with (String.length f) by lia.
        symmetry. apply substring_all. }
      apply orb_prop in X as [X|X]; apply String.eqb_eq in X; rewrite X in Hf; auto.
  - intros (Ht & Hn & Hdot & [-> | ->]); apply match_filename_build; auto.
Qed.

Lemma digit_not_dash_colon c :
  is_digit c = true -> (Ascii.eqb c "-" || Ascii.eqb c ":")%bool = false.
Proof.
  destruct c as [[] [] [] [] [] [] [] []]; vm_compute; intros E;
    solve [reflexivity | discriminate].
Qed.

Lemma replace_char_same c s : CreateMigration.replace_char c c s = s.
Proof.
  induction s as [|x s IH]; simpl; [auto|].
  destruct (Ascii.eqb x c) eqn:E; [|rewrite IH; auto].
  apply Ascii.eqb_eq in E. subst. auto.
Qed.

Lemma remove_dash_colon_keep c s :
  (Ascii.eqb c "-" || Ascii.eqb c ":")%bool = false ->
  CreateMigration.remove_dash_colon (String c s)
  = String c (CreateMigration.remove_dash_colon s).
Proof. intros E. cbn [CreateMigration.remove_dash_colon]. rewrite E. reflexivity. Qed.

Lemma remove_dash_colon_drop c s :
  (Ascii.eqb c "-" || Ascii.eqb c ":")%bool = true ->
  CreateMigration.remove_dash_colon (String c s) = CreateMigration.remove_dash_colon s.
Proof. intros E. cbn [CreateMigration.remove_dash_colon]. rewrite E. reflexivity. Qed.

Lemma timestamp_is_timestamp iso :
  CreateMigration.is_iso iso = true ->
  is_timestamp (CreateMigration.timestamp iso) = true.
Proof.
  unfold CreateMigration.is_iso. intros Hiso. split_conjuncts.
  apply Nat.eqb_eq in Hiso.
  do 24 (destruct iso as [|? iso]; [discriminate Hiso|]).
  destruct iso; [|discriminate Hiso]. clear Hiso.
  repeat match goal with
         | H : String.eqb _ _ = true |- _ =>
             apply String.eqb_eq in H; cbn [substring] in H; inversion H; clear H; subst
         end.
  cbn [substring all_chars] in *. split_conjuncts.
  unfold CreateMigration.timestamp. rewrite replace_char_same.
  repeat first
    [ rewrite remove_dash_colon_keep
        by first [apply digit_not_dash_colon; assumption | reflexivity]
    | rewrite remove_dash_colon_drop by reflexivity ].
  cbn [CreateMigration.remove_dash_colon].
  unfold CreateMigration.strip_millis. cbn -[is_digit].
  repeat match goal with
         | H : is_digit ?c = true |- _ => rewrite H
         end.
  cbn -[is_digit]. unfold is_timestamp. cbn -[is_digit].
  repeat match goal with
         | H : is_digit ?c = true |- _ => rewrite H
         end.
  reflexivity.
Qed.


Lemma compare_app_lt (a b x y : string) :
  String.length a = String.length b ->
  String.compare a b = Lt ->
  String.compare (a ++ x) (b ++ y) = Lt.
Proof.
  revert b. induction a as [|c a IH]; intros [|d b] L E; simpl in *; try discriminate.
  destruct (Ascii.compare c d); try discriminate; auto.
Qed.

(** X16.  A file created in a later second sorts later: of two file names
    built by the create-migration script, the one with the smaller timestamp
    comes first in [sort()], whichever way round they were listed and whatever
    the names of the migrations. *)
Theorem later_file_sorts_later iso1 iso2 n1 n2 :
  CreateMigration.is_iso iso1 = true -> CreateMigration.is_iso iso2 = true ->
  String.ltb (CreateMigration.timestamp iso1) (CreateMigration.timestamp iso2) = true ->
  js_sort [CreateMigration.filename iso2 n2; CreateMigration.filename iso1 n1]
  = [CreateMigration.filename iso1 n1; CreateMigration.filename iso2 n2]
  /\ js_sort [CreateMigration.filename iso1 n1; CreateMigration.filename iso2 n2]
     = [CreateMigration.filename iso1 n1; CreateMigration.filename iso2 n2].
Proof.
  intros H1 H2 Hlt.
  apply timestamp_is_timestamp, is_timestamp_inv in H1 as (L1 & _).
  apply timestamp_is_timestamp, is_timestamp_inv in H2 as (L2 & _).
  unfold String.ltb in Hlt.
  destruct (String.compare (CreateMigration.timestamp iso1)
                           (CreateMigration.timestamp iso2)) eqn:C; try discriminate.
  assert (C12 : String.compare (CreateMigration.filename iso1 n1)
                               (CreateMigration.filename iso2 n2) = Lt).
  { unfold CreateMigration.filename. apply compare_app_lt; [congruence|exact C]. }
  assert (C21 : String.compare (CreateMigration.filename iso2 n2)
                               (CreateMigration.filename iso1 n1) = Gt).
  { rewrite String.compare_antisym, C12. reflexivity. }
  unfold js_sort, insert_sorted, String.leb. rewrite C12, C21. auto.
Qed.

(** ** Steps that are not positive *)

(** X17.  [rollbackSteps] with zero or a negative number of steps rolls
    nothing back: the store and the clock are untouched, no operation is
    invoked, and the database is only asked whether the table exists.  With a
    live pool the call, when the table exists, still reports that the steps
    were completed; it then returns normally, unless the process was started
    with [-e]: then the call never settles. *)
Theorem rollbackSteps_nonpositive steps (w w' : World) tr r :
  steps <= 0 ->
  rollbackSteps steps w = (tr, w', r) ->
  same_store w' w /\ now w' = now w
  /\ forward_calls tr = [] /\ backward_calls tr = []
  /\ (forall q, In q (statements tr) -> q = SelectTableExists)
  /\ (pool_ended w = false ->
      r = (if argv_e w then Pending else Ok tt)
      /\ logged tr = match migrations w with
                     | None => [TableMissingNothingToRollback]
                     | Some _ => [RollingBackSteps steps; StepsCompleted steps]
                     end).
Proof.
  intros Hs E. unfold rollbackSteps in E.
  apply entry_inv in E as (tb & wb & rb & tc & rc & Eb & Hc & -> & ->);
    [..|exact _].
  pose proof (close_result _ _ _ _ Hc) as (Hrc & _).
  apply close_inv in Hc as (Hm & Ha & Hd & Hn & _ & Fc & Bc & Sc & Lc & _).
  unfold rollbackSteps_try in Eb.
  replace (Z.to_nat steps) with 0%nat in Eb by lia.
  unfold bind, migrationTableExists, pool_query, rollbackSteps_loop, log, emit, ret in Eb.
  unfold same_store. rewrite Hm, Ha, Hd, Hn.
  destruct (pool_ended w) eqn:Hp; simpl in Eb.
  - inversion Eb; subst. simpl. rewrite Fc, Bc, Sc.
    repeat match goal with |- _ /\ _ => split end; auto;
      first [intros q []|intros Hx; discriminate Hx].
  - destruct (migrations w) as [t|] eqn:Hmw; simpl in Eb; inversion Eb; subst; simpl;
      rewrite ?forward_calls_app, ?backward_calls_app, ?statements_app, ?logged_app,
        ?Fc, ?Bc, ?Sc, ?Lc; simpl;
      repeat match goal with |- _ /\ _ => split end; auto;
      first [intros q [<-|[]]; reflexivity
            |intros _; rewrite Hp; destruct (argv_e wb); auto].
Qed.

(** ** The pool *)







End Properties.

(** * The theorems at the example installations *)

Lemma outcome_eta {A} (out : list Event * @World demo_env * Result A) :
  out = (trace_of out, world_after out, result_of out).
Proof. destruct out as [[tr w] r]. reflexivity. Qed.

Lemma runMigrations_forward_failure_witness :
  discovered (directory failing_run) = Ok [mf_create_x; mf_broken; mf_create_w]
  /\ forward_calls (trace_of (runMigrations failing_run))
     = [(mf_create_x, None); (mf_broken, Some "boom")]
  /\ isApplied "create_w" (world_after (runMigrations failing_run)) = false
  /\ In (Up mf_broken (Some "boom")) (trace_of (runMigrations failing_run))
  /\ result_of (runMigrations failing_run) = Err (OperationFailed "boom")
  /\ exists applied,
       forward_calls (trace_of (runMigrations failing_run))
       = map succeeded applied ++ [(mf_broken, Some "boom")]
       /\ (forall a, In a applied ->
             isApplied (name a) failing_run = false
             /\ isApplied (name a) (world_after (runMigrations failing_run)) = true)
       /\ isApplied (name mf_broken) (world_after (runMigrations failing_run)) = false.
Proof.
  assert (Hin : In (Up mf_broken (Some "boom")) (trace_of (runMigrations failing_run)))
    by (vm_compute; tauto).
  split; [vm_compute; reflexivity|]. split; [vm_compute; reflexivity|].
  split; [vm_compute; reflexivity|]. split; [exact Hin|].
  apply (runMigrations_forward_failure failing_run
           (world_after (runMigrations failing_run))
           (trace_of (runMigrations failing_run))
           (result_of (runMigrations failing_run)) mf_broken "boom").
  - reflexivity.
  - vm_compute. reflexivity.
  - exact Hin.
Defined.

Lemma runMigrations_batch_witness :
  batches_in_range upgrade_run
  /\ currentMaxBatch upgrade_run = 1
  /\ In (Up mf_create_z None) (trace_of (runMigrations upgrade_run))
  /\ (forall row, In row (ledger (world_after (runMigrations upgrade_run))) ->
        migration_name row = "create_z" -> batch row = Some 2).
Proof.
  assert (Hrange : batches_in_range upgrade_run).
  { split; [discriminate|]. intros r b [<-|[]] Hb. inversion Hb.
    unfold int4_max. lia. }
  assert (Hin : In (Up mf_create_z None) (trace_of (runMigrations upgrade_run)))
    by (vm_compute; tauto).
  split; [exact Hrange|]. split; [reflexivity|]. split; [exact Hin|].
  destruct (runMigrations_batch upgrade_run
              (world_after (runMigrations upgrade_run))
              (trace_of (runMigrations upgrade_run))
              (result_of (runMigrations upgrade_run)))
    as (Hrec & _).
  - vm_compute. reflexivity.
  - exact (proj2 (Hrec Hrange mf_create_z Hin)).
Defined.

Lemma runMigrations_idempotent_witness :
  runMigrations first_run
  = (trace_of (runMigrations first_run), world_after (runMigrations first_run), Ok tt)
  /\ exists tr2 v2,
       runMigrations (world_after (runMigrations first_run)) = (tr2, v2, Ok tt)
       /\ forward_calls tr2 = []
       /\ same_store v2 (world_after (runMigrations first_run))
       /\ logged tr2 = [NothingToMigrate].
Proof.
  assert (E : runMigrations first_run
              = (trace_of (runMigrations first_run),
                 world_after (runMigrations first_run), Ok tt))
    by (vm_compute; reflexivity).
  split; [exact E|].
  apply (runMigrations_idempotent first_run _ _ E).
  - unfold same_store. auto.
  - vm_compute. reflexivity.
  - vm_compute. reflexivity.
Defined.

Lemma rollback_newest_first_witness :
  (forall t, t < @tick demo_env t)
  /\ batches_in_range upgrade_run
  /\ map name (newly_applied (trace_of (runMigrations upgrade_run)))
     = ["add_y_to_x"; "create_z"]
  /\ rolled_back (trace_of (rollbackLastBatch (world_after (runMigrations upgrade_run))))
     = ["create_z"; "add_y_to_x"].
Proof.
  assert (Htick : forall t, t < @tick demo_env t) by (intros t; simpl; lia).
  assert (Hrange : batches_in_range upgrade_run).
  { split; [discriminate|]. intros r b [<-|[]] Hb. inversion Hb.
    unfold int4_max. lia. }
  split; [exact Htick|]. split; [exact Hrange|]. split; [vm_compute; reflexivity|].
  destruct (@rollback_newest_first demo_env) as (_ & _ & Hbatch).
  destruct (Hbatch upgrade_run (world_after (runMigrations upgrade_run))
              (world_after (runMigrations upgrade_run))
              (world_after (rollbackLastBatch (world_after (runMigrations upgrade_run))))
              (trace_of (runMigrations upgrade_run))
              (trace_of (rollbackLastBatch (world_after (runMigrations upgrade_run))))
              (result_of (rollbackLastBatch (world_after (runMigrations upgrade_run))))
              Htick Hrange)
    as (_ & Hall).
  - vm_compute. reflexivity.
  - vm_compute. discriminate.
  - reflexivity.
  - vm_compute. reflexivity.
  - rewrite Hall; vm_compute; reflexivity.
Defined.

(** C5 as stated fails: two entries fail the pattern of the specification,
    one for its ending and one for the hyphen in its name, and the scan
    succeeds all the same, with a definition for the second. *)
Lemma discovery_pattern_counterexample :
  spec_pattern (entry_name file_notes) = false
  /\ spec_pattern (entry_name file_hyphen) = false
  /\ getMigrationFiles (installation None [file_notes; file_hyphen])
     = ([], installation None [file_notes; file_hyphen],
        Ok [{| filename := "20250101T000000_create-x.ts";
               timestamp := "20250101T000000"; name := "create-x" |}]).
Proof. repeat split; vm_compute; reflexivity. Qed.

Lemma getMigrationFiles_all_or_nothing_witness :
  directory (installation None [file_create_x; file_untimed; file_notes])
  = Some [file_create_x; file_untimed; file_notes]
  /\ (exists f, In f (map entry_name [file_create_x; file_untimed; file_notes])
                /\ (endsWith f ".ts" || endsWith f ".js") = true
                /\ match_filename f = None)
  /\ exists g,
       getMigrationFiles (installation None [file_create_x; file_untimed; file_notes])
       = ([], installation None [file_create_x; file_untimed; file_notes],
          Err (InvalidFilename g))
       /\ In g (map entry_name [file_create_x; file_untimed; file_notes])
       /\ match_filename g = None.
Proof.
  assert (Hbad : exists f, In f (map entry_name [file_create_x; file_untimed; file_notes])
                /\ (endsWith f ".ts" || endsWith f ".js") = true
                /\ match_filename f = None).
  { exists "create_x.ts". repeat split; vm_compute; auto. }
  split; [reflexivity|]. split; [exact Hbad|].
  apply (proj1 (getMigrationFiles_all_or_nothing
                  (installation None [file_create_x; file_untimed; file_notes])
                  [file_create_x; file_untimed; file_notes] eq_refl)).
  exact Hbad.
Defined.

(** C6 fails on the code.  [runMigrations] on a table that exists without
    the [batch] column never calls [createMigrationsTable]: the column is not
    added, the pending migration is applied, the query for the next batch
    number fails, and the migration is left without a record. *)
Theorem runMigrations_legacy_table :
  statements (trace_of (runMigrations legacy))
  = [SelectTableExists; SelectExecuted "create_x"; SelectExecuted "add_y_to_x";
     SelectNextBatch]
  /\ newly_applied (trace_of (runMigrations legacy)) = [mf_add_y]
  /\ result_of (runMigrations legacy) = Err UndefinedColumn
  /\ migrations (world_after (runMigrations legacy)) = Some legacy_table
  /\ isApplied "add_y_to_x" (world_after (runMigrations legacy)) = false.
Proof. repeat split; vm_compute; reflexivity. Qed.

(** C7 as stated fails: for a name without a record the primitive invokes
    the backward operation and returns normally. *)
Lemma rollbackSingleMigration_unrecorded_counterexample :
  isApplied "create_x" unapplied = false
  /\ result_of (rollbackSingleMigration "create_x" unapplied) = Ok tt
  /\ backward_calls (trace_of (rollbackSingleMigration "create_x" unapplied))
     = [(mf_create_x, None)].
Proof. repeat split; vm_compute; reflexivity. Qed.

Lemma rollback_of_unrecorded_name_witness :
  (isApplied "create_x" unapplied = false
   /\ rollbackSpecificMigration "create_x" unapplied
      = ([Query SelectTableExists; Query SelectNamesDesc;
          Log (NotExecutedOrNotFound "create_x")], unapplied, Ok tt)
   /\ result_of (rollbackSingleMigration "create_x" unapplied)
      <> Err (MigrationNotFound "create_x")
   /\ backward_calls (trace_of (rollbackSingleMigration "create_x" unapplied))
      = [(mf_create_x, None)])
  /\ (isApplied "empty" classless = false
      /\ result_of (rollbackSingleMigration "empty" classless)
         = Err (NoMigrationClass "20250101T000500_empty.ts")
      /\ backward_calls (trace_of (rollbackSingleMigration "empty" classless)) = [])
  /\ (isApplied "create_z" unapplied = false
      /\ result_of (rollbackSingleMigration "create_z" unapplied)
         = Err (MigrationNotFound "create_z")
      /\ backward_calls (trace_of (rollbackSingleMigration "create_z" unapplied)) = []).
Proof.
  split; [|split].
  - destruct (rollback_of_unrecorded_name unapplied "create_x" eq_refl) as (Hsoft & Hprim).
    split; [reflexivity|]. split.
    + apply Hsoft; [reflexivity|reflexivity|discriminate].
    + destruct (Hprim _ _ _ [mf_create_x]
                  (outcome_eta (rollbackSingleMigration "create_x" unapplied)) eq_refl)
        as (_ & _ & Hne & Hok & _).
      split; [exact Hne|]. exact (Hok (creating "x") eq_refl).
  - destruct (rollback_of_unrecorded_name classless "empty" eq_refl) as (_ & Hprim).
    split; [reflexivity|].
    destruct (Hprim _ _ _ [mf_classless]
                (outcome_eta (rollbackSingleMigration "empty" classless)) eq_refl)
      as (_ & _ & _ & _ & Herr).
    exact (Herr _ eq_refl).
  - destruct (rollback_of_unrecorded_name unapplied "create_z" eq_refl) as (_ & Hprim).
    split; [reflexivity|].
    exact (Hprim _ _ _ [mf_create_x]
             (outcome_eta (rollbackSingleMigration "create_z" unapplied)) eq_refl).
Defined.

Lemma rollbackSingleMigration_record_witness :
  (isApplied "broken" stuck = true
   /\ In (Down mf_broken (Some "boom"))
         (trace_of (rollbackSingleMigration "broken" stuck))
   /\ result_of (rollbackSingleMigration "broken" stuck) = Err (OperationFailed "boom")
   /\ migrations (world_after (rollbackSingleMigration "broken" stuck))
      = migrations stuck
   /\ isApplied "broken" (world_after (rollbackSingleMigration "broken" stuck)) = true)
  /\ (isApplied "create_z" upgraded = true
      /\ pool_ended upgraded = false
      /\ In (Down mf_create_z None)
            (trace_of (rollbackSingleMigration "create_z" upgraded))
      /\ result_of (rollbackSingleMigration "create_z" upgraded) = Ok tt
      /\ isApplied "create_z" (world_after (rollbackSingleMigration "create_z" upgraded))
         = false
      /\ exists tb,
           migrations upgraded = Some tb
           /\ migrations (world_after (rollbackSingleMigration "create_z" upgraded))
              = Some (without "create_z" tb)).
Proof.
  split.
  - assert (Hin : In (Down mf_broken (Some "boom"))
                     (trace_of (rollbackSingleMigration "broken" stuck)))
      by (vm_compute; tauto).
    split; [reflexivity|]. split; [exact Hin|].
    destruct (rollbackSingleMigration_record stuck
                (world_after (rollbackSingleMigration "broken" stuck)) "broken"
                (trace_of (rollbackSingleMigration "broken" stuck))
                (result_of (rollbackSingleMigration "broken" stuck)) eq_refl)
      as (Hfail & _).
    + vm_compute. reflexivity.
    + exact (Hfail mf_broken "boom" Hin).
  - assert (Hin : In (Down mf_create_z None)
                     (trace_of (rollbackSingleMigration "create_z" upgraded)))
      by (vm_compute; tauto).
    split; [reflexivity|]. split; [reflexivity|]. split; [exact Hin|].
    destruct (rollbackSingleMigration_record upgraded
                (world_after (rollbackSingleMigration "create_z" upgraded)) "create_z"
                (trace_of (rollbackSingleMigration "create_z" upgraded))
                (result_of (rollbackSingleMigration "create_z" upgraded)) eq_refl)
      as (_ & _ & _ & Hdone).
    + vm_compute. reflexivity.
    + exact (Hdone mf_create_z Hin eq_refl).
Defined.

Lemma refreshMigrations_refines_witness :
  (exists tr2,
     refresh_as_specified (world_after (runMigrations first_run))
     = (tr2, world_after (refreshMigrations (world_after (runMigrations first_run))),
        Ok tt)
     /\ effects (trace_of (refreshMigrations (world_after (runMigrations first_run))))
        = effects tr2)
  /\ (exists tr',
        refreshMigrations stuck
        = (tr', world_after (rollbackAllMigrations stuck), Err (OperationFailed "boom"))
        /\ effects tr' = effects (trace_of (rollbackAllMigrations stuck))
        /\ forward_calls tr' = []).
Proof.
  destruct (@refreshMigrations_refines demo_env) as (Hsame & Hfail). split.
  - apply (Hsame (world_after (runMigrations first_run))).
    vm_compute. reflexivity.
  - apply (Hfail stuck). vm_compute. reflexivity.
Defined.

Lemma no_table_no_effect_witness :
  migrations first_run = None /\ pool_ended first_run = false
  /\ argv_e first_run = false
  /\ leaves_untouched rollbackLastBatch first_run
  /\ leaves_untouched (rollbackSteps 2) first_run
  /\ leaves_untouched rollbackAllMigrations first_run
  /\ leaves_untouched (rollbackSpecificMigration "create_x") first_run
  /\ leaves_untouched showMigrationStatus first_run
  /\ migrations (world_after (runMigrations first_run)) <> None.
Proof.
  destruct (no_table_no_effect first_run eq_refl eq_refl eq_refl)
    as (H1 & H2 & H3 & H4 & H5 & H6).
  repeat split; auto.
  apply (H6 (trace_of (runMigrations first_run)) _ (result_of (runMigrations first_run))).
  vm_compute. reflexivity.
Defined.

Lemma runMigrations_in_order_witness :
  ascending (forward_files (trace_of (runMigrations first_run)))
  /\ forward_files (trace_of (runMigrations first_run))
     = ["20250101T000000_create_x.ts"; "20250101T000100_add_y_to_x.ts";
        "20250101T000200_create_z.ts"].
Proof.
  split; [|vm_compute; reflexivity].
  exact (proj1 (@runMigrations_in_order demo_env first_run _ _ _
                  (outcome_eta (runMigrations first_run)))).
Defined.

Lemma runMigrations_skips_recorded_witness :
  In (Up mf_add_y None) (trace_of (runMigrations upgrade_run))
  /\ isApplied (name mf_add_y) upgrade_run = false.
Proof.
  assert (Hin : In (Up mf_add_y None) (trace_of (runMigrations upgrade_run)))
    by (vm_compute; tauto).
  split; [exact Hin|].
  exact (@runMigrations_skips_recorded demo_env upgrade_run _ _ _
           (outcome_eta (runMigrations upgrade_run)) mf_add_y None Hin).
Defined.

Lemma runMigrations_records_all_witness :
  discovered (directory first_run) = Ok [mf_create_x; mf_add_y; mf_create_z]
  /\ isApplied (name mf_create_z) migrated = true.
Proof.
  assert (Hd : discovered (directory first_run) = Ok [mf_create_x; mf_add_y; mf_create_z])
    by (vm_compute; reflexivity).
  split; [exact Hd|].
  apply (@runMigrations_records_all demo_env first_run migrated
           (trace_of (runMigrations first_run)) [mf_create_x; mf_add_y; mf_create_z]).
  - vm_compute. reflexivity.
  - exact Hd.
  - simpl. tauto.
Defined.

Lemma runMigrations_keeps_names_unique_witness :
  unique_names upgrade_run /\ unique_names upgraded.
Proof.
  assert (Hu : unique_names upgrade_run).
  { unfold unique_names. simpl. constructor; [intros []|constructor]. }
  split; [exact Hu|].
  exact (@runMigrations_keeps_names_unique demo_env upgrade_run upgraded _ _ Hu
           (outcome_eta (runMigrations upgrade_run))).
Defined.

Lemma runMigrations_only_appends_witness :
  (exists new,
     ledger upgraded = ledger upgrade_run ++ new
     /\ forall row, In row new ->
          exists m, In (Up m None) (trace_of (runMigrations upgrade_run))
                    /\ name m = migration_name row)
  /\ forall tb, migrations upgrade_run = Some tb ->
       exists tb', migrations upgraded = Some tb' /\ batch_column tb' = batch_column tb.
Proof.
  exact (@runMigrations_only_appends demo_env upgrade_run upgraded _ _
           (outcome_eta (runMigrations upgrade_run))).
Defined.

Lemma rollbackAllMigrations_empties_witness :
  List.length (ledger migrated) = 3%nat
  /\ ledger (world_after (rollbackAllMigrations migrated)) = [].
Proof.
  split; [vm_compute; reflexivity|].
  apply (@rollbackAllMigrations_empties demo_env migrated _
           (trace_of (rollbackAllMigrations migrated))).
  vm_compute. reflexivity.
Defined.

Lemma rollbackLastBatch_removes_last_batch_witness :
  unique_names upgraded
  /\ map migration_name (last_batch upgraded) = ["add_y_to_x"; "create_z"]
  /\ forall row,
       In row (ledger (world_after (rollbackLastBatch upgraded)))
       <-> In row (ledger upgraded) /\ ~ In row (last_batch upgraded).
Proof.
  assert (Hu : unique_names upgraded).
  { unfold unique_names.
    change (map migration_name (ledger upgraded))
      with ["create_x"; "add_y_to_x"; "create_z"].
    repeat constructor; simpl; intuition discriminate. }
  split; [exact Hu|]. split; [vm_compute; reflexivity|].
  apply (@rollbackLastBatch_removes_last_batch demo_env upgraded _
           (trace_of (rollbackLastBatch upgraded)) Hu).
  vm_compute. reflexivity.
Defined.

Lemma rollbacks_only_delete_witness :
  only_deleted migrated (world_after (rollbackSteps 1 migrated))
  /\ forward_calls (trace_of (rollbackSteps 1 migrated)) = [].
Proof.
  exact (proj1 (proj2 (@rollbacks_only_delete demo_env)) 1 migrated _ _ _
           (outcome_eta (rollbackSteps 1 migrated))).
Defined.

Lemma showMigrationStatus_reads_only_witness :
  pool_ended upgraded = false
  /\ same_store (world_after (showMigrationStatus upgraded)) upgraded
  /\ result_of (showMigrationStatus upgraded) = Ok tt
  /\ (exists lines,
        logged (trace_of (showMigrationStatus upgraded)) = [History lines 3]
        /\ Permutation lines [("create_x", 10); ("add_y_to_x", 100); ("create_z", 101)]
        /\ StronglySorted (fun a b => snd b <= snd a) lines)
  /\ result_of (showMigrationStatus standalone_upgrade) = Pending.
Proof.
  destruct (@showMigrationStatus_reads_only demo_env upgraded _ _ _
              (outcome_eta (showMigrationStatus upgraded)))
    as (Hs & _ & _ & _ & _ & Hlog).
  destruct (Hlog eq_refl) as (Hr & report & Hl & Hm).
  change (exists lines,
            report = History lines 3
            /\ Permutation lines
                 [("create_x", 10); ("add_y_to_x", 100); ("create_z", 101)]
            /\ StronglySorted (fun a b => snd b <= snd a) lines) in Hm.
  destruct Hm as (lines & -> & Hperm & Hsort).
  split; [reflexivity|]. split; [exact Hs|]. split; [exact Hr|].
  split; [exists lines; auto|].
  exact (proj1 (proj2 (proj2 (proj2 (proj2 (proj2
           (@showMigrationStatus_reads_only demo_env standalone_upgrade _ _ _
              (outcome_eta (showMigrationStatus standalone_upgrade))))))) eq_refl)).
Defined.

Lemma refreshMigrations_standalone_witness :
  argv_e standalone_upgrade = true
  /\ result_of (refreshMigrations standalone_upgrade) = Pending
  /\ refreshMigrations standalone_upgrade
     = ([Log Refreshing] ++ trace_of (rollbackAllMigrations standalone_upgrade),
        world_after (rollbackAllMigrations standalone_upgrade), Pending)
  /\ forward_calls (trace_of (refreshMigrations standalone_upgrade)) = []
  /\ only_deleted standalone_upgrade (world_after (refreshMigrations standalone_upgrade)).
Proof.
  destruct (@refreshMigrations_standalone demo_env standalone_upgrade _ _ _ eq_refl
              (outcome_eta (refreshMigrations standalone_upgrade)))
    as (Hr & _ & Hf & Hd).
  split; [reflexivity|]. split; [exact Hr|]. split; [vm_compute; reflexivity|].
  split; [exact Hf|exact Hd].
Defined.

Lemma rollbackSpecificMigration_removes_witness :
  isApplied "add_y_to_x" upgraded = true
  /\ map migration_name
       (ledger (world_after (rollbackSpecificMigration "add_y_to_x" upgraded)))
     = ["create_x"; "create_z"]
  /\ exists m, name m = "add_y_to_x"
               /\ backward_calls
                    (trace_of (rollbackSpecificMigration "add_y_to_x" upgraded))
                  = [(m, None)].
Proof.
  destruct (@rollbackSpecificMigration_removes demo_env "add_y_to_x" upgraded
              (world_after (rollbackSpecificMigration "add_y_to_x" upgraded))
              (trace_of (rollbackSpecificMigration "add_y_to_x" upgraded)))
    as (Hl & Hb).
  - vm_compute. reflexivity.
  - split; [reflexivity|]. split; [rewrite Hl; vm_compute; reflexivity|].
    exact (Hb eq_refl).
Defined.

Lemma createMigrationsTable_ensures_witness :
  pool_ended legacy = false
  /\ exists tr w' tb',
       createMigrationsTable legacy = (tr, w', Ok tt)
       /\ migrations w' = Some tb'
       /\ rows tb' = [{| migration_name := "create_x"; executed_at := 50;
                         batch := Some 1 |}].
Proof.
  split; [reflexivity|].
  destruct (@createMigrationsTable_ensures demo_env legacy eq_refl)
    as (tr & w' & tb' & E & Hm & _).
  exists tr, w', tb'. split; [exact E|]. split; [exact Hm|].
  vm_compute in E. inversion E; subst. simpl in Hm. inversion Hm. reflexivity.
Defined.

Lemma match_filename_iff_witness :
  is_timestamp "20250814T120100" = true
  /\ match_filename "20250814T120100_create_login_logs_table.ts"
     = Some ("20250814T120100", "create_login_logs_table").
Proof.
  split; [reflexivity|].
  apply (proj2 (match_filename_iff "20250814T120100_create_login_logs_table.ts"
                  "20250814T120100" "create_login_logs_table")).
  split; [reflexivity|]. split; [discriminate|]. split; [reflexivity|].
  left. reflexivity.
Defined.


Lemma later_file_sorts_later_witness :
  String.ltb (CreateMigration.timestamp iso_first) (CreateMigration.timestamp iso_second)
  = true
  /\ js_sort [CreateMigration.filename iso_second "add_avatar";
              CreateMigration.filename iso_first "create_posts"]
     = ["20250814T120100_create_posts.ts"; "20250814T120230_add_avatar.ts"].
Proof.
  split; [reflexivity|].
  exact (proj1 (later_file_sorts_later iso_first iso_second "create_posts" "add_avatar"
                  eq_refl eq_refl eq_refl)).
Defined.

Lemma rollbackSteps_nonpositive_witness :
  0 <= 0
  /\ same_store (world_after (rollbackSteps 0 upgraded)) upgraded
  /\ result_of (rollbackSteps 0 upgraded) = Ok tt
  /\ logged (trace_of (rollbackSteps 0 upgraded))
     = [RollingBackSteps 0; StepsCompleted 0]
  /\ result_of (rollbackSteps 0 standalone_upgrade) = Pending.
Proof.
  assert (H0 : 0 <= 0) by lia.
  destruct (@rollbackSteps_nonpositive demo_env 0 upgraded _ _ _ H0
              (outcome_eta (rollbackSteps 0 upgraded)))
    as (Hs & _ & _ & _ & _ & Hlog).
  split; [exact H0|]. split; [exact Hs|].
  split; [exact (proj1 (Hlog eq_refl))|]. split; [exact (proj2 (Hlog eq_refl))|].
  exact (proj1 (proj2 (proj2 (proj2 (proj2 (proj2
           (@rollbackSteps_nonpositive demo_env 0 standalone_upgrade _ _ _ H0
              (outcome_eta (rollbackSteps 0 standalone_upgrade))))))) eq_refl)).
Defined.

